(** * git-local-backup: the reconciliation algorithm of [main.go]

    A shallow embedding of the Go program [main.go] (package [main]):
    the backup snapshot, the per-project list of files to back up, and
    the copy / delete / prune passes over the backup directory.

    The program talks to three things outside itself: the file system
    (package [os] and [path/filepath]), the [git] executable (package
    [os/exec]) and standard output ([fmt.Println]).  The file system is a
    tree of directories and regular files; [git] is a set of oracles, one
    per command line the program runs; output and the mutating calls the
    program issues are recorded, in order, as a list of events.

    Paths are Go strings (byte strings) on a platform whose separator is
    the slash, so [filepath.FromSlash] is the identity.  The projects
    directory and the backup directory are given by absolute paths, on
    two file systems (the backup is a disk of its own or a mounted
    drive): every path the program hands to package [os] is then
    absolute, and the working directory plays no part. *)

From stdpp Require Import gmap strings list sorting.
From Stdlib Require Import Ascii String.

Set Default Proof Using "Type".
#[local] Set Warnings "-clear-no-such-hyp".
Local Open Scope string_scope.
Local Open Scope list_scope.

(** ** Package [strings] *)

Module GoStrings.

(** [strings.Split(s, sep)] for a separator of one byte: the pieces of
    [s] between the separators; always at least one piece. *)
Fixpoint Split (sep : ascii) (s : string) : list string :=
  match s with
  | EmptyString => [EmptyString]
  | String c s' =>
      if Ascii.eqb c sep then EmptyString :: Split sep s'
      else match Split sep s' with
           | [] => [String c EmptyString]
           | w :: ws => String c w :: ws
           end
  end.

(** [unicode.IsSpace] on the UTF-8 bytes of a string: the white space
    of one byte (tab, line feed, vertical tab, form feed, carriage
    return, space), of two bytes (U+0085 and U+00A0: C2 85, C2 A0) and
    of three bytes (U+1680: E1 9A 80; U+2000 to U+200A, U+2028, U+2029
    and U+202F: E2 80 80 to 8A, A8, A9, AF; U+205F: E2 81 9F; U+3000:
    E3 80 80). *)
Definition isSpace (c : ascii) : bool :=
  let n := nat_of_ascii c in
  (Nat.leb 9 n && Nat.leb n 13) || Nat.eqb n 32.

Definition isSpace2 (c d : ascii) : bool :=
  Nat.eqb (nat_of_ascii c) 194 &&
  (Nat.eqb (nat_of_ascii d) 133 || Nat.eqb (nat_of_ascii d) 160).

Definition isSpace3 (c d e : ascii) : bool :=
  let c := nat_of_ascii c in
  let d := nat_of_ascii d in
  let e := nat_of_ascii e in
  (Nat.eqb c 225 && Nat.eqb d 154 && Nat.eqb e 128) ||
  (Nat.eqb c 226 && Nat.eqb d 128 &&
   ((Nat.leb 128 e && Nat.leb e 138) || Nat.eqb e 168 || Nat.eqb e 169 || Nat.eqb e 175)) ||
  (Nat.eqb c 226 && Nat.eqb d 129 && Nat.eqb e 159) ||
  (Nat.eqb c 227 && Nat.eqb d 128 && Nat.eqb e 128).

(** Drops the leading white space, character by character. *)
Fixpoint TrimLeftSpace (s : string) : string :=
  match s with
  | EmptyString => EmptyString
  | String c s1 =>
      if isSpace c then TrimLeftSpace s1
      else
        match s1 with
        | EmptyString => s
        | String d s2 =>
            if isSpace2 c d then TrimLeftSpace s2
            else
              match s2 with
              | EmptyString => s
              | String e s3 => if isSpace3 c d e then TrimLeftSpace s3 else s
              end
        end
  end.

(** Drops the trailing white space: a character is kept when it is not
    white space or when something is kept after it. *)
Fixpoint TrimRightSpace (s : string) : string :=
  match s with
  | EmptyString => EmptyString
  | String c s1 =>
      let byte :=
        match TrimRightSpace s1 with
        | EmptyString => if isSpace c then EmptyString else String c EmptyString
        | t => String c t
        end in
      match s1 with
      | EmptyString => byte
      | String d s2 =>
          if isSpace2 c d then
            match TrimRightSpace s2 with
            | EmptyString => EmptyString
            | t => String c (String d t)
            end
          else
            match s2 with
            | EmptyString => byte
            | String e s3 =>
                if isSpace3 c d e then
                  match TrimRightSpace s3 with
                  | EmptyString => EmptyString
                  | t => String c (String d (String e t))
                  end
                else byte
            end
      end
  end.

(** [strings.TrimSpace]. *)
Definition TrimSpace (s : string) : string :=
  TrimRightSpace (TrimLeftSpace s).

(** [strings.Join(elems, sep)]. *)
Definition Join (elems : list string) (sep : string) : string :=
  String.concat sep elems.

End GoStrings.

(** ** Package [path/filepath] *)

Module Filepath.

Definition Separator : ascii := "/"%char.

(** The separator is already the slash. *)
Definition FromSlash (s : string) : string := s.

(** The lexical processing of [Clean], on the elements between the
    separators and with the elements kept so far as a stack: empty
    elements and [.] are dropped; [..] removes the element before it,
    is dropped at the root of a rooted path and is kept at the start of
    a relative one. *)
Fixpoint cleanElems (rooted : bool) (kept : list string) (elems : list string)
  : list string :=
  match elems with
  | [] => rev kept
  | e :: elems' =>
      if String.eqb e "" || String.eqb e "." then cleanElems rooted kept elems'
      else if String.eqb e ".." then
        match kept with
        | top :: kept' =>
            if String.eqb top ".." then cleanElems rooted (e :: kept) elems'
            else cleanElems rooted kept' elems'
        | [] =>
            if rooted then cleanElems rooted [] elems'
            else cleanElems rooted [e] elems'
        end
      else cleanElems rooted (e :: kept) elems'
  end.

Definition isRooted (path : string) : bool :=
  match path with
  | String c _ => Ascii.eqb c Separator
  | EmptyString => false
  end.

(** The elements of the cleaned path. *)
Definition elements (path : string) : list string :=
  cleanElems (isRooted path) [] (GoStrings.Split Separator path).

(** A relative path from its elements; no element at all is [.]. *)
Definition fromElements (elems : list string) : string :=
  match elems with
  | [] => "."
  | _ => GoStrings.Join elems "/"
  end.

(** [filepath.Clean]. *)
Definition Clean (path : string) : string :=
  if String.eqb path "" then "."
  else if isRooted path then "/" +:+ GoStrings.Join (elements path) "/"
  else fromElements (elements path).

(** [filepath.Join(a, b)]: the non-empty arguments joined by the
    separator and cleaned; the empty string when both are empty. *)
Definition Join (a b : string) : string :=
  match List.filter (fun e => negb (String.eqb e "")) [a; b] with
  | [] => ""
  | es => Clean (GoStrings.Join es "/")
  end.

(** The lexical part of [filepath.Rel] on the elements of two cleaned
    paths, both relative or both absolute: the common prefix is removed,
    and every element left of the base is climbed with [..].  There is
    no answer when the base still has a [..] to climb out of. *)
Fixpoint relElems (base targ : list string) : option (list string) :=
  match base, targ with
  | b :: base', t :: targ' =>
      if String.eqb b t then relElems base' targ'
      else if existsb (String.eqb "..") base then None
      else Some (List.map (fun _ => "..") base ++ targ)
  | _, _ =>
      if existsb (String.eqb "..") base then None
      else Some (List.map (fun _ => "..") base ++ targ)
  end.

(** The part of [path] before its last separator, the separator
    included; nothing when there is no separator. *)
Fixpoint uptoLastSeparator (path : string) : string :=
  match path with
  | EmptyString => EmptyString
  | String c path' =>
      match uptoLastSeparator path' with
      | EmptyString =>
          if Ascii.eqb c Separator then String c EmptyString else EmptyString
      | d => String c d
      end
  end.

(** [filepath.Dir]: all but the last element of the path, cleaned. *)
Definition Dir (path : string) : string := Clean (uptoLastSeparator path).

(** [filepath.Rel(basepath, targpath)] for two relative paths, or two
    absolute ones. *)
Definition Rel (basepath targpath : string) : option string :=
  fromElements <$> relElems (elements basepath) (elements targpath).

(** The absolute path of the given elements; no element at all is the
    root. *)
Definition absPath (elems : list string) : string :=
  "/" +:+ GoStrings.Join elems "/".

End Filepath.

(** ** The file system

    A tree of directories and regular files.  A directory lists its
    entries in the order [os.ReadDir] returns them.  There are no symbolic
    links, and no permission is ever denied: a call fails only for the
    shape of the tree (a missing entry, a regular file where a directory
    is needed, a directory that is not empty, ...). *)

#[local] Unset Elimination Schemes.
Inductive node : Type :=
  | File (data : string) (mode : N)
  | Dir (entries : list (string * node)).
#[local] Set Elimination Schemes.

(** A file system from its root [/]: nothing, or a tree. *)
Abbreviation fs := (option node).

Inductive errno : Type :=
  | ENOENT | ENOTDIR | EISDIR | ENOTEMPTY | EEXIST.

(** Go's [error] values the program can meet. *)
Inductive error : Type :=
  | PathError (op : string) (path : string) (e : errno)   (* *fs.PathError *)
  | RelError (basepath targpath : string)                 (* filepath.Rel *)
  | ExecNotFound (file : string)                          (* exec.ErrNotFound *)
  | ExitError (code : Z) (stderr : string).               (* *exec.ExitError *)

(** A computation that may [panic]. *)
Inductive result (A : Type) : Type :=
  | Ok (a : A)
  | Panic (err : error).
Arguments Ok {A} a.
Arguments Panic {A} err.

Definition rbind {A B} (m : result A) (k : A → result B) : result B :=
  match m with
  | Ok a => k a
  | Panic e => Panic e
  end.

Notation "x ←r m ; k" := (rbind m (fun x => k))
  (at level 100, m at next level, right associativity, only parsing).

(** [panicIf(err)]. *)
Definition panicIf (err : option error) : result unit :=
  match err with
  | Some e => Panic e
  | None => Ok tt
  end.

Module Os.

Definition IsDir (n : node) : bool :=
  match n with
  | Dir _ => true
  | File _ _ => false
  end.

(** The permission bits; 493 is 0755 and 420 is 0644. *)
Definition Mode (n : node) : N :=
  match n with
  | File _ m => m
  | Dir _ => 493%N
  end.

(** [os.IsNotExist(err)]: true for [ENOENT] only. *)
Definition IsNotExist (err : option error) : bool :=
  match err with
  | Some (PathError _ _ ENOENT) => true
  | _ => false
  end.

(** The directory entry called [name]. *)
Fixpoint getEntry (name : string) (es : list (string * node)) : option node :=
  match es with
  | [] => None
  | (n, c) :: es' => if String.eqb n name then Some c else getEntry name es'
  end.

Definition delEntry (name : string) (es : list (string * node))
  : list (string * node) :=
  List.filter (fun e => negb (String.eqb (fst e) name)) es.

(** Replaces the entry called [name], or adds it at its place in the
    order of the names. *)
Fixpoint replaceEntry (name : string) (c : node) (es : list (string * node))
  : list (string * node) :=
  match es with
  | [] => []
  | (n, c') :: es' =>
      if String.eqb n name then (name, c) :: es'
      else (n, c') :: replaceEntry name c es'
  end.

Fixpoint insertEntry (name : string) (c : node) (es : list (string * node))
  : list (string * node) :=
  match es with
  | [] => [(name, c)]
  | (n, c') :: es' =>
      if String.ltb name n then (name, c) :: (n, c') :: es'
      else (n, c') :: insertEntry name c es'
  end.

Definition setEntry (name : string) (c : node) (es : list (string * node))
  : list (string * node) :=
  match getEntry name es with
  | Some _ => replaceEntry name c es
  | None => insertEntry name c es
  end.

(** What the elements [p] lead to, from [t]. *)
Fixpoint walkTo (t : fs) (p : list string) : errno + node :=
  match t with
  | None => inl ENOENT
  | Some n =>
      match p with
      | [] => inr n
      | e :: p' =>
          match n with
          | File _ _ => inl ENOTDIR
          | Dir es => walkTo (getEntry e es) p'
          end
      end
  end.

(** Changes what is at the elements [p] by [f]; the directories on the
    way must exist. *)
Fixpoint alterAt (f : fs → errno + fs) (p : list string) (t : fs) : errno + fs :=
  match p with
  | [] => f t
  | e :: p' =>
      match t with
      | None => inl ENOENT
      | Some (File _ _) => inl ENOTDIR
      | Some (Dir es) =>
          match alterAt f p' (getEntry e es) with
          | inl err => inl err
          | inr None => inr (Some (Dir (delEntry e es)))
          | inr (Some c) => inr (Some (Dir (setEntry e c es)))
          end
      end
  end.

(** An absolute path names what its cleaned elements lead to from the
    root; [..] at the root stays at the root, as [filepath.Clean] has
    it. *)
Definition resolve (t : fs) (path : string) : errno + node :=
  walkTo t (Filepath.elements path).

Definition change (op : string) (f : fs → errno + fs) (t : fs) (path : string)
  : fs * option error :=
  match alterAt f (Filepath.elements path) t with
  | inl e => (t, Some (PathError op path e))
  | inr t' => (t', None)
  end.

(** [os.Stat(path)]: the [FileInfo] is the node itself. *)
Definition Stat (t : fs) (path : string) : option node * option error :=
  match resolve t path with
  | inl e => (None, Some (PathError "stat" path e))
  | inr n => (Some n, None)
  end.

(** [os.Remove(path)]: removes a file or an empty directory. *)
Definition removeNode (o : fs) : errno + fs :=
  match o with
  | None => inl ENOENT
  | Some (Dir (_ :: _)) => inl ENOTEMPTY
  | Some _ => inr None
  end.

Definition Remove (t : fs) (path : string) : fs * option error :=
  change "remove" removeNode t path.

(** [os.Create(path)]: a new empty file, or the existing one truncated. *)
Definition createNode (o : fs) : errno + fs :=
  match o with
  | None => inr (Some (File "" 420%N))
  | Some (File _ m) => inr (Some (File "" m))
  | Some (Dir _) => inl EISDIR
  end.

Definition Create (t : fs) (path : string) : fs * option error :=
  change "open" createNode t path.

(** Writing [data] to the file just created. *)
Definition writeNode (data : string) (o : fs) : errno + fs :=
  match o with
  | Some (File _ m) => inr (Some (File data m))
  | Some (Dir _) => inl EISDIR
  | None => inl ENOENT
  end.

(** [os.Chmod(path, mode)]. *)
Definition chmodNode (mode : N) (o : fs) : errno + fs :=
  match o with
  | Some (File d _) => inr (Some (File d mode))
  | Some (Dir es) => inr (Some (Dir es))
  | None => inl ENOENT
  end.

Definition Chmod (t : fs) (path : string) (mode : N) : fs * option error :=
  change "chmod" (chmodNode mode) t path.

(** [os.MkdirAll(path, perm)]: creates the directory and every missing
    parent; a regular file on the way is an error. *)
Fixpoint mkdirChain (p : list string) : node :=
  match p with
  | [] => Dir []
  | e :: p' => Dir [(e, mkdirChain p')]
  end.

Fixpoint mkdirAllAt (p : list string) (t : fs) : errno + node :=
  match t with
  | None => inr (mkdirChain p)
  | Some (File _ _) => inl ENOTDIR
  | Some (Dir es) =>
      match p with
      | [] => inr (Dir es)
      | e :: p' =>
          match mkdirAllAt p' (getEntry e es) with
          | inl err => inl err
          | inr c => inr (Dir (setEntry e c es))
          end
      end
  end.

Definition MkdirAll (t : fs) (path : string) : fs * option error :=
  match mkdirAllAt (Filepath.elements path) t with
  | inl e => (t, Some (PathError "mkdir" path e))
  | inr n => (Some n, None)
  end.

(** [os.ReadDir(path)]: the entries of a directory. *)
Definition ReadDir (t : fs) (path : string) : list (string * node) * option error :=
  match resolve t path with
  | inr (Dir es) => (es, None)
  | inr (File _ _) => ([], Some (PathError "open" path ENOTDIR))
  | inl e => ([], Some (PathError "open" path e))
  end.

End Os.

(** [filepath.WalkDir(root, fn)]: the entries [fn] is called on, in order,
    each with whether it is a directory: the root first, then for a
    directory each of its entries, walked in turn under the joined path. *)
Fixpoint walkDir (path : string) (n : node) : list (string * bool) :=
  match n with
  | File _ _ => [(path, false)]
  | Dir es =>
      (path, true) ::
      (fix walkEntries (es : list (string * node)) : list (string * bool) :=
         match es with
         | [] => []
         | (name, c) :: es' => walkDir (Filepath.Join path name) c ++ walkEntries es'
         end) es
  end.

(** [filepath.WalkDir(root, fn)] from the top: when the root cannot be
    read, [fn] gets the error and hands it back. *)
Definition WalkDir (t : fs) (root : string) : list (string * bool) * option error :=
  match Os.resolve t root with
  | inl e => ([], Some (PathError "lstat" root e))
  | inr n => (walkDir root n, None)
  end.

(** ** The program *)

(** The command-line flags, once parsed. *)
Record Flags : Type := {
  projectsPath : string;
  backupPath : string;
  remoteBranch : string;
  dryRun : bool;
  forceIncludedRelPaths : list string;
}.

(** What [exec.Command("git", ...).Output()] returns: the standard output
    and the error. *)
Abbreviation output := (string * option error)%type.

(** The [git] command lines of the program.  The first three run in a
    project directory, named by its directory name; the last one compares
    two paths outside any repository and sees what is at each. *)
Record Git : Type := {
  (* git --no-pager ls-files --exclude-standard --others --full-name *)
  lsFilesOthers : string → output;
  (* git --no-pager branch --show-current *)
  branchShowCurrent : string → output;
  (* git --no-pager diff --name-only <rev> *)
  diffNameOnly : string → string → output;
  (* git --no-pager diff --no-index --name-only <path> <path> *)
  diffNoIndex : string → errno + node → errno + node → output;
}.

(** Everything around one run: [exec.LookPath("git")], the [git]
    commands, the file system that holds the projects directory, and the
    order in which a [range] goes over the keys of the map of backed-up
    files.  The file system that holds the backup directory is the state
    of a run. *)
Record World : Type := {
  lookPathGit : option error;
  git : Git;
  projects : fs;
  mapRange : gset string → list string;
}.

(** What a run does that can be seen from outside, in order. *)
Inductive event : Type :=
  | Println (line : string)                       (* fmt.Println of strings *)
  | PrintlnErr (err : error)                      (* fmt.Println(err) *)
  | Diff (relPath : string) (out : output)        (* git diff --no-index *)
  | CopyFile (relPath : string) (err : option error)   (* copyFile(src, dst) *)
  | Remove (relPath : string) (err : option error)     (* os.Remove of a file *)
  | Prune (relPath : string) (err : option error).     (* os.Remove of a directory *)

(** [fmt.Println(err)] when [err != nil]. *)
Definition printlnIf (err : option error) : list event :=
  match err with
  | Some e => [PrintlnErr e]
  | None => []
  end.

Definition newline : ascii := "010"%char.

(** [strings.Split(filepath.FromSlash(string(stdout)), "\n")]. *)
Definition lines (stdout : string) : list string :=
  GoStrings.Split newline (Filepath.FromSlash stdout).

(** The first step of [copyFile]: the directory of the destination is
    created, with its parents, when [os.Stat] says that it does not
    exist. *)
Definition makeDstDir (backup : fs) (dstPath : string) : fs * option error :=
  let dstDir := Filepath.Dir dstPath in
  let '(_, err) := Os.Stat backup dstDir in
  if Os.IsNotExist err then Os.MkdirAll backup dstDir else (backup, None).

(** [copyFile(srcPath, dstPath)]: the source is on the file system of the
    projects, the destination on the one of the backup. *)
Definition copyFile (src : fs) (backup : fs) (srcPath dstPath : string)
  : fs * option error :=
  let '(backup1, err1) := makeDstDir backup dstPath in
  match err1 with
  | Some e => (backup1, Some e)
  | None =>
      (* os.Open(srcPath) *)
      match Os.resolve src srcPath with
      | inl e => (backup1, Some (PathError "open" srcPath e))
      | inr sourceFile =>
          let '(backup2, err2) := Os.Create backup1 dstPath in
          match err2 with
          | Some e => (backup2, Some e)
          | None =>
              (* io.Copy(destinationFile, sourceFile) *)
              match sourceFile with
              | Dir _ => (backup2, Some (PathError "read" srcPath EISDIR))
              | File data _ =>
                  let '(backup3, err3) :=
                    Os.change "write" (Os.writeNode data) backup2 dstPath in
                  match err3 with
                  | Some e => (backup3, Some e)
                  | None =>
                      (* os.Stat(srcPath), os.Chmod(dstPath, srcInfo.Mode()) *)
                      Os.Chmod backup3 dstPath (Os.Mode sourceFile)
                  end
              end
          end
      end
  end.

Section Program.

Variable flags : Flags.
Variable w : World.

(** *** Reading the full backup directory *)

(** The function given to [filepath.WalkDir] for the backup root; the
    error of [filepath.Rel] is dropped. *)
Definition snapshotFn (acc : list string * gset string) (v : string * bool)
  : list string * gset string :=
  let entryRelPath := default "" (Filepath.Rel (backupPath flags) v.1) in
  if v.2 then (acc.1 ++ [entryRelPath], acc.2)
  else (acc.1, {[entryRelPath]} ∪ acc.2).

(** [backedUpDirRelPaths] and [backedUpFileRelPaths]. *)
Definition snapshot (backup : fs) : result (list string * gset string) :=
  let '(visited, err) := WalkDir backup (backupPath flags) in
  _ ←r panicIf err;
  Ok (foldl snapshotFn ([], ∅) visited).

(** *** The files to back up *)

(** The function given to [filepath.WalkDir(forceIncludedPath, ...)]. *)
Fixpoint includeWalked (projectDirPath : string) (visited : list (string * bool))
  : result (list string) :=
  match visited with
  | [] => Ok []
  | (path, isDir) :: visited' =>
      if isDir then includeWalked projectDirPath visited'
      else
        match Filepath.Rel projectDirPath path with
        | None => Panic (RelError projectDirPath path)
        | Some entryRelPath =>
            rest ←r includeWalked projectDirPath visited';
            Ok (entryRelPath :: rest)
        end
  end.

(** One turn of the loop over [forceIncludedRelPaths]: what it appends
    to [includedFiles]. *)
Definition forceInclude (projectDirPath forceIncludedRelPath : string)
  : result (list string) :=
  let forceIncludedPath := Filepath.Join projectDirPath forceIncludedRelPath in
  let '(info, err) := Os.Stat (projects w) forceIncludedPath in
  if Os.IsNotExist err then Ok []
  else
    _ ←r panicIf err;
    match info with
    | Some n =>
        if Os.IsDir n then
          let '(visited, werr) := WalkDir (projects w) forceIncludedPath in
          found ←r includeWalked projectDirPath visited;
          _ ←r panicIf werr;
          Ok found
        else Ok [forceIncludedRelPath]
    | None => Ok []
    end.

Fixpoint forceIncludeAll (projectDirPath : string) (relPaths : list string)
  : result (list string) :=
  match relPaths with
  | [] => Ok []
  | relPath :: relPaths' =>
      found ←r forceInclude projectDirPath relPath;
      rest ←r forceIncludeAll projectDirPath relPaths';
      Ok (found ++ rest)
  end.

(** Files that are in local commits but not yet pushed: nothing when no
    branch is checked out; the error of the command is dropped. *)
Definition unpushedFiles (name : string) (branchName : string) : list string :=
  if String.eqb branchName "" then []
  else
    let '(unpushedFilesStdout, _) :=
      diffNameOnly (git w) name (remoteBranch flags +:+ "/" +:+ branchName) in
    lines unpushedFilesStdout.

(** [includedFiles] of the project directory called [name]. *)
Definition includedFiles (name : string) : result (list string) :=
  let projectDirPath := Filepath.Join (projectsPath flags) name in
  let '(untrackedFilesStdout, err) := lsFilesOthers (git w) name in
  _ ←r panicIf err;
  let untracked := lines untrackedFilesStdout in
  let '(branchNameStdout, err) := branchShowCurrent (git w) name in
  _ ←r panicIf err;
  let branchName := GoStrings.TrimSpace branchNameStdout in
  let unpushed := unpushedFiles name branchName in
  forced ←r forceIncludeAll projectDirPath (forceIncludedRelPaths flags);
  Ok (untracked ++ unpushed ++ forced).

(** The last loop of a project: blank entries are skipped, the others
    get the directory name of the project in front. *)
Fixpoint addProjectDir (name : string) (included : list string) : list string :=
  match included with
  | [] => []
  | includedFile :: included' =>
      if String.eqb (GoStrings.TrimSpace includedFile) ""
      then addProjectDir name included'
      else Filepath.Join name includedFile :: addProjectDir name included'
  end.

(** What one entry of the projects directory adds to [projectFiles]. *)
Definition visitProject (projectDir : string * node) : result (list string) :=
  let name := projectDir.1 in
  if negb (Os.IsDir projectDir.2) then Ok []
  else
    let projectDirPath := Filepath.Join (projectsPath flags) name in
    let '(_, err) := Os.Stat (projects w) (Filepath.Join projectDirPath ".git") in
    if Os.IsNotExist err then Ok []
    else
      included ←r includedFiles name;
      Ok (addProjectDir name included).

Fixpoint visitProjects (projectDirEntries : list (string * node))
  : result (list string) :=
  match projectDirEntries with
  | [] => Ok []
  | projectDir :: entries' =>
      files ←r visitProject projectDir;
      rest ←r visitProjects entries';
      Ok (files ++ rest)
  end.

Definition projectFiles : result (list string) :=
  let '(projectDirEntries, err) := Os.ReadDir (projects w) (projectsPath flags) in
  _ ←r panicIf err;
  visitProjects projectDirEntries.

(** *** The changes to the backup directory *)

(** The first loop: for each file of the projects, skip it, or copy it
    (or say so in a dry run).  The state is the set of backed-up files
    not met so far and the backup tree. *)
(** The end of a turn: copy the file, or say so in a dry run. *)
Definition copyOrSay (projectFileRelPath : string) (backup : fs) : fs * list event :=
  if dryRun flags then (backup, [Println ("+ " +:+ projectFileRelPath)])
  else
    let '(backup', err) :=
      copyFile (projects w) backup
        (Filepath.Join (projectsPath flags) projectFileRelPath)
        (Filepath.Join (backupPath flags) projectFileRelPath) in
    (backup', CopyFile projectFileRelPath err :: printlnIf err).

(** [git diff --no-index --name-only] of the file and its backup. *)
Definition diffOutput (projectFileRelPath : string) (backup : fs) : output :=
  diffNoIndex (git w) projectFileRelPath
    (Os.resolve (projects w) (Filepath.Join (projectsPath flags) projectFileRelPath))
    (Os.resolve backup (Filepath.Join (backupPath flags) projectFileRelPath)).

Definition copyOne (projectFileRelPath : string) (files : gset string) (backup : fs)
  : gset string * fs * list event :=
  let projectFilePath := Filepath.Join (projectsPath flags) projectFileRelPath in
  let '(_, err) := Os.Stat (projects w) projectFilePath in
  if Os.IsNotExist err then (files, backup, [])
  else if decide (projectFileRelPath ∈ files) then
    let files' := files ∖ {[projectFileRelPath]} in
    let diffOut := diffOutput projectFileRelPath backup in
    if Nat.eqb (String.length diffOut.1) 0
    then (files', backup, [Diff projectFileRelPath diffOut])
    else
      let '(backup', evs) := copyOrSay projectFileRelPath backup in
      (files', backup', Diff projectFileRelPath diffOut :: evs)
  else
    let '(backup', evs) := copyOrSay projectFileRelPath backup in
    (files, backup', evs).

Fixpoint copyPass (files : list string) (backedUp : gset string) (backup : fs)
  : gset string * fs * list event :=
  match files with
  | [] => (backedUp, backup, [])
  | projectFileRelPath :: files' =>
      let '(backedUp1, backup1, evs1) := copyOne projectFileRelPath backedUp backup in
      let '(backedUp2, backup2, evs2) := copyPass files' backedUp1 backup1 in
      (backedUp2, backup2, evs1 ++ evs2)
  end.

(** The second loop, over the backed-up files that are left, in the
    order the [range] gives them. *)
Definition deleteOne (backupFileRelPath : string) (backup : fs) : fs * list event :=
  if dryRun flags then (backup, [Println ("- " +:+ backupFileRelPath)])
  else
    let '(backup', err) := Os.Remove backup (Filepath.Join (backupPath flags) backupFileRelPath) in
    (backup', Remove backupFileRelPath err :: printlnIf err).

Fixpoint deletePass (order : list string) (backup : fs) : fs * list event :=
  match order with
  | [] => (backup, [])
  | backupFileRelPath :: order' =>
      let '(backup1, evs1) := deleteOne backupFileRelPath backup in
      let '(backup2, evs2) := deletePass order' backup1 in
      (backup2, evs1 ++ evs2)
  end.

(** The third loop: [for i := len(dirs) - 1; i > 0; i--], here with
    [i] one more than the number of turns left. *)
Definition pruneOne (dirRelPath : string) (backup : fs) : fs * list event :=
  let '(backup', err) := Os.Remove backup (Filepath.Join (backupPath flags) dirRelPath) in
  (backup',
   Prune dirRelPath err ::
   (if negb (Os.IsNotExist err) then printlnIf err else [])).

Fixpoint pruneLoop (dirs : list string) (i : nat) (backup : fs) : fs * list event :=
  match i with
  | O => (backup, [])
  | S i' =>
      let '(backup1, evs1) := pruneOne (default "" (dirs !! i)) backup in
      let '(backup2, evs2) := pruneLoop dirs i' backup1 in
      (backup2, evs1 ++ evs2)
  end.

Definition prunePass (dirs : list string) (backup : fs) : fs * list event :=
  if negb (dryRun flags) then pruneLoop dirs (List.length dirs - 1) backup
  else (backup, []).

(** The three loops in a row. *)
Definition reconcile (files : list string) (dirs : list string)
    (backedUp : gset string) (backup : fs) : fs * list event :=
  let '(backedUp1, backup1, evs1) := copyPass files backedUp backup in
  let '(backup2, evs2) := deletePass (mapRange w backedUp1) backup1 in
  let '(backup3, evs3) := prunePass dirs backup2 in
  (backup3, evs1 ++ evs2 ++ evs3).

Definition header : list event :=
  if dryRun flags
  then [Println "Simulating changes to backup directory:"; Println ""]
  else [].

(** [main()], once the flags are parsed: the backup tree at the end and
    what happened, or a panic. *)
Definition main (backup : fs) : result (fs * list event) :=
  _ ←r panicIf (lookPathGit w);
  snap ←r snapshot backup;
  files ←r projectFiles;
  let '(backup', evs) := reconcile files snap.1 snap.2 backup in
  Ok (backup', header ++ evs).

End Program.

(** ** Paths and trees in normal form *)

(** The name of a directory entry: not empty, not [.] or [..], and
    without a separator. *)
Fixpoint hasSeparator (s : string) : bool :=
  match s with
  | EmptyString => false
  | String c s' => Ascii.eqb c Filepath.Separator || hasSeparator s'
  end.

Definition validName (name : string) : bool :=
  negb (String.eqb name "") && negb (String.eqb name ".") &&
  negb (String.eqb name "..") && negb (hasSeparator name).

(** The stack of [Filepath.cleanElems] for a relative path: names, on top
    of the [..] the path starts with. *)
Inductive keptOK : list string → Prop :=
  | kept_ups ups : Forall (eq "..") ups → keptOK ups
  | kept_name e kept : validName e = true → keptOK kept → keptOK (e :: kept).

(** The elements of a cleaned relative path. *)
Definition canonical (elems : list string) : Prop := keptOK (rev elems).

(** The elements of a relative path, a leading separator being one more
    separator. *)
Definition relElements (path : string) : list string :=
  Filepath.cleanElems false [] (GoStrings.Split Filepath.Separator path).

(** A tree as a file system holds it: the names in a directory are names,
    and no two entries of a directory have the same name. *)
Fixpoint wfNode (n : node) : Prop :=
  match n with
  | File _ _ => True
  | Dir es =>
      NoDup (es.*1) ∧
      (fix wfEntries (es : list (string * node)) : Prop :=
         match es with
         | [] => True
         | (name, c) :: es' => validName name = true ∧ wfNode c ∧ wfEntries es'
         end) es
  end.

Definition wfFs (t : fs) : Prop :=
  match t with
  | Some n => wfNode n
  | None => True
  end.

(** The entries under a node by their elements, in the order of
    [walkDir]. *)
Fixpoint subpaths (n : node) : list (list string * bool) :=
  match n with
  | File _ _ => [([], false)]
  | Dir es =>
      ([], true) ::
      (fix subEntries (es : list (string * node)) : list (list string * bool) :=
         match es with
         | [] => []
         | (name, c) :: es' =>
             List.map (fun v => (name :: v.1, v.2)) (subpaths c) ++ subEntries es'
         end) es
  end.

(** What the elements [p] lead to, if anything; and the regular file
    there, if it is one. *)
Definition nodeAt (t : fs) (p : list string) : fs :=
  match Os.walkTo t p with
  | inr n => Some n
  | inl _ => None
  end.

Definition fileAt (t : fs) (p : list string) : option (string * N) :=
  match Os.walkTo t p with
  | inr (File d m) => Some (d, m)
  | _ => None
  end.

(** A change of one node that touches no file below it: the node stays
    as it is, or it is an empty directory, a file or nothing and becomes
    a file or nothing. *)
Definition localChange (f : fs → errno + fs) : Prop :=
  ∀ o o', f o = inr o' →
    o' = o ∨
    ((o' = None ∨ ∃ d m, o' = Some (File d m)) ∧ ∀ es, o = Some (Dir es) → es = []).

(** A change of one node that keeps a tree well formed. *)
Definition keepsWf (f : fs → errno + fs) : Prop :=
  ∀ o o', wfFs o → f o = inr o' → wfFs o'.

(** The directories and the files under a node, as the paths
    [filepath.Rel] gives for them. *)
Definition dirsOf (n : node) : list string :=
  (λ v, Filepath.fromElements v.1) <$> List.filter snd (subpaths n).

Definition filesOf (n : node) : list string :=
  (λ v, Filepath.fromElements v.1) <$> List.filter (λ v, negb v.2) (subpaths n).

(** Pre-order: every entry of [l] comes after the directory it is in,
    which is in [l] before it or in [seen]. *)
Definition afterParent (seen l : list (list string * bool)) : Prop :=
  ∀ l1 q e b l2, l = l1 ++ (q ++ [e], b) :: l2 → (q, true) ∈ seen ++ l1.

(** ** Reading a run *)

(** The test of the first loop on the source file: [os.Stat] does not say
    that it does not exist. *)
Definition sourceExists (flags : Flags) (w : World) (projectFileRelPath : string) : bool :=
  negb (Os.IsNotExist
          (Os.Stat (projects w)
             (Filepath.Join (projectsPath flags) projectFileRelPath)).2).

(** The changes of the backup directory a run is about. *)
Inductive action : Type :=
  | Copy (relPath : string)
  | Delete (relPath : string).

(** What a dry run says it would do: the lines [+ path] and [- path]. *)
Definition said (e : event) : option action :=
  match e with
  | Println (String "+" (String " " relPath)) => Some (Copy relPath)
  | Println (String "-" (String " " relPath)) => Some (Delete relPath)
  | _ => None
  end.

(** What a run does: the calls of [copyFile], and of [os.Remove] on the
    files. *)
Definition did (e : event) : option action :=
  match e with
  | CopyFile relPath _ => Some (Copy relPath)
  | Remove relPath _ => Some (Delete relPath)
  | _ => None
  end.

(** The flags with [--dry-run] set or not. *)
Definition withDryRun (flags : Flags) (b : bool) : Flags :=
  {| projectsPath := projectsPath flags;
     backupPath := backupPath flags;
     remoteBranch := remoteBranch flags;
     dryRun := b;
     forceIncludedRelPaths := forceIncludedRelPaths flags |}.

(** The same surroundings with another order of the [range] over the
    map: Go does not fix it, and it changes from one run to the next. *)
Definition withRange (w : World) (order : gset string → list string) : World :=
  {| lookPathGit := lookPathGit w;
     git := git w;
     projects := projects w;
     mapRange := order |}.

(** [git diff --no-index --name-only] prints nothing for two regular
    files with the same content and the same mode. *)
Definition quietOnSame (g : Git) : Prop :=
  ∀ path data mode,
    (diffNoIndex g path (inr (File data mode)) (inr (File data mode))).1 = "".

(** [path] is the clean absolute path of the elements [elems]. *)
Definition absolute (path : string) (elems : list string) : Prop :=
  Forall (λ e, validName e = true) elems ∧ path = Filepath.absPath elems.

(** Where the backup of a file is kept, and where the file is, as
    elements from the root of their file system. *)
Definition backupAt (flags : Flags) (relPath : string) : list string :=
  Filepath.elements (Filepath.Join (backupPath flags) relPath).

Definition sourceAt (flags : Flags) (relPath : string) : list string :=
  Filepath.elements (Filepath.Join (projectsPath flags) relPath).

(** A relative path that is clean and stays inside the directory it is
    joined to: its elements are names. *)
Definition inside (relPath : string) : bool :=
  forallb validName (relElements relPath) &&
  String.eqb (Filepath.fromElements (relElements relPath)) relPath.

(** ** A project and its backup

    The project [app] has the untracked files [notes.txt], [new.txt],
    [same.txt] and, gone since, [gone.txt]; the backup has an older
    [notes.txt], the same [same.txt], [gone.txt] and [old.txt], and two
    empty directories. *)
Module Example.

Definition nl : string := String newline "".

(** The bit of the mode that git records: whether the owner may
    execute the file. *)
Definition executable (mode : N) : bool := N.testbit mode 6.

(** A [git diff --no-index --name-only]: the name when the two files
    differ in content or in the executable bit, nothing when they do
    not, and a failure when one of the two is not a file that can be
    read. *)
Definition diffFiles (path : string) (a b : errno + node) : output :=
  match a, b with
  | inr (File d1 m1), inr (File d2 m2) =>
      if String.eqb d1 d2 && Bool.eqb (executable m1) (executable m2) then ("", None)
      else (path +:+ nl, Some (ExitError 1 ""))
  | _, _ => ("", Some (ExitError 128 "error: Could not access"))
  end.

Definition git0 : Git := {|
  lsFilesOthers := λ _,
    ("notes.txt" +:+ nl +:+ "new.txt" +:+ nl +:+ "same.txt" +:+ nl +:+ "gone.txt" +:+ nl, None);
  branchShowCurrent := λ _, ("main" +:+ nl, None);
  diffNameOnly := λ _ _,
    ("", Some (ExitError 128 "fatal: ambiguous argument 'origin/main': unknown revision"));
  diffNoIndex := diffFiles;
|}.

Definition app0 : node :=
  Dir [(".git", Dir [("HEAD", File "ref: refs/heads/main" 420)]);
       ("new.txt", File "n" 420);
       ("notes.txt", File "a" 420);
       ("same.txt", File "s" 420)].

(** The file system of the projects, with the projects directory at
    [/projects]. *)
Definition projects0 : fs := Some (Dir [("projects", Dir [("app", app0)])]).

Definition world0 : World := {|
  lookPathGit := None;
  git := git0;
  projects := projects0;
  mapRange := elements;
|}.

(** The file system of the backup, with the backup directory at
    [/backup]. *)
Definition backupDir0 : node :=
  Dir [("app", Dir [("gone.txt", File "g" 420);
                    ("notes.txt", File "b" 420);
                    ("old.txt", File "o" 420);
                    ("same.txt", File "s" 420)]);
       ("tmp", Dir [("cache", Dir [])])].

Definition backup0 : fs := Some (Dir [("backup", backupDir0)]).

Definition backedUp0 : gset string :=
  {[ "app/gone.txt"; "app/notes.txt"; "app/old.txt"; "app/same.txt" ]}.

Definition flags0 (dry : bool) : Flags := {|
  projectsPath := "/projects";
  backupPath := "/backup";
  remoteBranch := "origin";
  dryRun := dry;
  forceIncludedRelPaths := [".git"; ".env"];
|}.

(** The same with a [git diff --no-index] that fails whatever it is
    given. *)
Definition gitFailing : Git := {|
  lsFilesOthers := lsFilesOthers git0;
  branchShowCurrent := branchShowCurrent git0;
  diffNameOnly := diffNameOnly git0;
  diffNoIndex := λ _ _ _, ("", Some (ExitError 128 "fatal: unable to access"));
|}.

Definition worldFailing : World := {|
  lookPathGit := None;
  git := gitFailing;
  projects := projects0;
  mapRange := elements;
|}.

(** The same with a repository that has lost an object: listing the
    files that differ from the remote branch fails. *)
Definition unreadable : error :=
  ExitError 128 "fatal: unable to read tree 8f2c1d7a".

Definition gitCorrupt : Git := {|
  lsFilesOthers := lsFilesOthers git0;
  branchShowCurrent := branchShowCurrent git0;
  diffNameOnly := λ _ _, ("", Some unreadable);
  diffNoIndex := diffFiles;
|}.

Definition worldCorrupt : World := {|
  lookPathGit := None;
  git := gitCorrupt;
  projects := projects0;
  mapRange := elements;
|}.

(** A project with nothing to report, next to a file that is kept in
    the projects directory itself and is force-included from every
    project as [../shared.env]. *)
Definition gitQuiet : Git := {|
  lsFilesOthers := λ _, ("", None);
  branchShowCurrent := λ _, ("", None);
  diffNameOnly := λ _ _, ("", None);
  diffNoIndex := diffFiles;
|}.

Definition appQuiet : node := Dir [(".git", Dir [("HEAD", File "8f2c1d7a" 420)])].

Definition worldShared : World := {|
  lookPathGit := None;
  git := gitQuiet;
  projects :=
    Some (Dir [("projects", Dir [("app", appQuiet); ("shared.env", File "KEY=1" 384)])]);
  mapRange := elements;
|}.

Definition flagsShared : Flags := {|
  projectsPath := "/projects";
  backupPath := "/backup";
  remoteBranch := "origin";
  dryRun := false;
  forceIncludedRelPaths := ["../shared.env"];
|}.

(** The first project again, with [notes.txt], which git lists as
    untracked, force-included as well. *)
Definition flagsTwice : Flags := {|
  projectsPath := "/projects";
  backupPath := "/backup";
  remoteBranch := "origin";
  dryRun := false;
  forceIncludedRelPaths := ["notes.txt"];
|}.

(** The project after the directory [conf], with the file [x] in it,
    has been replaced by a regular file: git lists [conf] as untracked
    and [conf/x] as different from the remote branch; the backup still
    has [conf/x]. *)
Definition gitMoved : Git := {|
  lsFilesOthers := λ _, ("conf" +:+ nl, None);
  branchShowCurrent := λ _, ("main" +:+ nl, None);
  diffNameOnly := λ _ _, ("conf/x" +:+ nl, None);
  diffNoIndex := diffFiles;
|}.

Definition worldMoved : World := {|
  lookPathGit := None;
  git := gitMoved;
  projects :=
    Some (Dir [("projects", Dir [("app", Dir [(".git", Dir []); ("conf", File "c" 420)])])]);
  mapRange := elements;
|}.

Definition backupMoved : fs :=
  Some (Dir [("backup", Dir [("app", Dir [("conf", Dir [("x", File "old" 420)])])])]).

Definition flagsPlain : Flags := {|
  projectsPath := "/projects";
  backupPath := "/backup";
  remoteBranch := "origin";
  dryRun := false;
  forceIncludedRelPaths := [];
|}.

(** A script that has been made executable since its backup: the
    content is the same. *)
Definition gitScript : Git := {|
  lsFilesOthers := λ _, ("run.sh" +:+ nl, None);
  branchShowCurrent := λ _, ("", None);
  diffNameOnly := λ _ _, ("", None);
  diffNoIndex := diffFiles;
|}.

Definition worldScript : World := {|
  lookPathGit := None;
  git := gitScript;
  projects :=
    Some (Dir [("projects", Dir [("app", Dir [(".git", Dir []); ("run.sh", File "make" 493)])])]);
  mapRange := elements;
|}.

Definition backupScript : fs :=
  Some (Dir [("backup", Dir [("app", Dir [("run.sh", File "make" 420)])])]).

(** The same project next to a file whose name is one space, which
    is force-included from every project. *)
Definition worldBlank : World := {|
  lookPathGit := None;
  git := gitQuiet;
  projects :=
    Some (Dir [("projects", Dir [(" ", File "KEY=1" 384); ("app", appQuiet)])]);
  mapRange := elements;
|}.

Definition flagsBlank : Flags := {|
  projectsPath := "/projects";
  backupPath := "/backup";
  remoteBranch := "origin";
  dryRun := false;
  forceIncludedRelPaths := ["../ "];
|}.

(** The first project again, with a force-included path that goes
    through [notes.txt], a regular file. *)
Definition flagsBehind : Flags := {|
  projectsPath := "/projects";
  backupPath := "/backup";
  remoteBranch := "origin";
  dryRun := false;
  forceIncludedRelPaths := ["notes.txt/x"];
|}.

(** The same project with a file at the root of the file system of the
    projects, force-included from every project as
    [../../outside.txt]. *)
Definition worldOutside : World := {|
  lookPathGit := None;
  git := gitQuiet;
  projects :=
    Some (Dir [("outside.txt", File "o" 420); ("projects", Dir [("app", appQuiet)])]);
  mapRange := elements;
|}.

Definition flagsOutside : Flags := {|
  projectsPath := "/projects";
  backupPath := "/backup";
  remoteBranch := "origin";
  dryRun := false;
  forceIncludedRelPaths := ["../../outside.txt"];
|}.

Definition backupEmpty : fs := Some (Dir [("backup", Dir [])]).

End Example.

(** The directory a turn of the third loop calls [os.Remove] on. *)
Definition pruned (e : event) : option string :=
  match e with
  | Prune relPath _ => Some relPath
  | _ => None
  end.

(** The files of the set are clean paths inside the backup directory,
    and each is in the backup as it was in [backup0]. *)
Definition untouched (flags : Flags) (backup0 : fs) (files : gset string) (backup : fs)
  : Prop :=
  ∀ p, p ∈ files →
    inside p = true ∧
    ∃ d m, fileAt backup0 (backupAt flags p) = Some (d, m) ∧
           fileAt backup (backupAt flags p) = Some (d, m).

(** The files of the set are clean paths inside the backup directory,
    and each is a file of the backup. *)
Definition keptFiles (flags : Flags) (files : gset string) (backup : fs) : Prop :=
  ∀ p, p ∈ files →
    inside p = true ∧ ∃ d m, fileAt backup (backupAt flags p) = Some (d, m).

(** The test of the last loop of a project. *)
Definition notBlank (includedFile : string) : bool :=
  negb (String.eqb (GoStrings.TrimSpace includedFile) "").

(** The elements of [filepath.Rel] of a project directory of elements
    [base] and of a path of elements [targ]. *)
Definition relToProject (base targ : list string) : list string :=
  default [] (Filepath.relElems base targ).

(** There is a directory where the elements [p] lead. *)
Definition dirAt (t : fs) (p : list string) : bool :=
  match Os.walkTo t p with
  | inr (Dir _) => true
  | _ => false
  end.

(** A change of one node that leaves a directory a directory. *)
Definition keepsDir (f : fs → errno + fs) : Prop :=
  ∀ es o', f (Some (Dir es)) = inr o' → ∃ es', o' = Some (Dir es').

(** A file of the projects is settled in the backup: its backup is a
    file, and comparing the two prints nothing. *)
Definition settled (flags : Flags) (w : World) (projectFileRelPath : string) (backup : fs)
  : Prop :=
  (∃ d m, fileAt backup (backupAt flags projectFileRelPath) = Some (d, m)) ∧
  (diffOutput flags w projectFileRelPath backup).1 = "".

(** [copyFile] returned an error. *)
Definition copyFailed (e : event) : bool :=
  match e with
  | CopyFile _ (Some _) => true
  | _ => false
  end.

(** A call that can change the backup directory. *)
Definition calls (e : event) : bool :=
  match e with
  | CopyFile _ _ | Remove _ _ | Prune _ _ => true
  | _ => false
  end.

(** What [git ls-files] and [git diff --name-only] write for a list of
    file names: one name on each line. *)
Fixpoint hasNewline (s : string) : bool :=
  match s with
  | EmptyString => false
  | String c s' => Ascii.eqb c newline || hasNewline s'
  end.

Fixpoint printed (names : list string) : string :=
  match names with
  | [] => ""
  | name :: names' => name +:+ String newline (printed names')
  end.

(** In the order of a walk: no entry comes before a directory it is
    under, and none comes twice. *)
Definition walkOrder (x y : list string * bool) : Prop := ¬ y.1 `prefix_of` x.1.

(** * Paths *)

Section Paths.

Import Filepath.

Lemma append_cons c s t : String c s +:+ t = String c (s +:+ t).
Proof. reflexivity. Qed.

Lemma append_nil_r s : s +:+ "" = s.
Proof. induction s as [|c s IH]; [done|]. by rewrite append_cons, IH. Qed.

Lemma append_assoc a b c : (a +:+ b) +:+ c = a +:+ (b +:+ c).
Proof. induction a as [|x a IH]; [done|]. by rewrite !append_cons, IH. Qed.

Lemma Split_nonempty sep s : GoStrings.Split sep s ≠ [].
Proof.
  destruct s as [|c s]; simpl; [done|].
  destruct (Ascii.eqb c sep); [done|].
  by destruct (GoStrings.Split sep s).
Qed.

Lemma Split_no_separator s : hasSeparator s = false → GoStrings.Split Separator s = [s].
Proof.
  induction s as [|c s IH]; simpl; [done|].
  intros [Hc Hs]%orb_false_iff. rewrite Hc, (IH Hs). done.
Qed.

Lemma Split_app a b :
  GoStrings.Split Separator (a +:+ String Separator b) = GoStrings.Split Separator a ++ GoStrings.Split Separator b.
Proof.
  induction a as [|c a IH]; simpl.
  - done.
  - destruct (Ascii.eqb c Separator) eqn:Hc.
    + by rewrite IH.
    + rewrite IH. destruct (GoStrings.Split Separator a) as [|x xs] eqn:Hs; [|done].
      by destruct (Split_nonempty Separator a).
Qed.

Lemma Split_pieces s : Forall (λ e, hasSeparator e = false) (GoStrings.Split Separator s).
Proof.
  induction s as [|c s IH]; simpl.
  - by constructor.
  - destruct (Ascii.eqb c Separator) eqn:Hc.
    + by constructor.
    + destruct (GoStrings.Split Separator s) as [|x xs]; [by repeat constructor; simpl; rewrite Hc|].
      inversion IH; subst. constructor; [|done]. simpl. by rewrite Hc.
Qed.

Lemma concat_cons sep x y l :
  String.concat sep (x :: y :: l) = x +:+ sep +:+ String.concat sep (y :: l).
Proof. done. Qed.

Lemma Split_Join es :
  es ≠ [] → Forall (λ e, hasSeparator e = false) es →
  GoStrings.Split Separator (GoStrings.Join es "/") = es.
Proof.
  unfold GoStrings.Join. induction es as [|x [|y l] IH]; intros Hne Hall; [done| |].
  - simpl. apply Split_no_separator. by inversion Hall.
  - rewrite concat_cons. change ("/" +:+ ?s) with (String Separator s).
    rewrite Split_app. inversion Hall; subst.
    rewrite Split_no_separator by done. rewrite IH; done.
Qed.

(** ** The stack of [cleanElems] *)

Lemma validName_spec e :
  validName e = true ↔ e ≠ "" ∧ e ≠ "." ∧ e ≠ ".." ∧ hasSeparator e = false.
Proof.
  unfold validName. rewrite !andb_true_iff, !negb_true_iff, !String.eqb_neq. tauto.
Qed.

Lemma validName_eqb e :
  validName e = true →
  String.eqb e "" = false ∧ String.eqb e "." = false ∧ String.eqb e ".." = false.
Proof. rewrite validName_spec, !String.eqb_neq. tauto. Qed.

Lemma keptOK_tail e kept : keptOK (e :: kept) → keptOK kept.
Proof.
  inversion 1 as [ups Hups|]; subst; [|done].
  apply kept_ups. by inversion Hups.
Qed.

Lemma keptOK_app_r xs ys : keptOK (xs ++ ys) → keptOK ys.
Proof. induction xs as [|x xs IH]; simpl; [done|]. intros H. eauto using keptOK_tail. Qed.

Lemma keptOK_up kept : keptOK (".." :: kept) → Forall (eq "..") kept.
Proof.
  inversion 1 as [ups Hups|e k Hv]; subst.
  - by inversion Hups.
  - done.
Qed.

Lemma keptOK_head e kept : keptOK (e :: kept) → e = ".." ∨ validName e = true.
Proof.
  inversion 1 as [ups Hups|]; subst; [|by right].
  left. by inversion Hups.
Qed.

Lemma keptOK_names names : Forall (λ e, validName e = true) names → keptOK names.
Proof.
  induction 1; [apply kept_ups; constructor|by apply kept_name].
Qed.

Lemma cleanElems_app rooted kept xs ys :
  cleanElems rooted kept (xs ++ ys)
  = cleanElems rooted (rev (cleanElems rooted kept xs)) ys.
Proof.
  revert kept. induction xs as [|x xs IH]; intros kept; simpl.
  - by rewrite rev_involutive.
  - repeat case_match; apply IH.
Qed.

(** What [cleanElems] returns is in normal form. *)
Lemma cleanElems_canonical kept elems :
  keptOK kept →
  Forall (λ e, hasSeparator e = false) elems →
  canonical (cleanElems false kept elems).
Proof.
  unfold canonical. revert kept.
  induction elems as [|e elems IH]; intros kept Hk Hall; simpl.
  - by rewrite rev_involutive.
  - inversion Hall as [|? ? He Hall']; subst.
    destruct (String.eqb e "" || String.eqb e ".") eqn:Hskip; [by apply IH|].
    apply orb_false_iff in Hskip as [H1 H2].
    destruct (String.eqb e "..") eqn:Hup.
    + apply String.eqb_eq in Hup as ->.
      destruct kept as [|top kept'].
      * apply IH; [|done]. apply kept_ups. by repeat constructor.
      * destruct (String.eqb top "..") eqn:Htop.
        -- apply String.eqb_eq in Htop as ->. apply IH; [|done].
           apply kept_ups. constructor; [done|]. constructor; [done|].
           by apply keptOK_up.
        -- apply IH; [|done]. eauto using keptOK_tail.
    + apply IH; [|done]. apply kept_name; [|done].
      apply validName_spec. rewrite <- !String.eqb_neq. done.
Qed.

(** [cleanElems] leaves a normal form as it is. *)
Lemma cleanElems_id kept elems :
  keptOK (rev elems ++ kept) →
  cleanElems false kept elems = rev kept ++ elems.
Proof.
  revert kept. induction elems as [|e elems IH]; intros kept Hk; simpl.
  - by rewrite app_nil_r.
  - simpl in Hk. rewrite <- !app_assoc in Hk. simpl in Hk.
    pose proof (keptOK_app_r _ _ Hk) as Hek.
    assert (Hgoal : cleanElems false (e :: kept) elems = rev kept ++ e :: elems).
    { rewrite IH by done. simpl. by rewrite <- app_assoc. }
    destruct (keptOK_head _ _ Hek) as [-> | Hv].
    + simpl. destruct kept as [|top kept']; [done|].
      apply keptOK_up in Hek. inversion Hek; subst. simpl. done.
    + destruct (validName_eqb _ Hv) as (-> & -> & ->). simpl. done.
Qed.

Lemma canonical_nil : canonical [].
Proof. apply kept_ups. constructor. Qed.

Lemma canonical_names names :
  Forall (λ e, validName e = true) names → canonical names.
Proof.
  intros H. apply keptOK_names. by apply Forall_rev.
Qed.

Lemma canonical_pieces es : canonical es → Forall (λ e, hasSeparator e = false) es.
Proof.
  unfold canonical. intros H. rewrite <- (rev_involutive es). apply Forall_rev.
  induction H as [ups Hups|e kept Hv _ IH].
  - eapply Forall_impl; [done|]. by intros ? <-.
  - constructor; [|done]. by apply validName_spec in Hv as (_&_&_&?).
Qed.

Lemma canonical_head e es : canonical (e :: es) → e = ".." ∨ validName e = true.
Proof.
  unfold canonical. simpl. intros H.
  assert (Hin : e ∈ rev es ++ [e]) by set_solver.
  revert Hin. generalize (rev es ++ [e]) H. clear.
  induction 1 as [ups Hups|x kept Hv _ IH]; intros Hin.
  - left. rewrite Forall_forall in Hups. symmetry. by apply Hups.
  - apply elem_of_cons in Hin as [->|Hin]; [by right|by apply IH].
Qed.

Lemma isRooted_canonical e es :
  canonical (e :: es) → isRooted (GoStrings.Join (e :: es) "/") = false.
Proof.
  intros H. destruct (canonical_head _ _ H) as [->|Hv].
  - by destruct es.
  - apply validName_spec in Hv as (Hne & _ & _ & Hsep).
    destruct e as [|c e]; [done|]. simpl in Hsep.
    apply orb_false_iff in Hsep as [Hc _].
    unfold GoStrings.Join. destruct es; simpl; by rewrite Hc.
Qed.

Lemma Join_not_empty e es : canonical (e :: es) → GoStrings.Join (e :: es) "/" ≠ "".
Proof.
  intros H Heq. destruct (canonical_head _ _ H) as [->|Hv].
  - by destruct es.
  - apply validName_spec in Hv as (Hne & _). destruct e; [done|]. by destruct es.
Qed.

(** A path in normal form has the elements it was made from. *)
Lemma relElements_fromElements es :
  canonical es → relElements (fromElements es) = es.
Proof.
  intros H. destruct es as [|e es]; [done|].
  unfold relElements, fromElements.
  rewrite Split_Join; [|done|by apply canonical_pieces].
  rewrite cleanElems_id; [done|]. by rewrite app_nil_r.
Qed.

Lemma elements_fromElements es :
  canonical es → elements (fromElements es) = es.
Proof.
  intros H. rewrite <- (relElements_fromElements es H) at 2.
  unfold elements, relElements. destruct es as [|e es]; [done|].
  unfold fromElements. by rewrite isRooted_canonical.
Qed.

Lemma relElements_canonical path : canonical (relElements path).
Proof.
  apply cleanElems_canonical; [apply kept_ups; constructor|apply Split_pieces].
Qed.

Lemma Clean_fromElements es : canonical es → Clean (fromElements es) = fromElements es.
Proof.
  intros H. unfold Clean.
  destruct es as [|e es]; [done|].
  assert (String.eqb (fromElements (e :: es)) "" = false) as ->.
  { apply String.eqb_neq. by apply Join_not_empty. }
  unfold fromElements at 1. rewrite isRooted_canonical by done.
  change (GoStrings.Join (e :: es) "/") with (fromElements (e :: es)).
  by rewrite elements_fromElements.
Qed.

(** [filepath.Join] with the root [.] in front cleans the path. *)
Lemma Join_root path : Join "." path = fromElements (relElements path).
Proof.
  unfold Join. simpl. destruct (String.eqb path "") eqn:Hp; simpl.
  - apply String.eqb_eq in Hp as ->. done.
  - unfold Clean. simpl. unfold elements. simpl.
    change ("/" +:+ path) with (String Separator path).
    destruct (GoStrings.Split Separator path) eqn:Hs; done.
Qed.

Lemma elements_Join_root path : elements (Join "." path) = relElements path.
Proof. rewrite Join_root. apply elements_fromElements, relElements_canonical. Qed.

Lemma Join_root_fromElements es : canonical es → Join "." (fromElements es) = fromElements es.
Proof. intros H. by rewrite Join_root, relElements_fromElements. Qed.

Lemma Join_root_idem path : Join "." (Join "." path) = Join "." path.
Proof. rewrite (Join_root path). apply Join_root_fromElements, relElements_canonical. Qed.

Lemma validName_not_rooted name s : validName name = true → isRooted (name +:+ s) = false.
Proof.
  intros (Hne & _ & _ & Hsep)%validName_spec.
  destruct name as [|c name]; [done|]. simpl in *. by apply orb_false_iff in Hsep as [-> _].
Qed.

(** [filepath.Join] of a name and a path, by elements. *)
Lemma Join_name name path :
  validName name = true →
  Join name path = fromElements (cleanElems false [name] (GoStrings.Split Separator path)).
Proof.
  intros Hv. pose proof (validName_eqb _ Hv) as (Hn1 & Hn2 & Hn3).
  pose proof (validName_spec name) as [Hspec _]. specialize (Hspec Hv) as (Hne & _ & _ & Hsep).
  unfold Join. simpl. rewrite Hn1. simpl.
  destruct (String.eqb path "") eqn:Hp; simpl.
  - apply String.eqb_eq in Hp as ->. simpl.
    unfold Clean. rewrite Hn1. rewrite <- (append_nil_r name) at 1.
    rewrite validName_not_rooted by done.
    unfold elements. rewrite <- (append_nil_r name) at 1.
    rewrite validName_not_rooted by done. rewrite Split_no_separator by done.
    simpl. by rewrite Hn1, Hn2, Hn3.
  - unfold Clean.
    assert (String.eqb (name +:+ "/" +:+ path) "" = false) as ->.
    { apply String.eqb_neq. destruct name; done. }
    rewrite validName_not_rooted by done.
    unfold elements. rewrite validName_not_rooted by done.
    change ("/" +:+ path) with (String Separator path).
    rewrite Split_app, Split_no_separator by done.
    simpl. by rewrite Hn1, Hn2, Hn3.
Qed.

Lemma Join_name_canonical name path :
  validName name = true → ∃ es, canonical es ∧ Join name path = fromElements es.
Proof.
  intros Hv. eexists. split; [|by apply Join_name].
  apply cleanElems_canonical; [|apply Split_pieces].
  apply kept_name; [done|]. apply kept_ups. constructor.
Qed.

(** What the program joins is clean. *)
Lemma Join_root_Join_name name path :
  validName name = true → Join "." (Join name path) = Join name path.
Proof.
  intros Hv. destruct (Join_name_canonical name path Hv) as (es & Hes & ->).
  by apply Join_root_fromElements.
Qed.

Lemma validNames_snoc names name :
  Forall (λ e, validName e = true) names → validName name = true →
  Forall (λ e, validName e = true) (names ++ [name]).
Proof. intros. apply Forall_app. split; [done|by constructor]. Qed.

(** One step down in [walkDir]. *)
Lemma Join_fromElements names name :
  Forall (λ e, validName e = true) names → validName name = true →
  Join (fromElements names) name = fromElements (names ++ [name]).
Proof.
  intros Hns Hn. pose proof (validName_eqb _ Hn) as (Hn1 & Hn2 & Hn3).
  pose proof (validName_spec name) as [Hspec _]. specialize (Hspec Hn) as (_ & _ & _ & Hsep).
  destruct names as [|e names].
  - rewrite Join_root. simpl. unfold relElements.
    rewrite Split_no_separator by done. simpl. by rewrite Hn1, Hn2, Hn3.
  - assert (Hc : canonical (e :: names)) by by apply canonical_names.
    assert (Hc' : canonical ((e :: names) ++ [name])).
    { apply canonical_names. by apply validNames_snoc. }
    unfold Join, List.filter.
    assert (String.eqb (fromElements (e :: names)) "" = false) as ->.
    { apply String.eqb_neq. by apply Join_not_empty. }
    rewrite Hn1. simpl negb. cbv iota.
    assert (GoStrings.Join [fromElements (e :: names); name] "/"
            = fromElements ((e :: names) ++ [name])) as ->; [|by apply Clean_fromElements].
    unfold fromElements, GoStrings.Join. simpl app.
    clear. revert e. induction names as [|y l IH]; intros e; [done|].
    simpl app. rewrite !concat_cons. rewrite <- IH. rewrite concat_cons.
    simpl String.concat. by rewrite <- !append_assoc.
Qed.

End Paths.

(** * Absolute paths *)

Section Absolute.

Import Filepath.

Lemma uptoLastSeparator_none s : hasSeparator s = false → uptoLastSeparator s = "".
Proof.
  induction s as [|c s IH]; simpl; [done|].
  intros [Hc Hs]%orb_false_iff. by rewrite (IH Hs), Hc.
Qed.

Lemma uptoLastSeparator_app a e :
  hasSeparator e = false →
  uptoLastSeparator (a +:+ String Separator e) = a +:+ String Separator "".
Proof.
  intros He. induction a as [|c a IH].
  - simpl. by rewrite uptoLastSeparator_none.
  - rewrite !append_cons. simpl. rewrite IH. by destruct a.
Qed.

Lemma Join_snoc q e x :
  GoStrings.Join ((x :: q) ++ [e]) "/"
  = GoStrings.Join (x :: q) "/" +:+ String Separator e.
Proof.
  unfold GoStrings.Join. revert x. induction q as [|y q IH]; intros x; [done|].
  simpl app. rewrite !concat_cons. simpl app in IH. rewrite IH.
  by rewrite <- !append_assoc.
Qed.

Lemma names_pieces names :
  Forall (λ e, validName e = true) names → Forall (λ e, hasSeparator e = false) names.
Proof.
  intros H. eapply Forall_impl; [done|]. by intros e (_ & _ & _ & ?)%validName_spec.
Qed.

(** [cleanElems] on names only pushes them. *)
Lemma cleanElems_names rooted kept names :
  Forall (λ e, validName e = true) names →
  cleanElems rooted kept names = rev kept ++ names.
Proof.
  intros Hn. revert kept. induction Hn as [|e names He _ IH]; intros kept; simpl.
  - by rewrite app_nil_r.
  - destruct (validName_eqb _ He) as (-> & -> & ->). simpl.
    rewrite IH. simpl. by rewrite <- app_assoc.
Qed.

(** The elements of a cleaned absolute path are names: no [..] is
    left. *)
Lemma cleanElems_rooted kept elems :
  Forall (λ e, validName e = true) kept →
  Forall (λ e, hasSeparator e = false) elems →
  Forall (λ e, validName e = true) (cleanElems true kept elems).
Proof.
  intros Hk Hall. revert kept Hk.
  induction Hall as [|e elems He _ IH]; intros kept Hk; simpl.
  - by apply Forall_rev.
  - destruct (String.eqb e "" || String.eqb e ".") eqn:Hskip; [by apply IH|].
    apply orb_false_iff in Hskip as [H1 H2].
    destruct (String.eqb e "..") eqn:Hup.
    + destruct kept as [|top kept']; [by apply IH|].
      apply Forall_cons in Hk as [Htop Hk].
      destruct (validName_eqb _ Htop) as (_ & _ & ->). by apply IH.
    + apply IH. constructor; [|done].
      apply validName_spec. rewrite <- !String.eqb_neq. done.
Qed.

Lemma isRooted_absPath B : isRooted (absPath B) = true.
Proof. done. Qed.

Lemma Split_absPath B :
  Forall (λ e, validName e = true) B →
  cleanElems true [] (GoStrings.Split Separator (absPath B)) = B.
Proof.
  intros HB. unfold absPath. change ("/" +:+ ?s) with (String Separator s).
  cbn [GoStrings.Split]. rewrite Ascii.eqb_refl. cbn [cleanElems String.eqb orb].
  destruct B as [|b B]; [done|].
  rewrite Split_Join by (done || by apply names_pieces).
  by rewrite cleanElems_names.
Qed.

Lemma elements_absPath B :
  Forall (λ e, validName e = true) B → elements (absPath B) = B.
Proof. intros HB. unfold elements. rewrite isRooted_absPath. by apply Split_absPath. Qed.

Lemma absPath_not_empty B : String.eqb (absPath B) "" = false.
Proof. done. Qed.

Lemma Clean_absPath B :
  Forall (λ e, validName e = true) B → Clean (absPath B) = absPath B.
Proof.
  intros HB. unfold Clean. rewrite absPath_not_empty, isRooted_absPath.
  by rewrite elements_absPath.
Qed.

(** [filepath.Join] of an absolute path and anything: the elements of
    the second argument are cleaned on top of those of the first. *)
Lemma Join_absPath B key :
  Forall (λ e, validName e = true) B →
  Join (absPath B) key
  = absPath (cleanElems true (rev B) (GoStrings.Split Separator key)).
Proof.
  intros HB. unfold Join, List.filter. rewrite absPath_not_empty. simpl negb. cbv iota.
  destruct (String.eqb key "") eqn:Hkey; simpl negb; cbv iota.
  - apply String.eqb_eq in Hkey as ->. simpl. rewrite rev_involutive.
    change (GoStrings.Join [absPath B] "/") with (absPath B). by apply Clean_absPath.
  - change (GoStrings.Join [absPath B; key] "/") with (absPath B +:+ String Separator key).
    unfold Clean.
    assert (String.eqb (absPath B +:+ String Separator key) "" = false) as -> by done.
    assert (isRooted (absPath B +:+ String Separator key) = true) as Hr by done.
    rewrite Hr. unfold elements. rewrite Hr, Split_app, cleanElems_app.
    by rewrite Split_absPath.
Qed.

Lemma elements_Join_absPath B key :
  Forall (λ e, validName e = true) B →
  elements (Join (absPath B) key)
  = cleanElems true (rev B) (GoStrings.Split Separator key).
Proof.
  intros HB. rewrite Join_absPath by done. apply elements_absPath.
  apply cleanElems_rooted; [by apply Forall_rev|apply Split_pieces].
Qed.

Lemma elements_Join_valid B key :
  Forall (λ e, validName e = true) B →
  Forall (λ e, validName e = true) (elements (Join (absPath B) key)).
Proof.
  intros HB. rewrite elements_Join_absPath by done.
  apply cleanElems_rooted; [by apply Forall_rev|apply Split_pieces].
Qed.

Lemma Split_fromElements q :
  Forall (λ e, validName e = true) q →
  ∀ rooted kept, cleanElems rooted kept (GoStrings.Split Separator (fromElements q))
                 = rev kept ++ q.
Proof.
  intros Hq rooted kept. destruct q as [|e q].
  - simpl. by rewrite app_nil_r.
  - unfold fromElements. rewrite Split_Join by (done || by apply names_pieces).
    by apply cleanElems_names.
Qed.

(** One step down, or several, from an absolute path. *)
Lemma Join_absPath_names B q :
  Forall (λ e, validName e = true) B → Forall (λ e, validName e = true) q →
  Join (absPath B) (fromElements q) = absPath (B ++ q).
Proof.
  intros HB Hq. rewrite Join_absPath by done.
  by rewrite Split_fromElements, rev_involutive.
Qed.

Lemma Join_absPath_name B name :
  Forall (λ e, validName e = true) B → validName name = true →
  Join (absPath B) name = absPath (B ++ [name]).
Proof.
  intros HB Hn. apply (Join_absPath_names B [name]); [done|by constructor].
Qed.

Lemma inside_spec c :
  inside c = true ↔
  Forall (λ e, validName e = true) (relElements c) ∧ fromElements (relElements c) = c.
Proof.
  unfold inside. rewrite andb_true_iff, forallb_forall, String.eqb_eq, Forall_forall.
  split; intros [H1 H2]; (split; [|done]); intros x Hx; apply H1;
    by apply list_elem_of_In.
Qed.

Lemma inside_fromElements q :
  Forall (λ e, validName e = true) q → inside (fromElements q) = true.
Proof.
  intros Hq. apply inside_spec.
  by rewrite relElements_fromElements by by apply canonical_names.
Qed.

(** A path that stays inside is kept under the directory it is joined
    to, at its own elements. *)
Lemma elements_Join_inside B c :
  Forall (λ e, validName e = true) B → inside c = true →
  elements (Join (absPath B) c) = B ++ relElements c.
Proof.
  intros HB [Hq Hc]%inside_spec.
  transitivity (elements (Join (absPath B) (fromElements (relElements c))));
    [by rewrite Hc|].
  rewrite Join_absPath_names by done. apply elements_absPath.
  apply Forall_app. done.
Qed.

Lemma inside_inj c c' :
  inside c = true → inside c' = true → relElements c = relElements c' → c = c'.
Proof. intros [_ H1]%inside_spec [_ H2]%inside_spec Heq. congruence. Qed.

(** [filepath.Rel] of a directory and of a path under it. *)
Lemma relElems_under B q :
  Forall (λ e, validName e = true) B → relElems B (B ++ q) = Some q.
Proof.
  induction 1 as [|b B Hb _ IH]; simpl.
  - by destruct q.
  - by rewrite String.eqb_refl.
Qed.

Lemma Rel_absPath B q :
  Forall (λ e, validName e = true) B → Forall (λ e, validName e = true) q →
  Rel (absPath B) (absPath (B ++ q)) = Some (fromElements q).
Proof.
  intros HB Hq. unfold Rel.
  rewrite !elements_absPath by (done || by apply Forall_app).
  by rewrite relElems_under.
Qed.

(** [filepath.Dir] of an absolute path drops its last element. *)
Lemma Dir_absPath R e :
  Forall (λ x, validName x = true) (R ++ [e]) → Dir (absPath (R ++ [e])) = absPath R.
Proof.
  intros [HR [He _]%Forall_cons]%Forall_app. unfold Dir.
  pose proof (validName_spec e) as [Hspec _]. specialize (Hspec He) as (_ & _ & _ & Hsep).
  destruct R as [|x R].
  - unfold absPath. simpl app. change (GoStrings.Join [e] "/") with e.
    change ("/" +:+ e) with ("" +:+ String Separator e).
    rewrite uptoLastSeparator_app by done. done.
  - unfold absPath at 1. rewrite Join_snoc.
    change ("/" +:+ (?a +:+ ?b)) with (("/" +:+ a) +:+ b).
    rewrite uptoLastSeparator_app by done.
    change ("/" +:+ GoStrings.Join (x :: R) "/") with (absPath (x :: R)).
    unfold Clean.
    assert (String.eqb (absPath (x :: R) +:+ String Separator "") "" = false) as -> by done.
    assert (isRooted (absPath (x :: R) +:+ String Separator "") = true) as Hr by done.
    rewrite Hr. unfold elements. rewrite Hr, Split_app, cleanElems_app.
    rewrite Split_absPath by done.
    change (GoStrings.Split Separator "") with [""].
    cbn [cleanElems String.eqb orb]. by rewrite rev_involutive.
Qed.

Lemma Dir_root : Dir (absPath []) = absPath [].
Proof. done. Qed.

(** The directory of an absolute path is at all but the last of its
    elements. *)
Lemma Dir_absPath_removelast E :
  Forall (λ x, validName x = true) E → Dir (absPath E) = absPath (removelast E).
Proof.
  intros HE. destruct (decide (E = [])) as [->|Hne]; [done|].
  destruct (exists_last Hne) as (R & e & ->).
  rewrite Dir_absPath by done. by rewrite removelast_last.
Qed.

Lemma removelast_valid E :
  Forall (λ x, validName x = true) E → Forall (λ x, validName x = true) (removelast E).
Proof.
  intros HE. destruct (decide (E = [])) as [->|Hne]; [done|].
  destruct (exists_last Hne) as (R & e & ->).
  rewrite removelast_last. by apply Forall_app in HE as [? _].
Qed.

Lemma resolve_absPath t R :
  Forall (λ e, validName e = true) R → Os.resolve t (absPath R) = Os.walkTo t R.
Proof. intros HR. unfold Os.resolve. by rewrite elements_absPath. Qed.

End Absolute.

(** * The file system *)

Section Tree.

Import Os.

(** Induction on a tree, with the property on every entry of a
    directory. *)
Lemma node_ind (P : node → Prop) :
  (∀ data mode, P (File data mode)) →
  (∀ es, Forall (λ e, P e.2) es → P (Dir es)) →
  ∀ n, P n.
Proof.
  intros HF HD. fix IH 1. intros [data mode|es].
  - apply HF.
  - apply HD. induction es as [|[name c] es IHes]; constructor; [apply IH|apply IHes].
Qed.

Lemma wfNode_Dir es :
  wfNode (Dir es) ↔
  NoDup (es.*1) ∧ Forall (λ e, validName e.1 = true ∧ wfNode e.2) es.
Proof.
  simpl. apply and_iff_compat_l.
  induction es as [|[name c] es IH]; simpl.
  - split; [constructor|done].
  - rewrite Forall_cons. simpl. tauto.
Qed.

(** ** Directory entries *)

Lemma getEntry_Some name es c : getEntry name es = Some c → (name, c) ∈ es.
Proof.
  induction es as [|[n c'] es IH]; simpl; [done|].
  destruct (String.eqb n name) eqn:Hn.
  - apply String.eqb_eq in Hn as ->. intros [= ->]. by left.
  - intros H. right. by apply IH.
Qed.

Lemma getEntry_None name es : getEntry name es = None ↔ name ∉ es.*1.
Proof.
  induction es as [|[n c'] es IH]; simpl.
  - split; [intros _; apply not_elem_of_nil|done].
  - destruct (String.eqb n name) eqn:Hn.
    + apply String.eqb_eq in Hn as ->. split; [done|]. intros H. destruct H. by left.
    + apply String.eqb_neq in Hn. rewrite IH, not_elem_of_cons. naive_solver.
Qed.

Lemma getEntry_NoDup name c es : NoDup (es.*1) → (name, c) ∈ es → getEntry name es = Some c.
Proof.
  induction es as [|[n c'] es IH]; simpl; intros Hnd Hin.
  - by apply elem_of_nil in Hin.
  - apply NoDup_cons in Hnd as [Hn Hnd].
    apply elem_of_cons in Hin as [[= <- <-]|Hin].
    + by rewrite String.eqb_refl.
    + destruct (String.eqb n name) eqn:Heq; [|by apply IH].
      apply String.eqb_eq in Heq as ->. destruct Hn.
      apply list_elem_of_fmap. by exists (name, c).
Qed.

Lemma getEntry_replaceEntry name name' c es :
  getEntry name' (replaceEntry name c es)
  = if String.eqb name name' then (getEntry name es ≫= λ _, Some c) else getEntry name' es.
Proof.
  induction es as [|[n c'] es IH]; simpl.
  - by destruct (String.eqb name name').
  - destruct (String.eqb n name) eqn:Hn; simpl.
    + apply String.eqb_eq in Hn as ->. by destruct (String.eqb name name').
    + rewrite IH. destruct (String.eqb name name') eqn:Hnn; [|done].
      apply String.eqb_eq in Hnn as <-. by rewrite Hn.
Qed.

Lemma getEntry_insertEntry name name' c es :
  getEntry name es = None →
  getEntry name' (insertEntry name c es)
  = if String.eqb name name' then Some c else getEntry name' es.
Proof.
  induction es as [|[n c'] es IH]; simpl; [done|].
  destruct (String.eqb n name) eqn:Hn; [done|]. intros Hnone.
  destruct (String.ltb name n); simpl; [done|].
  rewrite IH by done. destruct (String.eqb name name') eqn:Hnn; [|done].
  apply String.eqb_eq in Hnn as <-. by rewrite Hn.
Qed.

Lemma getEntry_setEntry_if name name' c es :
  getEntry name' (setEntry name c es)
  = if String.eqb name name' then Some c else getEntry name' es.
Proof.
  unfold setEntry. destruct (getEntry name es) eqn:Hg.
  - rewrite getEntry_replaceEntry, Hg. done.
  - by apply getEntry_insertEntry.
Qed.

Lemma getEntry_setEntry name c es : getEntry name (setEntry name c es) = Some c.
Proof. by rewrite getEntry_setEntry_if, String.eqb_refl. Qed.

Lemma getEntry_setEntry_ne name name' c es :
  name ≠ name' → getEntry name' (setEntry name c es) = getEntry name' es.
Proof. intros Hne. rewrite getEntry_setEntry_if. by apply String.eqb_neq in Hne as ->. Qed.

Lemma getEntry_delEntry name es : getEntry name (delEntry name es) = None.
Proof.
  unfold delEntry. induction es as [|[n c'] es IH]; simpl; [done|].
  destruct (String.eqb n name) eqn:Hn; simpl; [done|]. by rewrite Hn.
Qed.

Lemma getEntry_delEntry_ne name name' es :
  name ≠ name' → getEntry name' (delEntry name es) = getEntry name' es.
Proof.
  intros Hne. unfold delEntry. induction es as [|[n c'] es IH]; simpl; [done|].
  destruct (String.eqb n name) eqn:Hn; simpl.
  - apply String.eqb_eq in Hn as ->. by apply String.eqb_neq in Hne as ->.
  - by rewrite IH.
Qed.

Lemma replaceEntry_names name c es : (replaceEntry name c es).*1 = es.*1.
Proof.
  induction es as [|[n c'] es IH]; [done|]. cbn [replaceEntry].
  destruct (String.eqb n name) eqn:Hn; rewrite !fmap_cons; cbn [fst].
  - by apply String.eqb_eq in Hn as ->.
  - by rewrite IH.
Qed.

Lemma insertEntry_perm name c es : insertEntry name c es ≡ₚ (name, c) :: es.
Proof.
  induction es as [|[n c'] es IH]; simpl; [done|].
  destruct (String.ltb name n); [done|]. rewrite IH. apply Permutation_swap.
Qed.

Lemma replaceEntry_elem name c es e :
  e ∈ replaceEntry name c es → e = (name, c) ∨ e ∈ es.
Proof.
  induction es as [|[n c'] es IH]; simpl; [set_solver|].
  destruct (String.eqb n name); set_solver.
Qed.

Lemma setEntry_elem name c es e :
  e ∈ setEntry name c es → e = (name, c) ∨ e ∈ es.
Proof.
  unfold setEntry. destruct (getEntry name es).
  - apply replaceEntry_elem.
  - rewrite insertEntry_perm. set_solver.
Qed.

Lemma setEntry_NoDup name c es : NoDup (es.*1) → NoDup ((setEntry name c es).*1).
Proof.
  unfold setEntry. destruct (getEntry name es) eqn:Hg; intros Hnd.
  - by rewrite replaceEntry_names.
  - rewrite insertEntry_perm. simpl. apply NoDup_cons. split; [|done].
    by apply getEntry_None.
Qed.

Lemma delEntry_elem name es e : e ∈ delEntry name es → e ∈ es.
Proof. unfold delEntry. rewrite list_elem_of_In, filter_In, <- list_elem_of_In. tauto. Qed.

Lemma delEntry_NoDup name es : NoDup (es.*1) → NoDup ((delEntry name es).*1).
Proof.
  unfold delEntry. induction es as [|[n c'] es IH]; simpl; [done|].
  rewrite NoDup_cons. intros [Hn Hnd].
  destruct (negb (String.eqb n name)); simpl; [|by apply IH].
  apply NoDup_cons. split; [|by apply IH].
  intros (e & -> & He)%list_elem_of_fmap. apply Hn.
  apply list_elem_of_fmap. exists e. split; [done|].
  by apply (delEntry_elem name).
Qed.

End Tree.

Section Changes.

Import Os.

Lemma walkTo_None p : walkTo None p = inl ENOENT.
Proof. by destruct p. Qed.

Lemma nodeAt_nil t : nodeAt t [] = t.
Proof. by destruct t. Qed.

Lemma nodeAt_None p : nodeAt None p = None.
Proof. unfold nodeAt. by rewrite walkTo_None. Qed.

Lemma fileAt_None p : fileAt None p = None.
Proof. unfold fileAt. by rewrite walkTo_None. Qed.

Lemma nodeAt_cons es e p : nodeAt (Some (Dir es)) (e :: p) = nodeAt (getEntry e es) p.
Proof. done. Qed.

Lemma fileAt_cons es e p : fileAt (Some (Dir es)) (e :: p) = fileAt (getEntry e es) p.
Proof. done. Qed.

Lemma fileAt_File_cons d m e p : fileAt (Some (File d m)) (e :: p) = None.
Proof. done. Qed.

Lemma fileAt_nodeAt t p d m : fileAt t p = Some (d, m) ↔ nodeAt t p = Some (File d m).
Proof.
  unfold fileAt, nodeAt. destruct (walkTo t p) as [e|[d' m'|es]]; naive_solver.
Qed.

Lemma fileAt_walkTo t p d m : fileAt t p = Some (d, m) ↔ walkTo t p = inr (File d m).
Proof.
  unfold fileAt. destruct (walkTo t p) as [e|[d' m'|es]]; naive_solver.
Qed.

(** What a change does where it is made. *)
Lemma alterAt_nodeAt f p t t' :
  alterAt f p t = inr t' → f (nodeAt t p) = inr (nodeAt t' p).
Proof.
  revert t t'. induction p as [|e p IH]; intros t t'; simpl.
  - by rewrite !nodeAt_nil.
  - destruct t as [[d m|es]|]; [done| |done].
    destruct (alterAt f p (getEntry e es)) as [err|r] eqn:Hr; [done|].
    apply IH in Hr. rewrite nodeAt_cons, Hr.
    destruct r as [c|]; intros [= <-]; rewrite nodeAt_cons.
    + by rewrite getEntry_setEntry.
    + by rewrite getEntry_delEntry, nodeAt_None.
Qed.

(** A local change leaves every other file as it is. *)
Lemma alterAt_fileAt f p t t' q :
  localChange f → alterAt f p t = inr t' → q ≠ p → fileAt t' q = fileAt t q.
Proof.
  intros Hf. revert t t' q. induction p as [|e p IH]; intros t t' q; simpl.
  - intros Hft Hq. destruct q as [|e' q']; [done|].
    destruct (Hf _ _ Hft) as [->|[Ho' Ho]]; [done|].
    transitivity (@None (string * N)).
    + destruct Ho' as [->|(d & m & ->)]; [apply fileAt_None|done].
    + destruct t as [[d m|es]|]; [done| |by rewrite fileAt_None].
      rewrite (Ho es eq_refl). rewrite fileAt_cons. simpl. by rewrite fileAt_None.
  - destruct t as [[d m|es]|]; [done| |done].
    destruct (alterAt f p (getEntry e es)) as [err|r] eqn:Hr; [done|].
    intros Ht' Hq.
    assert (∃ es', t' = Some (Dir es') ∧
                   ∀ e', getEntry e' es' = if String.eqb e e' then r else getEntry e' es)
      as (es' & -> & Hes').
    { destruct r as [c|]; injection Ht' as <-; eexists; (split; [done|]); intros e'.
      - apply getEntry_setEntry_if.
      - destruct (String.eqb e e') eqn:Hee.
        + apply String.eqb_eq in Hee as <-. apply getEntry_delEntry.
        + apply String.eqb_neq in Hee. by apply getEntry_delEntry_ne. }
    destruct q as [|e' q']; [done|].
    rewrite !fileAt_cons, Hes'.
    destruct (String.eqb e e') eqn:Hee; [|done].
    apply String.eqb_eq in Hee as <-.
    eapply IH; [done|]. congruence.
Qed.

Lemma alterAt_Dir f e p es t' :
  alterAt f (e :: p) (Some (Dir es)) = inr t' → ∃ es', t' = Some (Dir es').
Proof.
  simpl. destruct (alterAt f p (getEntry e es)) as [err|[c|]]; [done| |]; intros [= <-]; eauto.
Qed.

Lemma localChange_removeNode : localChange removeNode.
Proof.
  intros [[d m|[|e es]]|] o'; simpl; intros [= <-]; right; (split; [by left|]); naive_solver.
Qed.

Lemma localChange_createNode : localChange createNode.
Proof.
  intros [[d m|es]|] o'; simpl; intros [= <-]; right; (split; [right; eauto|]); naive_solver.
Qed.

Lemma localChange_writeNode data : localChange (writeNode data).
Proof.
  intros [[d m|es]|] o'; simpl; intros [= <-]; right; (split; [right; eauto|]); naive_solver.
Qed.

Lemma localChange_chmodNode mode : localChange (chmodNode mode).
Proof.
  intros [[d m|es]|] o'; simpl; intros [= <-]; [|by left].
  right; (split; [right; eauto|]); naive_solver.
Qed.

(** ** [os.MkdirAll] *)

Lemma fileAt_mkdirChain p q : fileAt (Some (mkdirChain p)) q = None.
Proof.
  revert q. induction p as [|e p IH]; intros [|e' q]; try done.
  - simpl mkdirChain. rewrite fileAt_cons. apply fileAt_None.
  - simpl mkdirChain. rewrite fileAt_cons. simpl.
    destruct (String.eqb e e'); [apply IH|apply fileAt_None].
Qed.

Lemma mkdirAllAt_fileAt p t n q :
  mkdirAllAt p t = inr n → fileAt (Some n) q = fileAt t q.
Proof.
  revert t n q. induction p as [|e p IH]; intros t n q.
  - destruct t as [[d m|es]|]; simpl; [done| |]; intros [= <-]; [done|].
    rewrite fileAt_None. destruct q; [done|]. rewrite fileAt_cons. apply fileAt_None.
  - destruct t as [[d m|es]|]; cbn [mkdirAllAt]; [done| |].
    + destruct (mkdirAllAt p (getEntry e es)) as [err|c] eqn:Hc; [done|].
      intros [= <-]. destruct q as [|e' q]; [done|].
      rewrite !fileAt_cons, getEntry_setEntry_if.
      destruct (String.eqb e e') eqn:Hee; [|done].
      apply String.eqb_eq in Hee as <-. by apply IH.
    + intros [= <-]. rewrite fileAt_None. apply (fileAt_mkdirChain (e :: p)).
Qed.

Lemma mkdirAllAt_Dir p t n : mkdirAllAt p t = inr n → ∃ es, n = Dir es.
Proof.
  destruct p as [|e p], t as [[d m|es]|]; simpl; try done; try (intros [= <-]; eauto).
  destruct (mkdirAllAt p (getEntry e es)); [done|]. intros [= <-]; eauto.
Qed.

(** ** Well-formed trees stay well formed *)

Lemma wfNode_setEntry e c es :
  validName e = true → wfNode c → wfNode (Dir es) → wfNode (Dir (setEntry e c es)).
Proof.
  rewrite !wfNode_Dir. intros He Hc [Hnd Hall]. split; [by apply setEntry_NoDup|].
  apply Forall_forall. intros x [->|Hx]%setEntry_elem; [done|].
  rewrite Forall_forall in Hall. by apply Hall.
Qed.

Lemma wfNode_delEntry e es : wfNode (Dir es) → wfNode (Dir (delEntry e es)).
Proof.
  rewrite !wfNode_Dir. intros [Hnd Hall]. split; [by apply delEntry_NoDup|].
  apply Forall_forall. intros x Hx%delEntry_elem.
  rewrite Forall_forall in Hall. by apply Hall.
Qed.

Lemma wfNode_getEntry e es c : wfNode (Dir es) → getEntry e es = Some c → wfNode c.
Proof.
  rewrite wfNode_Dir. intros [_ Hall] Hin%getEntry_Some.
  rewrite Forall_forall in Hall. by apply (Hall _ Hin).
Qed.

Lemma wfFs_getEntry e es : wfNode (Dir es) → wfFs (getEntry e es).
Proof.
  intros Hwf. destruct (getEntry e es) eqn:Hg; [|done]. simpl. eauto using wfNode_getEntry.
Qed.

Lemma alterAt_wf f p t t' :
  keepsWf f → Forall (λ e, validName e = true) p →
  wfFs t → alterAt f p t = inr t' → wfFs t'.
Proof.
  intros Hf. revert t t'. induction p as [|e p IH]; intros t t' Hp Hwf; simpl.
  - by apply Hf.
  - inversion Hp; subst.
    destruct t as [[d m|es]|]; [done| |done].
    destruct (alterAt f p (getEntry e es)) as [err|r] eqn:Hr; [done|].
    apply IH in Hr; [|done|by apply wfFs_getEntry].
    destruct r as [c|]; intros [= <-].
    + by apply wfNode_setEntry.
    + by apply wfNode_delEntry.
Qed.

Lemma wfNode_mkdirChain p : Forall (λ e, validName e = true) p → wfNode (mkdirChain p).
Proof.
  induction 1 as [|e p He Hp IH]; simpl.
  - split; [constructor|done].
  - split; [apply NoDup_singleton|done].
Qed.

Lemma mkdirAllAt_wf p t n :
  Forall (λ e, validName e = true) p → wfFs t → mkdirAllAt p t = inr n → wfNode n.
Proof.
  intros Hp. revert t n. induction Hp as [|e p He Hp IH]; intros t n Hwf.
  - destruct t as [[d m|es]|]; simpl; [done| |]; intros [= <-]; [done|].
    split; [constructor|done].
  - destruct t as [[d m|es]|]; cbn [mkdirAllAt]; [done| |].
    + destruct (mkdirAllAt p (getEntry e es)) as [err|c] eqn:Hc; [done|].
      intros [= <-]. apply wfNode_setEntry; [done| |done].
      eapply IH; [|done]. by apply wfFs_getEntry.
    + intros [= <-]. apply (wfNode_mkdirChain (e :: p)). by constructor.
Qed.

Lemma keepsWf_removeNode : keepsWf removeNode.
Proof. intros [[d m|[|e es]]|] o'; simpl; intros ? [= <-]; done. Qed.

Lemma keepsWf_createNode : keepsWf createNode.
Proof. intros [[d m|es]|] o'; simpl; intros ? [= <-]; done. Qed.

Lemma keepsWf_writeNode data : keepsWf (writeNode data).
Proof. intros [[d m|es]|] o'; simpl; intros ? [= <-]; done. Qed.

Lemma keepsWf_chmodNode mode : keepsWf (chmodNode mode).
Proof. intros [[d m|es]|] o'; simpl; intros ? [= <-]; done. Qed.

End Changes.

(** * Walking a tree *)

Section Walk.

Import Os.

Lemma subpaths_Dir es :
  subpaths (Dir es)
  = ([], true) :: (es ≫= λ e, (λ v, (e.1 :: v.1, v.2)) <$> subpaths e.2).
Proof.
  simpl. f_equal. induction es as [|[name c] es IH]; [done|].
  rewrite IH. done.
Qed.

Lemma walkDir_Dir path es :
  walkDir path (Dir es)
  = (path, true) :: (es ≫= λ e, walkDir (Filepath.Join path e.1) e.2).
Proof.
  simpl. f_equal. induction es as [|[name c] es IH]; [done|].
  rewrite IH. done.
Qed.

Lemma elem_of_subpaths_Dir es q b :
  (q, b) ∈ subpaths (Dir es) ↔
  (q = [] ∧ b = true) ∨
  ∃ name c q', (name, c) ∈ es ∧ q = name :: q' ∧ (q', b) ∈ subpaths c.
Proof.
  rewrite subpaths_Dir, elem_of_cons, list_elem_of_bind.
  split.
  - intros [[= -> ->]|([name c] & Hin & He)]; [by left|]. right.
    apply list_elem_of_fmap in Hin as ([q' b'] & [= -> ->] & Hin).
    eauto 10.
  - intros [[-> ->]|(name & c & q' & He & -> & Hin)]; [by left|]. right.
    exists (name, c). split; [|done].
    apply list_elem_of_fmap. by exists (q', b).
Qed.

(** Every entry under a well-formed node is reached through names. *)
Lemma subpaths_valid n :
  wfNode n → ∀ q b, (q, b) ∈ subpaths n → Forall (λ e, validName e = true) q.
Proof.
  induction n as [d m|es IH] using node_ind; intros Hwf q b.
  - simpl. intros [= -> ->]%list_elem_of_singleton. constructor.
  - apply wfNode_Dir in Hwf as [_ Hall].
    intros [[-> _]|(name & c & q' & He & -> & Hin)]%elem_of_subpaths_Dir; [constructor|].
    rewrite Forall_forall in IH, Hall.
    destruct (Hall _ He) as [Hname Hc].
    constructor; [done|]. by apply (IH _ He Hc q' b).
Qed.

(** The entries under a well-formed node are what the paths lead to. *)
Lemma subpaths_walkTo n :
  wfNode n → ∀ q b,
    (q, b) ∈ subpaths n ↔ ∃ c, walkTo (Some n) q = inr c ∧ IsDir c = b.
Proof.
  induction n as [d m|es IH] using node_ind; intros Hwf q b.
  - simpl. rewrite list_elem_of_singleton. split.
    + intros [= -> ->]. eauto.
    + intros (c & Hc & <-). destruct q; [|done]. by injection Hc as <-.
  - pose proof Hwf as [Hnd Hall]%wfNode_Dir.
    rewrite elem_of_subpaths_Dir. rewrite Forall_forall in IH, Hall. split.
    + intros [[-> ->]|(name & c & q' & He & -> & Hin)]; [by eexists|].
      destruct (Hall _ He) as [_ Hc].
      apply (IH _ He Hc) in Hin as (c' & Hc' & <-).
      exists c'. split; [|done]. simpl. by rewrite (getEntry_NoDup name c).
    + intros (c' & Hc' & <-). destruct q as [|name q']; [left; by injection Hc' as <-|].
      right. simpl in Hc'. destruct (getEntry name es) as [c|] eqn:Hg.
      * apply getEntry_Some in Hg. exists name, c, q'. split; [done|]. split; [done|].
        destruct (Hall _ Hg) as [_ Hc]. apply (IH _ Hg Hc). eauto.
      * by rewrite walkTo_None in Hc'.
Qed.

(** [walkDir] names the entries by their joined elements. *)
Lemma walkDir_subpaths n :
  wfNode n → ∀ rs, Forall (λ e, validName e = true) rs →
  walkDir (Filepath.absPath rs) n
  = (λ v, (Filepath.absPath (rs ++ v.1), v.2)) <$> subpaths n.
Proof.
  induction n as [d m|es IH] using node_ind; intros Hwf rs Hrs.
  - simpl. by rewrite app_nil_r.
  - rewrite walkDir_Dir, subpaths_Dir, fmap_cons. simpl. rewrite app_nil_r. f_equal.
    apply wfNode_Dir in Hwf as [_ Hall].
    induction es as [|[name c] es IHes]; [done|].
    apply Forall_cons in IH as [IHc IH]. apply Forall_cons in Hall as [[Hname Hc] Hall].
    simpl in *. rewrite fmap_app. f_equal; [|by apply IHes].
    rewrite Join_absPath_name by done.
    rewrite IHc; [|done|by apply validNames_snoc].
    rewrite <- list_fmap_compose. apply list_fmap_ext. intros _ [q b] _. simpl.
    by rewrite <- app_assoc.
Qed.

Lemma walkTo_app t p q n :
  walkTo t p = inr n → walkTo t (p ++ q) = walkTo (Some n) q.
Proof.
  revert t. induction p as [|e p IH]; intros t; simpl.
  - destruct t as [n'|]; [|done]. by intros [= ->].
  - destruct t as [[d m|es]|]; [done| |done]. apply IH.
Qed.

Lemma walkTo_wf t p n : wfFs t → walkTo t p = inr n → wfNode n.
Proof.
  revert t. induction p as [|e p IH]; intros t Hwf; simpl.
  - destruct t as [n'|]; [|done]. by intros [= <-].
  - destruct t as [[d m|es]|]; [done| |done]. apply IH. by apply wfFs_getEntry.
Qed.

End Walk.

(** * The snapshot of the backup directory *)

Section Snapshot.

Import Os.

Lemma foldl_snapshotFn flags visited dirs files :
  foldl (snapshotFn flags) (dirs, files) visited
  = (dirs ++ ((λ v, default "" (Filepath.Rel (backupPath flags) v.1))
                <$> List.filter snd visited),
     list_to_set ((λ v, default "" (Filepath.Rel (backupPath flags) v.1))
                    <$> List.filter (λ v, negb v.2) visited) ∪ files).
Proof.
  revert dirs files. induction visited as [|[path b] visited IH]; intros dirs files.
  - simpl. rewrite app_nil_r. f_equal. set_solver.
  - cbn [foldl]. destruct (snapshotFn flags (dirs, files) (path, b)) as [d' f'] eqn:Hs.
    rewrite IH. unfold snapshotFn in Hs. simpl in Hs.
    destruct b; injection Hs as <- <-; simpl.
    + by rewrite <- app_assoc.
    + f_equal. set_solver.
Qed.

Lemma filter_fmap_snd {A B} (f : A → B) (p : bool → bool) (l : list (A * bool)) :
  List.filter (λ v, p v.2) ((λ v, (f v.1, v.2)) <$> l)
  = (λ v, (f v.1, v.2)) <$> List.filter (λ v, p v.2) l.
Proof.
  induction l as [|[a b] l IH]; [done|].
  rewrite fmap_cons. cbn [List.filter snd]. rewrite IH.
  by destruct (p b).
Qed.

(** The snapshot of a well-formed backup directory: its directories
    in the order of the walk, and the set of its files. *)
Lemma snapshot_wf flags B backup n :
  absolute (backupPath flags) B → wfNode n → walkTo backup B = inr n →
  snapshot flags backup = Ok (dirsOf n, list_to_set (filesOf n)).
Proof.
  intros [HB HP] Hwf Hn. unfold snapshot, WalkDir.
  rewrite HP, resolve_absPath, Hn by done. simpl.
  rewrite walkDir_subpaths by done.
  rewrite foldl_snapshotFn. simpl. f_equal. unfold dirsOf, filesOf.
  assert (Hrel : ∀ p : bool → bool,
    (λ v : string * bool, default "" (Filepath.Rel (backupPath flags) v.1))
      <$> List.filter (λ v, p v.2)
            ((λ v : list string * bool, (Filepath.absPath (B ++ v.1), v.2)) <$> subpaths n)
    = (λ v, Filepath.fromElements v.1) <$> List.filter (λ v, p v.2) (subpaths n)).
  { intros p. rewrite (filter_fmap_snd (λ q, Filepath.absPath (B ++ q)) p).
    rewrite <- list_fmap_compose. apply list_fmap_ext.
    intros i [q b] Hi. simpl.
    assert (Hin : (q, b) ∈ subpaths n).
    { apply list_elem_of_lookup_2 in Hi. apply list_elem_of_In, filter_In in Hi as [Hi _].
      by apply list_elem_of_In. }
    rewrite HP, Rel_absPath; [done..|]. by eapply subpaths_valid. }
  f_equal.
  - apply (Hrel (λ b, b)).
  - rewrite (Hrel negb). set_solver.
Qed.

(** When there is nothing at the path of the backup directory, or a
    regular file is in the way, the run stops. *)
Lemma snapshot_Panic flags B backup e :
  absolute (backupPath flags) B → walkTo backup B = inl e →
  snapshot flags backup = Panic (PathError "lstat" (backupPath flags) e).
Proof.
  intros [HB HP] Hn. unfold snapshot, WalkDir.
  by rewrite HP, resolve_absPath, Hn by done.
Qed.

Lemma elem_of_filesOf n p :
  wfNode n →
  p ∈ filesOf n ↔
  ∃ q d m, p = Filepath.fromElements q ∧ Forall (λ e, validName e = true) q ∧
           fileAt (Some n) q = Some (d, m).
Proof.
  intros Hwf. unfold filesOf. rewrite list_elem_of_fmap. split.
  - intros ([q b] & -> & Hin). apply list_elem_of_In, filter_In in Hin as [Hin Hb].
    apply list_elem_of_In in Hin. simpl in Hb. destruct b; [done|].
    pose proof (subpaths_valid n Hwf q _ Hin) as Hq.
    apply subpaths_walkTo in Hin as (c & Hc & Hd); [|done].
    destruct c as [d m|]; [|done]. exists q, d, m. split; [done|]. split; [done|].
    by apply fileAt_walkTo.
  - intros (q & d & m & -> & Hq & Hf). exists (q, false). split; [done|].
    apply list_elem_of_In, filter_In. split; [|done]. apply list_elem_of_In.
    apply subpaths_walkTo; [done|]. exists (File d m). split; [|done].
    by apply fileAt_walkTo.
Qed.

Lemma elem_of_dirsOf n p :
  wfNode n →
  p ∈ dirsOf n ↔
  ∃ q es, p = Filepath.fromElements q ∧ Forall (λ e, validName e = true) q ∧
          nodeAt (Some n) q = Some (Dir es).
Proof.
  intros Hwf. unfold dirsOf. rewrite list_elem_of_fmap. split.
  - intros ([q b] & -> & Hin). apply list_elem_of_In, filter_In in Hin as [Hin Hb].
    apply list_elem_of_In in Hin. simpl in Hb. destruct b; [|done].
    pose proof (subpaths_valid n Hwf q _ Hin) as Hq.
    apply subpaths_walkTo in Hin as (c & Hc & Hd); [|done].
    destruct c as [|es]; [done|]. exists q, es. split; [done|]. split; [done|].
    unfold nodeAt. by rewrite Hc.
  - intros (q & es & -> & Hq & Hf). exists (q, true). split; [done|].
    apply list_elem_of_In, filter_In. split; [|done]. apply list_elem_of_In.
    apply subpaths_walkTo; [done|]. exists (Dir es). split; [|done].
    unfold nodeAt in Hf. by destruct (walkTo (Some n) q) as [|c]; [|injection Hf as ->].
Qed.

(** ** Pre-order *)

Lemma afterParent_app seen l l' :
  afterParent seen l → afterParent (seen ++ l) l' → afterParent seen (l ++ l').
Proof.
  intros Hl Hl' l1 q e b l2 Heq.
  apply app_eq_app in Heq as [k [[Hk1 Hk2]|[Hk1 Hk2]]].
  - destruct k as [|x k].
    + rewrite app_nil_r in Hk1. subst l1. simpl in Hk2.
      specialize (Hl' [] q e b l2 (eq_sym Hk2)). by rewrite app_nil_r in Hl'.
    + injection Hk2 as <- ->. by eapply Hl.
  - subst l1. rewrite app_assoc. by eapply Hl'.
Qed.

Lemma afterParent_mono seen seen' l :
  seen ⊆ seen' → afterParent seen l → afterParent seen' l.
Proof. intros Hs Hl l1 q e b l2 Heq. specialize (Hl _ _ _ _ _ Heq). set_solver. Qed.

Lemma subpaths_head n : ∃ b rest, subpaths n = ([], b) :: rest.
Proof. destruct n; [by eexists _, _|]. rewrite subpaths_Dir. by eexists _, _. Qed.

Lemma afterParent_under name seen l :
  afterParent seen l →
  afterParent (([], true) :: ((λ v, (name :: v.1, v.2)) <$> seen))
              ((λ v : list string * bool, (name :: v.1, v.2)) <$> l).
Proof.
  intros Hl l1 q e b l2 Heq.
  apply fmap_app_inv in Heq as (k1 & k2' & -> & Hk2 & ->).
  symmetry in Hk2. apply fmap_cons_inv in Hk2 as ([q0 b0] & k2 & [= Hq ->] & -> & ->).
  destruct q as [|e0 q].
  - simpl. apply elem_of_cons. by left.
  - simpl in Hq. injection Hq as -> <-.
    specialize (Hl k1 q e b0 k2 eq_refl). simpl. apply elem_of_cons. right.
    rewrite <- fmap_app. apply list_elem_of_fmap. by exists (q, true).
Qed.

Lemma afterParent_single seen b : afterParent seen [([], b)].
Proof.
  intros l1 q e b' l2 Heq. destruct l1 as [|x l1].
  - injection Heq as Hq _. by destruct q.
  - injection Heq as _ Heq. by destruct l1.
Qed.

(** The walk is in pre-order: an entry comes after the directory it is
    in. *)
Lemma subpaths_afterParent n : afterParent [] (subpaths n).
Proof.
  induction n as [d m|es IH] using node_ind.
  - apply afterParent_single.
  - rewrite subpaths_Dir. apply (afterParent_app [] [_]); [apply afterParent_single|].
    simpl. induction es as [|[name c] es IHes]; simpl.
    + intros l1 q e b l2 Heq. by destruct l1.
    + apply Forall_cons in IH as [IHc IH].
      apply afterParent_app.
      * apply (afterParent_under name) in IHc. done.
      * eapply afterParent_mono; [|by apply IHes]. set_solver.
Qed.

Lemma subpaths_root_first n l1 b l2 : subpaths n = l1 ++ ([], b) :: l2 → l1 = [].
Proof.
  destruct l1 as [|x l1]; [done|]. intros Heq.
  assert (Hin : ([], b) ∈ List.tail (subpaths n)).
  { rewrite Heq. simpl. set_solver. }
  destruct n as [d m|es]; [by apply elem_of_nil in Hin|].
  rewrite subpaths_Dir in Hin. simpl in Hin.
  apply list_elem_of_bind in Hin as (y & Hin & _).
  by apply list_elem_of_fmap in Hin as (? & ? & _).
Qed.

Lemma filter_app_inv {A} (P : A → bool) l k1 x k2 :
  List.filter P l = k1 ++ x :: k2 →
  ∃ l1 l2, l = l1 ++ x :: l2 ∧ List.filter P l1 = k1 ∧ List.filter P l2 = k2 ∧ P x = true.
Proof.
  revert k1. induction l as [|a l IH]; intros k1; simpl.
  - by destruct k1.
  - destruct (P a) eqn:Ha.
    + destruct k1 as [|y k1]; simpl.
      * intros [= -> <-]. exists [], l. done.
      * intros [= -> Hl]. apply IH in Hl as (l1 & l2 & -> & <- & <- & Hx).
        exists (y :: l1), l2. simpl. by rewrite Ha.
    + intros Hl. apply IH in Hl as (l1 & l2 & -> & <- & <- & Hx).
      exists (a :: l1), l2. simpl. by rewrite Ha.
Qed.

End Snapshot.

(** * The calls of package [os] *)

Section Calls.

Import Os.

(** A change that fails changes nothing. *)
Lemma change_err op f t path t' e : change op f t path = (t', Some e) → t' = t.
Proof. unfold change. destruct (alterAt _ _ _); by intros [= <-]. Qed.

Lemma change_ok op f t path t' :
  change op f t path = (t', None) → alterAt f (Filepath.elements path) t = inr t'.
Proof. unfold change. destruct (alterAt _ _ _); [done|]. by intros [= <-]. Qed.

Lemma change_fileAt op f t path t' err q :
  localChange f → change op f t path = (t', err) →
  q ≠ Filepath.elements path → fileAt t' q = fileAt t q.
Proof.
  intros Hf Hc Hq. destruct err as [e|].
  - by rewrite (change_err _ _ _ _ _ _ Hc).
  - apply change_ok in Hc. by eapply alterAt_fileAt.
Qed.

Lemma change_wf op f t path t' err :
  keepsWf f → Forall (λ e, validName e = true) (Filepath.elements path) →
  wfFs t → change op f t path = (t', err) → wfFs t'.
Proof.
  intros Hf Hp Hwf Hc. destruct err as [e|].
  - by rewrite (change_err _ _ _ _ _ _ Hc).
  - apply change_ok in Hc. by eapply alterAt_wf.
Qed.

Lemma change_Dir op f es path t' err :
  (∀ o', f (Some (Dir es)) = inr o' → ∃ es', o' = Some (Dir es')) →
  change op f (Some (Dir es)) path = (t', err) → ∃ es', t' = Some (Dir es').
Proof.
  intros Hf Hc. destruct err as [e|].
  - rewrite (change_err _ _ _ _ _ _ Hc). eauto.
  - apply change_ok in Hc.
    destruct (Filepath.elements path) as [|e p]; [by apply Hf|].
    by eapply alterAt_Dir.
Qed.

Lemma MkdirAll_fileAt t path t' err q :
  MkdirAll t path = (t', err) → fileAt t' q = fileAt t q.
Proof.
  unfold MkdirAll.
  destruct (mkdirAllAt _ _) as [e|n] eqn:Hm; intros [= <- _]; [done|].
  by eapply mkdirAllAt_fileAt.
Qed.

Lemma MkdirAll_wf t path t' err :
  wfFs t → Forall (λ e, validName e = true) (Filepath.elements path) →
  MkdirAll t path = (t', err) → wfFs t'.
Proof.
  unfold MkdirAll. intros Hwf Hp.
  destruct (mkdirAllAt _ _) as [e|n] eqn:Hm; intros [= <- _]; [done|].
  by eapply mkdirAllAt_wf.
Qed.

(** ** [copyFile] *)

Lemma makeDstDir_fileAt backup dstPath backup1 err q :
  makeDstDir backup dstPath = (backup1, err) → fileAt backup1 q = fileAt backup q.
Proof.
  unfold makeDstDir.
  destruct (Stat _ _) as [i e]. destruct (IsNotExist e); [|by intros [= <- _]].
  apply MkdirAll_fileAt.
Qed.

(** [copyFile] leaves every other file of the backup as it is, whether
    it fails or not. *)
Lemma copyFile_fileAt src backup srcPath dstPath backup' err q :
  copyFile src backup srcPath dstPath = (backup', err) →
  q ≠ Filepath.elements dstPath → fileAt backup' q = fileAt backup q.
Proof.
  unfold copyFile. intros Hc Hq.
  destruct (makeDstDir backup dstPath) as [backup1 err1] eqn:H1.
  rewrite <- (makeDstDir_fileAt _ _ _ _ q H1).
  destruct err1 as [e|]; [by injection Hc as <- _|].
  destruct (resolve src srcPath) as [e|sourceFile]; [by injection Hc as <- _|].
  destruct (Create backup1 dstPath) as [backup2 err2] eqn:H2.
  rewrite <- (change_fileAt _ _ _ _ _ _ q localChange_createNode H2 Hq).
  destruct err2 as [e|]; [by injection Hc as <- _|].
  destruct sourceFile as [data mode|es]; [|by injection Hc as <- _].
  destruct (change "write" (writeNode data) backup2 dstPath) as [backup3 err3] eqn:H3.
  rewrite <- (change_fileAt _ _ _ _ _ _ q (localChange_writeNode data) H3 Hq).
  destruct err3 as [e|]; [by injection Hc as <- _|].
  by eapply change_fileAt; [apply localChange_chmodNode|..].
Qed.

(** A copy that succeeds leaves the source file, with its mode, at the
    destination. *)
Lemma copyFile_ok src backup srcPath dstPath backup' :
  copyFile src backup srcPath dstPath = (backup', None) →
  ∃ data mode, resolve src srcPath = inr (File data mode) ∧
               nodeAt backup' (Filepath.elements dstPath) = Some (File data mode).
Proof.
  unfold copyFile. intros Hc.
  destruct (makeDstDir _ dstPath) as [backup1 err1] eqn:H1.
  destruct err1 as [e|]; [done|].
  destruct (resolve src srcPath) as [e|sourceFile]; [done|].
  destruct (Create _ dstPath) as [backup2 err2] eqn:H2.
  destruct err2 as [e|]; [done|].
  destruct sourceFile as [data mode|es']; [|done].
  exists data, mode. split; [done|].
  destruct (change "write" _ _ dstPath) as [backup3 err3] eqn:H3.
  destruct err3 as [e|]; [done|].
  apply change_ok, alterAt_nodeAt in H2.
  apply change_ok, alterAt_nodeAt in H3.
  apply change_ok, alterAt_nodeAt in Hc.
  destruct (nodeAt backup2 _) as [[d2 m2|es2]|]; simpl in H3; [|done..].
  injection H3 as H3. rewrite <- H3 in Hc. simpl in Hc. by injection Hc as <-.
Qed.

End Calls.

(** * The directories of the snapshot *)

Section Directories.

Import Filepath.

(** [filepath.Dir] is the path of the directory an entry is in. *)
Lemma Dir_fromElements q e :
  Forall (λ x, validName x = true) (q ++ [e]) →
  Dir (fromElements (q ++ [e])) = fromElements q.
Proof.
  intros [Hq [He _]%Forall_cons]%Forall_app. unfold Dir.
  pose proof (validName_spec e) as [Hspec _]. specialize (Hspec He) as (_ & _ & _ & Hsep).
  destruct q as [|x q].
  - simpl. by rewrite uptoLastSeparator_none.
  - change (fromElements ((x :: q) ++ [e])) with (GoStrings.Join ((x :: q) ++ [e]) "/").
    rewrite Join_snoc.
    rewrite uptoLastSeparator_app by done.
    assert (Hc : canonical (x :: q)) by by apply canonical_names.
    unfold Clean.
    assert (String.eqb (GoStrings.Join (x :: q) "/" +:+ String Separator "") "" = false) as ->.
    { apply String.eqb_neq. pose proof (Join_not_empty _ _ Hc).
      by destruct (GoStrings.Join (x :: q) "/"). }
    assert (isRooted (GoStrings.Join (x :: q) "/" +:+ String Separator "") = false) as Hr.
    { pose proof (isRooted_canonical _ _ Hc) as Hr. pose proof (Join_not_empty _ _ Hc).
      by destruct (GoStrings.Join (x :: q) "/"). }
    rewrite Hr. f_equal. unfold elements. rewrite Hr.
    rewrite Split_app. rewrite Split_Join; [|done|by apply canonical_pieces].
    rewrite cleanElems_app.
    rewrite (cleanElems_id [] (x :: q)); [|by rewrite (app_nil_r (rev (x :: q)))].
    change (rev [] ++ x :: q) with (x :: q).
    change (GoStrings.Split Separator "") with [""].
    cbn [cleanElems String.eqb orb]. apply rev_involutive.
Qed.

Lemma subpaths_File_or_Dir n l1 q l2 :
  subpaths n = l1 ++ (q, true) :: l2 → List.filter snd l1 = [] → l1 = [].
Proof.
  destruct l1 as [|[q0 b0] l1]; [done|]. intros Heq Hf.
  destruct n as [d m|es]; [by destruct l1|].
  rewrite subpaths_Dir in Heq. injection Heq as <- <- _. done.
Qed.

(** The directories of a well-formed tree, in the order of the walk:
    each is named by its elements, the first one and no other is the
    root, and each one but the root comes after the directory it is
    in. *)
Lemma dirsOf_lookup n i d :
  wfNode n → dirsOf n !! i = Some d →
  ∃ q, d = fromElements q ∧ Forall (λ e, validName e = true) q ∧
       (i = 0 ↔ q = []) ∧
       (∀ q' e, q = q' ++ [e] → ∃ j, j < i ∧ dirsOf n !! j = Some (fromElements q')).
Proof.
  intros Hwf Hi. pose proof (take_drop_middle _ _ _ Hi) as Hsplit.
  pose proof (lookup_lt_Some _ _ _ Hi) as Hlen.
  unfold dirsOf in Hsplit at 3. symmetry in Hsplit.
  apply fmap_app_inv in Hsplit as (k1 & k2' & Hk1 & Hk2 & Hf).
  symmetry in Hk2. apply fmap_cons_inv in Hk2 as ([q b] & k2 & Hd & _ & ->).
  simpl in Hd. subst d.
  apply filter_app_inv in Hf as (l1 & l2 & Hsub & Hl1 & _ & Hb).
  simpl in Hb. subst b. exists q. split; [done|].
  assert (Hin : (q, true) ∈ subpaths n) by (rewrite Hsub; set_solver).
  split; [by eapply subpaths_valid|].
  assert (Hlen1 : List.length k1 = i).
  { rewrite <- (length_fmap (λ v : list string * bool, fromElements v.1)), <- Hk1.
    rewrite length_take. lia. }
  split; [split|].
  - intros ->. destruct k1; [|done].
    pose proof Hsub as Hsub'.
    apply subpaths_File_or_Dir in Hsub' as ->; [|done].
    destruct (subpaths_head n) as (b & rest & Hhead). rewrite Hhead in Hsub.
    by injection Hsub as <- _.
  - intros ->. apply subpaths_root_first in Hsub as ->. simpl in Hl1. by subst k1.
  - intros q' e ->. pose proof (subpaths_afterParent n l1 q' e true l2 Hsub) as Hp.
    simpl in Hp.
    assert (Hin' : fromElements q' ∈ take i (dirsOf n)).
    { rewrite Hk1, <- Hl1. apply list_elem_of_fmap. exists (q', true). split; [done|].
      apply list_elem_of_In, filter_In. split; [by apply list_elem_of_In|done]. }
    apply list_elem_of_lookup in Hin' as [j Hj].
    apply lookup_take_Some in Hj as [Hj Hlt]. eauto.
Qed.

End Directories.

(** * What the calls keep of the backup *)

Section Keeps.

Lemma dirAt_None q : dirAt None q = false.
Proof. unfold dirAt. by rewrite walkTo_None. Qed.

Lemma dirAt_cons es e q : dirAt (Some (Dir es)) (e :: q) = dirAt (Os.getEntry e es) q.
Proof. done. Qed.

Lemma dirAt_fileAt t q : dirAt t q = true → fileAt t q = None.
Proof. unfold dirAt, fileAt. by destruct (Os.walkTo t q) as [|[|]]. Qed.

Lemma dirAt_walkTo t q : dirAt t q = true ↔ ∃ es, Os.walkTo t q = inr (Dir es).
Proof.
  unfold dirAt. destruct (Os.walkTo t q) as [|[|es]]; split; try done.
  - by intros [? ?].
  - by intros [? ?].
  - eauto.
Qed.

(** What [alterAt] does to the entries of the directory it goes
    through. *)
Lemma alterAt_cons f e p es t' :
  Os.alterAt f (e :: p) (Some (Dir es)) = inr t' →
  ∃ r es', Os.alterAt f p (Os.getEntry e es) = inr r ∧ t' = Some (Dir es') ∧
           ∀ e', Os.getEntry e' es' = if String.eqb e e' then r else Os.getEntry e' es.
Proof.
  simpl. destruct (Os.alterAt f p (Os.getEntry e es)) as [err|r] eqn:Hr; [done|].
  intros Ht'. exists r.
  destruct r as [c|]; injection Ht' as <-; eexists; (split; [done|]); (split; [done|]);
    intros e'.
  - apply getEntry_setEntry_if.
  - destruct (String.eqb e e') eqn:Hee.
    + apply String.eqb_eq in Hee as <-. apply getEntry_delEntry.
    + apply String.eqb_neq in Hee. by apply getEntry_delEntry_ne.
Qed.

(** A local change that keeps directories keeps every directory of the
    tree. *)
Lemma alterAt_dirAt f p t t' q :
  localChange f → keepsDir f →
  Os.alterAt f p t = inr t' → dirAt t q = true → dirAt t' q = true.
Proof.
  intros Hf Hd. revert t t' q. induction p as [|e p IH]; intros t t' q.
  - simpl. intros Hft Hq.
    destruct t as [[d m|es]|]; [by destruct q| |by rewrite dirAt_None in Hq].
    destruct (Hf _ _ Hft) as [->|[_ Ho]]; [done|].
    rewrite (Ho es eq_refl) in Hq, Hft. destruct q as [|e' q'].
    + by destruct (Hd _ _ Hft) as [es' ->].
    + rewrite dirAt_cons in Hq. simpl in Hq. by rewrite dirAt_None in Hq.
  - destruct t as [[d m|es]|]; [by destruct q| |by rewrite dirAt_None].
    intros (r & es' & Hr & -> & Hes')%alterAt_cons Hq.
    destruct q as [|e' q']; [done|].
    rewrite dirAt_cons, Hes'. rewrite dirAt_cons in Hq.
    destruct (String.eqb e e') eqn:Hee; [|done].
    apply String.eqb_eq in Hee as <-. by eapply IH.
Qed.

Lemma keepsDir_createNode : keepsDir Os.createNode.
Proof. by intros es o'. Qed.

Lemma keepsDir_writeNode data : keepsDir (Os.writeNode data).
Proof. by intros es o'. Qed.

Lemma keepsDir_chmodNode mode : keepsDir (Os.chmodNode mode).
Proof. intros es o'. simpl. intros [= <-]. eauto. Qed.

Lemma mkdirAllAt_dirAt p t n q :
  Os.mkdirAllAt p t = inr n → dirAt t q = true → dirAt (Some n) q = true.
Proof.
  revert t n q. induction p as [|e p IH]; intros t n q.
  - destruct t as [[d m|es]|]; simpl; [done| |]; intros [= <-]; [done|].
    by rewrite dirAt_None.
  - destruct t as [[d m|es]|]; cbn [Os.mkdirAllAt]; [done| |by rewrite dirAt_None].
    destruct (Os.mkdirAllAt p (Os.getEntry e es)) as [err|c] eqn:Hc; [done|].
    intros [= <-]. destruct q as [|e' q]; [done|].
    rewrite !dirAt_cons, getEntry_setEntry_if.
    destruct (String.eqb e e') eqn:Hee; [|done].
    apply String.eqb_eq in Hee as <-. by apply IH.
Qed.

Lemma change_dirAt op f t path t' err q :
  localChange f → keepsDir f →
  Os.change op f t path = (t', err) → dirAt t q = true → dirAt t' q = true.
Proof.
  intros Hf Hd Hc Hq. destruct err as [e|].
  - by rewrite (change_err _ _ _ _ _ _ Hc).
  - apply change_ok in Hc. by eapply alterAt_dirAt.
Qed.

Lemma makeDstDir_dirAt backup dstPath backup1 err q :
  makeDstDir backup dstPath = (backup1, err) → dirAt backup q = true → dirAt backup1 q = true.
Proof.
  unfold makeDstDir.
  destruct (Os.Stat _ _) as [i e]. destruct (Os.IsNotExist e); [|by intros [= <- _]].
  unfold Os.MkdirAll.
  destruct (Os.mkdirAllAt _ _) as [e'|n] eqn:Hm; intros [= <- _]; [done|].
  by eapply mkdirAllAt_dirAt.
Qed.

(** [copyFile] leaves the directories of the backup in place. *)
Lemma copyFile_dirAt src backup srcPath dstPath backup' err q :
  copyFile src backup srcPath dstPath = (backup', err) →
  dirAt backup q = true → dirAt backup' q = true.
Proof.
  unfold copyFile. intros Hc Hq.
  destruct (makeDstDir backup dstPath) as [backup1 err1] eqn:H1.
  pose proof (makeDstDir_dirAt _ _ _ _ q H1 Hq) as Hq1.
  destruct err1 as [e|]; [by injection Hc as <- _|].
  destruct (Os.resolve src srcPath) as [e|sourceFile]; [by injection Hc as <- _|].
  destruct (Os.Create backup1 dstPath) as [backup2 err2] eqn:H2.
  pose proof (change_dirAt _ _ _ _ _ _ q localChange_createNode keepsDir_createNode H2 Hq1) as Hq2.
  destruct err2 as [e|]; [by injection Hc as <- _|].
  destruct sourceFile as [data mode|es]; [|by injection Hc as <- _].
  destruct (Os.change "write" (Os.writeNode data) backup2 dstPath) as [backup3 err3] eqn:H3.
  pose proof (change_dirAt _ _ _ _ _ _ q (localChange_writeNode data)
                (keepsDir_writeNode data) H3 Hq2) as Hq3.
  destruct err3 as [e|]; [by injection Hc as <- _|].
  by eapply change_dirAt; [apply localChange_chmodNode|apply keepsDir_chmodNode|..].
Qed.

(** A copy that succeeds did not find a directory at its destination. *)
Lemma copyFile_ok_not_dir src backup srcPath dstPath backup' :
  copyFile src backup srcPath dstPath = (backup', None) →
  dirAt backup (Filepath.elements dstPath) = false.
Proof.
  unfold copyFile. intros Hc.
  destruct (makeDstDir backup dstPath) as [backup1 err1] eqn:H1.
  destruct (dirAt backup (Filepath.elements dstPath)) eqn:Hq; [|done].
  pose proof (makeDstDir_dirAt _ _ _ _ _ H1 Hq) as Hq1.
  destruct err1 as [e|]; [done|].
  destruct (Os.resolve src srcPath) as [e|sourceFile]; [done|].
  destruct (Os.Create backup1 dstPath) as [backup2 err2] eqn:H2.
  destruct err2 as [e|]; [|].
  - by destruct sourceFile.
  - apply change_ok, alterAt_nodeAt in H2.
    unfold dirAt in Hq1. unfold nodeAt in H2.
    by destruct (Os.walkTo backup1 _) as [|[|]].
Qed.

(** A change of a file into a file leaves a file where there is
    one. *)
Lemma change_keeps_file op f t path t' err q d m :
  localChange f →
  (∀ d m o', f (Some (File d m)) = inr o' → ∃ d' m', o' = Some (File d' m')) →
  Os.change op f t path = (t', err) →
  fileAt t q = Some (d, m) → ∃ d' m', fileAt t' q = Some (d', m').
Proof.
  intros Hl Hf Hc Hq. destruct (decide (q = Filepath.elements path)) as [->|Hne].
  - destruct err as [e|]; [rewrite (change_err _ _ _ _ _ _ Hc); eauto|].
    apply change_ok, alterAt_nodeAt in Hc.
    apply fileAt_nodeAt in Hq. rewrite Hq in Hc.
    destruct (Hf _ _ _ Hc) as (d' & m' & Heq). exists d', m'.
    apply fileAt_nodeAt. congruence.
  - rewrite (change_fileAt _ _ _ _ _ _ q Hl Hc Hne). eauto.
Qed.

(** [copyFile] leaves a file where the backup has one. *)
Lemma copyFile_keeps_file src backup srcPath dstPath backup' err q d m :
  copyFile src backup srcPath dstPath = (backup', err) →
  fileAt backup q = Some (d, m) → ∃ d' m', fileAt backup' q = Some (d', m').
Proof.
  unfold copyFile. intros Hc Hq.
  destruct (makeDstDir backup dstPath) as [backup1 err1] eqn:H1.
  rewrite <- (makeDstDir_fileAt _ _ _ _ q H1) in Hq.
  destruct err1 as [e|]; [injection Hc as <- _; eauto|].
  destruct (Os.resolve src srcPath) as [e|sourceFile]; [injection Hc as <- _; eauto|].
  destruct (Os.Create backup1 dstPath) as [backup2 err2] eqn:H2.
  eapply (change_keeps_file _ _ _ _ _ _ q) in H2 as (d2 & m2 & Hq2);
    [|apply localChange_createNode|simpl; intros ??? [= <-]; eauto|done].
  destruct err2 as [e|]; [injection Hc as <- _; eauto|].
  destruct sourceFile as [data mode|es]; [|injection Hc as <- _; eauto].
  destruct (Os.change "write" (Os.writeNode data) backup2 dstPath) as [backup3 err3] eqn:H3.
  eapply (change_keeps_file _ _ _ _ _ _ q) in H3 as (d3 & m3 & Hq3);
    [|apply localChange_writeNode|simpl; intros ??? [= <-]; eauto|done].
  destruct err3 as [e|]; [injection Hc as <- _; eauto|].
  eapply (change_keeps_file _ _ _ _ _ _ q) in Hc as (d4 & m4 & Hq4);
    [eauto|apply localChange_chmodNode|simpl; intros ??? [= <-]; eauto|done].
Qed.

(** ** Well-formed trees *)

Lemma walkTo_names t q n :
  wfFs t → Os.walkTo t q = inr n → Forall (λ e, validName e = true) q.
Proof.
  revert t. induction q as [|e q IH]; intros t Hwf; simpl; [constructor|].
  destruct t as [[d m|es]|]; [done| |done].
  intros Hq. destruct (Os.getEntry e es) as [c|] eqn:Hg; [|by rewrite walkTo_None in Hq].
  pose proof Hwf as [_ Hall]%wfNode_Dir. rewrite Forall_forall in Hall.
  destruct (Hall _ (getEntry_Some _ _ _ Hg)) as [He Hc].
  constructor; [done|]. eapply (IH (Some c)); done.
Qed.

Lemma fileAt_names t q d m :
  wfFs t → fileAt t q = Some (d, m) → Forall (λ e, validName e = true) q.
Proof. intros Hwf Hf%fileAt_walkTo. by eapply walkTo_names. Qed.

Lemma makeDstDir_wf backup E backup1 err :
  Forall (λ e, validName e = true) E → wfFs backup →
  makeDstDir backup (Filepath.absPath E) = (backup1, err) → wfFs backup1.
Proof.
  unfold makeDstDir. intros HE Hwf. rewrite Dir_absPath_removelast by done.
  destruct (Os.Stat _ _) as [i e]. destruct (Os.IsNotExist e); [|by intros [= <- _]].
  apply MkdirAll_wf; [done|].
  rewrite elements_absPath; by apply removelast_valid.
Qed.

(** [copyFile] to an absolute path keeps the backup well formed. *)
Lemma copyFile_wf src backup srcPath E backup' err :
  Forall (λ e, validName e = true) E → wfFs backup →
  copyFile src backup srcPath (Filepath.absPath E) = (backup', err) → wfFs backup'.
Proof.
  unfold copyFile. intros HE Hwf Hc.
  assert (HE' : Forall (λ e, validName e = true) (Filepath.elements (Filepath.absPath E)))
    by by rewrite elements_absPath.
  destruct (makeDstDir backup _) as [backup1 err1] eqn:H1.
  pose proof (makeDstDir_wf _ _ _ _ HE Hwf H1) as Hwf1.
  destruct err1 as [e|]; [by injection Hc as <- _|].
  destruct (Os.resolve src srcPath) as [e|sourceFile]; [by injection Hc as <- _|].
  destruct (Os.Create backup1 _) as [backup2 err2] eqn:H2.
  pose proof (change_wf _ _ _ _ _ _ keepsWf_createNode HE' Hwf1 H2) as Hwf2.
  destruct err2 as [e|]; [by injection Hc as <- _|].
  destruct sourceFile as [data mode|es]; [|by injection Hc as <- _].
  destruct (Os.change "write" (Os.writeNode data) backup2 _) as [backup3 err3] eqn:H3.
  pose proof (change_wf _ _ _ _ _ _ (keepsWf_writeNode data) HE' Hwf2 H3) as Hwf3.
  destruct err3 as [e|]; [by injection Hc as <- _|].
  by eapply change_wf; [apply keepsWf_chmodNode|..].
Qed.

(** ** [os.Remove] *)

(** [os.Remove] of a file that is there succeeds. *)
Lemma alterAt_removeNode_file q t d m :
  fileAt t q = Some (d, m) → ∃ t', Os.alterAt Os.removeNode q t = inr t'.
Proof.
  revert t. induction q as [|e q IH]; intros t.
  - destruct t as [[d' m'|es]|]; [|done..]. simpl. eauto.
  - destruct t as [[d' m'|es]|]; [done| |done].
    rewrite fileAt_cons. intros [r Hr]%IH. simpl. rewrite Hr. destruct r; eauto.
Qed.

Lemma Remove_file t path d m :
  fileAt t (Filepath.elements path) = Some (d, m) →
  ∃ t', Os.Remove t path = (t', None).
Proof.
  intros [t' Hf]%alterAt_removeNode_file. exists t'.
  unfold Os.Remove, Os.change. by rewrite Hf.
Qed.

Lemma Remove_ok_absent t path t' :
  Os.Remove t path = (t', None) → fileAt t' (Filepath.elements path) = None.
Proof.
  intros H%change_ok%alterAt_nodeAt.
  destruct (fileAt t' _) as [[d m]|] eqn:Hf; [|done].
  apply fileAt_nodeAt in Hf. rewrite Hf in H.
  by destruct (nodeAt t _) as [[?|[|??]]|].
Qed.

Lemma Remove_keeps_absent t path t' err q :
  fileAt t q = None → Os.Remove t path = (t', err) → fileAt t' q = None.
Proof.
  intros Hq Hr. destruct (decide (q = Filepath.elements path)) as [->|Hne].
  - destruct err as [e|]; [by rewrite (change_err _ _ _ _ _ _ Hr)|].
    by eapply Remove_ok_absent.
  - by rewrite (change_fileAt _ _ _ _ _ _ q localChange_removeNode Hr).
Qed.

Lemma Remove_frame t path t' err q :
  q ≠ Filepath.elements path →
  Os.Remove t path = (t', err) → fileAt t' q = fileAt t q.
Proof. intros Hq Hr. by apply (change_fileAt _ _ _ _ _ _ q localChange_removeNode Hr). Qed.

(** [os.Remove] of anything else leaves a directory in place: what it
    is in is not empty. *)
Lemma alterAt_removeNode_dirAt p t t' q :
  Os.alterAt Os.removeNode p t = inr t' → p ≠ q →
  dirAt t q = true → dirAt t' q = true.
Proof.
  revert t t' q. induction p as [|e p IH]; intros t t' q.
  - simpl. intros Hr Hne Hq. destruct q as [|e' q']; [done|].
    destruct t as [[d m|[|[n c] es]]|]; try done.
    rewrite dirAt_cons in Hq. simpl in Hq. by rewrite dirAt_None in Hq.
  - destruct t as [[d m|es]|]; [by destruct q| |by rewrite dirAt_None].
    intros (r & es' & Hr & -> & Hes')%alterAt_cons Hne Hq.
    destruct q as [|e' q']; [done|].
    rewrite dirAt_cons, Hes'. rewrite dirAt_cons in Hq.
    destruct (String.eqb e e') eqn:Hee; [|done].
    apply String.eqb_eq in Hee as <-. eapply IH; [done| |done]. congruence.
Qed.

Lemma Remove_dirAt t path t' err q :
  Filepath.elements path ≠ q →
  Os.Remove t path = (t', err) → dirAt t q = true → dirAt t' q = true.
Proof.
  intros Hne Hr Hq. destruct err as [e|].
  - by rewrite (change_err _ _ _ _ _ _ Hr).
  - apply change_ok in Hr. by eapply alterAt_removeNode_dirAt.
Qed.

(** [os.Remove] of a file leaves every directory in place. *)
Lemma Remove_file_dirAt t path t' err d m q :
  fileAt t (Filepath.elements path) = Some (d, m) →
  Os.Remove t path = (t', err) → dirAt t' q = dirAt t q.
Proof.
  intros Hf Hr. destruct err as [e|]; [by rewrite (change_err _ _ _ _ _ _ Hr)|].
  apply change_ok in Hr. revert Hf Hr. generalize (Filepath.elements path) as p.
  intros p. revert t t' q. induction p as [|e p IH]; intros t t' q.
  - destruct t as [[d' m'|es]|]; [|done..]. simpl. intros _ [= <-].
    rewrite dirAt_None. by destruct q.
  - destruct t as [[d' m'|es]|]; [done| |done].
    rewrite fileAt_cons. intros Hf (r & es' & Hr & -> & Hes')%alterAt_cons.
    destruct q as [|e' q']; [done|].
    rewrite !dirAt_cons, Hes'.
    destruct (String.eqb e e') eqn:Hee; [|done].
    apply String.eqb_eq in Hee as <-. by eapply IH.
Qed.

End Keeps.

(** * The three loops *)

(** ** The first loop, one file at a time *)

Lemma copyOne_missing flags w p files backup :
  sourceExists flags w p = false → copyOne flags w p files backup = (files, backup, []).
Proof.
  unfold sourceExists, copyOne. intros H%negb_false_iff.
  destruct (Os.Stat _ _) as [i err]. simpl in H. by rewrite H.
Qed.

Lemma copyOne_backedUp flags w p files backup :
  sourceExists flags w p = true → p ∈ files →
  copyOne flags w p files backup =
  if Nat.eqb (String.length (diffOutput flags w p backup).1) 0
  then (files ∖ {[p]}, backup, [Diff p (diffOutput flags w p backup)])
  else (files ∖ {[p]}, (copyOrSay flags w p backup).1,
        Diff p (diffOutput flags w p backup) :: (copyOrSay flags w p backup).2).
Proof.
  unfold sourceExists, copyOne. intros H%negb_true_iff Hin.
  destruct (Os.Stat _ _) as [i err]. simpl in H. rewrite H.
  rewrite decide_True by done.
  destruct (Nat.eqb _ 0); [done|]. by destruct (copyOrSay flags w p backup).
Qed.

Lemma copyOne_new flags w p files backup :
  sourceExists flags w p = true → p ∉ files →
  copyOne flags w p files backup =
  (files, (copyOrSay flags w p backup).1, (copyOrSay flags w p backup).2).
Proof.
  unfold sourceExists, copyOne. intros H%negb_true_iff Hin.
  destruct (Os.Stat _ _) as [i err]. simpl in H. rewrite H.
  rewrite decide_False by done. by destruct (copyOrSay flags w p backup).
Qed.

Lemma length_zero s : Nat.eqb (String.length s) 0 = true ↔ s = "".
Proof. destruct s; simpl; split; done. Qed.

(** The test of the first loop skips a file only when [os.Stat] fails
    with [ENOENT]. *)
Lemma sourceExists_false flags w p :
  sourceExists flags w p = false ↔
  Os.resolve (projects w) (Filepath.Join (projectsPath flags) p) = inl ENOENT.
Proof.
  unfold sourceExists, Os.Stat.
  destruct (Os.resolve _ _) as [[]|n]; simpl; split; done.
Qed.

Section Loops.

Variable flags : Flags.
Variable w : World.

(** ** The set of backed-up files *)

(** The set the first loop leaves: the backed-up files that are not a
    file of the projects found on disk. *)
Lemma copyOne_left p files backup :
  (copyOne flags w p files backup).1.1
  = if sourceExists flags w p then files ∖ {[p]} else files.
Proof.
  destruct (sourceExists flags w p) eqn:Hs.
  - destruct (decide (p ∈ files)) as [Hin|Hin].
    + rewrite copyOne_backedUp by done. by destruct (Nat.eqb _ 0).
    + rewrite copyOne_new by done. simpl. set_solver.
  - by rewrite copyOne_missing.
Qed.

Lemma copyPass_left files backedUp backup :
  (copyPass flags w files backedUp backup).1.1
  = backedUp ∖ list_to_set (List.filter (sourceExists flags w) files).
Proof.
  revert backedUp backup. induction files as [|p files IH]; intros backedUp backup.
  - simpl. set_solver.
  - cbn [copyPass]. pose proof (copyOne_left p backedUp backup) as H1.
    destruct (copyOne flags w p backedUp backup) as [[backedUp1 backup1] evs1].
    specialize (IH backedUp1 backup1).
    destruct (copyPass flags w files backedUp1 backup1) as [[backedUp2 backup2] evs2].
    simpl in *. subst. destruct (sourceExists flags w p); simpl; set_solver.
Qed.

Lemma elem_of_copyPass_left files backedUp backup p :
  p ∈ (copyPass flags w files backedUp backup).1.1 ↔
  p ∈ backedUp ∧ ¬ (p ∈ files ∧ sourceExists flags w p = true).
Proof.
  rewrite copyPass_left, elem_of_difference, elem_of_list_to_set.
  rewrite list_elem_of_In, filter_In, <- list_elem_of_In. done.
Qed.

(** ** Where the backup of a file is *)

Variable B : list string.
Hypothesis HB : absolute (backupPath flags) B.

Lemma Join_backupPath p :
  Filepath.Join (backupPath flags) p = Filepath.absPath (backupAt flags p).
Proof using HB.
  destruct HB as [HBv HBp]. unfold backupAt. rewrite HBp.
  rewrite Join_absPath by done. rewrite elements_absPath; [done|].
  apply cleanElems_rooted; [by apply Forall_rev|apply Split_pieces].
Qed.

Lemma backupAt_valid p : Forall (λ e, validName e = true) (backupAt flags p).
Proof using HB.
  destruct HB as [HBv HBp]. unfold backupAt. rewrite HBp. by apply elements_Join_valid.
Qed.

Lemma backupAt_inside p : inside p = true → backupAt flags p = B ++ relElements p.
Proof using HB.
  destruct HB as [HBv HBp]. unfold backupAt. rewrite HBp. by apply elements_Join_inside.
Qed.

Lemma backupAt_fromElements q :
  Forall (λ e, validName e = true) q → backupAt flags (Filepath.fromElements q) = B ++ q.
Proof using HB.
  intros Hq. rewrite backupAt_inside by by apply inside_fromElements.
  by rewrite relElements_fromElements by by apply canonical_names.
Qed.

Lemma backupAt_inj p p' :
  inside p = true → inside p' = true → backupAt flags p = backupAt flags p' → p = p'.
Proof using HB.
  intros Hp Hp'. rewrite !backupAt_inside by done. intros Heq%app_inv_head.
  by apply inside_inj.
Qed.

(** ** The first loop *)

Lemma copyOrSay_frame c backup q :
  q ≠ backupAt flags c → fileAt (copyOrSay flags w c backup).1 q = fileAt backup q.
Proof.
  intros Hq. unfold copyOrSay. destruct (dryRun flags); [done|].
  destruct (copyFile _ _ _ _) as [backup' err] eqn:Hc. simpl.
  by apply (copyFile_fileAt _ _ _ _ _ _ q Hc).
Qed.

Lemma copyOrSay_dirAt c backup q :
  dirAt backup q = true → dirAt (copyOrSay flags w c backup).1 q = true.
Proof.
  unfold copyOrSay. destruct (dryRun flags); [done|].
  destruct (copyFile _ _ _ _) as [backup' err] eqn:Hc. simpl.
  by eapply copyFile_dirAt.
Qed.

Lemma copyOrSay_wf c backup : wfFs backup → wfFs (copyOrSay flags w c backup).1.
Proof using HB.
  unfold copyOrSay. destruct (dryRun flags); [done|]. rewrite Join_backupPath.
  destruct (copyFile _ _ _ _) as [backup' err] eqn:Hc. simpl.
  intros Hwf. eapply copyFile_wf; [apply backupAt_valid|done..].
Qed.

Lemma copyOrSay_keeps_file c backup q d m :
  fileAt backup q = Some (d, m) →
  ∃ d' m', fileAt (copyOrSay flags w c backup).1 q = Some (d', m').
Proof.
  unfold copyOrSay. destruct (dryRun flags); [eauto|].
  destruct (copyFile _ _ _ _) as [backup' err] eqn:Hc. simpl.
  by eapply copyFile_keeps_file.
Qed.

(** What holds of the backup after a turn of the first loop, from what
    [copyOrSay] keeps. *)
Lemma copyOne_keeps (P : fs → Prop) c files backup :
  P backup → (P backup → P (copyOrSay flags w c backup).1) →
  P (copyOne flags w c files backup).1.2.
Proof.
  intros HP Hkeep. destruct (sourceExists flags w c) eqn:Hs.
  - destruct (decide (c ∈ files)) as [Hin|Hin].
    + rewrite copyOne_backedUp by done. destruct (Nat.eqb _ 0); [done|]. by apply Hkeep.
    + rewrite copyOne_new by done. by apply Hkeep.
  - by rewrite copyOne_missing.
Qed.

Lemma copyPass_keeps (P : fs → Prop) files backedUp backup :
  (∀ c backup, P backup → P (copyOrSay flags w c backup).1) →
  P backup → P (copyPass flags w files backedUp backup).1.2.
Proof.
  intros Hkeep. revert backedUp backup.
  induction files as [|c files IH]; intros backedUp backup HP; [done|].
  cbn [copyPass].
  pose proof (copyOne_keeps P c backedUp backup HP (Hkeep c backup)) as H1.
  destruct (copyOne flags w c backedUp backup) as [[backedUp1 backup1] evs1].
  specialize (IH backedUp1 backup1 H1).
  by destruct (copyPass flags w files backedUp1 backup1) as [[backedUp2 backup2] evs2].
Qed.

Lemma copyOne_frame c files backup q :
  q ≠ backupAt flags c → fileAt (copyOne flags w c files backup).1.2 q = fileAt backup q.
Proof.
  intros Hq. apply (copyOne_keeps (λ b, fileAt b q = fileAt backup q)); [done|].
  intros _. by apply copyOrSay_frame.
Qed.

Lemma copyOne_unchanged c files backup :
  sourceExists flags w c = false → (copyOne flags w c files backup).1.2 = backup.
Proof. intros Hs. by rewrite copyOne_missing. Qed.

(** The first loop changes files only where it copies to. *)
Lemma copyPass_frame files backedUp backup q :
  (∀ c, c ∈ files → sourceExists flags w c = true → q ≠ backupAt flags c) →
  fileAt (copyPass flags w files backedUp backup).1.2 q = fileAt backup q.
Proof.
  revert backedUp backup. induction files as [|c files IH]; intros backedUp backup Hq; [done|].
  cbn [copyPass].
  assert (H1 : fileAt (copyOne flags w c backedUp backup).1.2 q = fileAt backup q).
  { destruct (sourceExists flags w c) eqn:Hs.
    - apply copyOne_frame, Hq; [by left|done].
    - by rewrite copyOne_unchanged. }
  destruct (copyOne flags w c backedUp backup) as [[backedUp1 backup1] evs1].
  specialize (IH backedUp1 backup1).
  destruct (copyPass flags w files backedUp1 backup1) as [[backedUp2 backup2] evs2].
  simpl in *. rewrite IH; [done|]. intros c' Hc'. apply Hq. by right.
Qed.

Lemma copyPass_dirAt files backedUp backup q :
  dirAt backup q = true → dirAt (copyPass flags w files backedUp backup).1.2 q = true.
Proof.
  apply (copyPass_keeps (λ b, dirAt b q = true)). intros c b. apply copyOrSay_dirAt.
Qed.

Lemma copyPass_wf files backedUp backup :
  wfFs backup → wfFs (copyPass flags w files backedUp backup).1.2.
Proof using HB. apply (copyPass_keeps wfFs). intros c b. apply copyOrSay_wf. Qed.

Lemma copyPass_keeps_file files backedUp backup q :
  (∃ d m, fileAt backup q = Some (d, m)) →
  ∃ d m, fileAt (copyPass flags w files backedUp backup).1.2 q = Some (d, m).
Proof.
  apply (copyPass_keeps (λ b, ∃ d m, fileAt b q = Some (d, m))).
  intros c b (d & m & Hf). by eapply copyOrSay_keeps_file.
Qed.

(** The backed-up files the first loop leaves in the set are still
    files of the backup. *)
Lemma copyPass_keptFiles files backedUp backup :
  keptFiles flags backedUp backup →
  keptFiles flags (copyPass flags w files backedUp backup).1.1
    (copyPass flags w files backedUp backup).1.2.
Proof.
  intros Hk p [Hp _]%elem_of_copyPass_left. destruct (Hk p Hp) as [Hin Hf].
  split; [done|]. by apply copyPass_keeps_file.
Qed.

(** ** The second loop *)

Lemma deleteOne_keeps (P : fs → Prop) p backup :
  P backup →
  (∀ backup' err,
     Os.Remove backup (Filepath.Join (backupPath flags) p) = (backup', err) → P backup') →
  P (deleteOne flags p backup).1.
Proof.
  intros HP Hkeep. unfold deleteOne. destruct (dryRun flags); [done|].
  destruct (Os.Remove _ _) as [backup' err] eqn:Hr. simpl. by eapply Hkeep.
Qed.

Lemma deletePass_keeps (P : fs → Prop) order backup :
  (∀ p backup backup' err, p ∈ order → P backup →
     Os.Remove backup (Filepath.Join (backupPath flags) p) = (backup', err) → P backup') →
  P backup → P (deletePass flags order backup).1.
Proof.
  revert backup. induction order as [|p order IH]; intros backup Hkeep HP; [done|].
  cbn [deletePass].
  pose proof (deleteOne_keeps P p backup HP) as H1.
  destruct (deleteOne flags p backup) as [backup1 evs1].
  specialize (IH backup1). destruct (deletePass flags order backup1) as [backup2 evs2].
  simpl in *. apply IH.
  - intros p' b b' err Hp'. apply Hkeep. by right.
  - apply H1. intros b' err. apply Hkeep; [by left|done].
Qed.

Lemma Remove_wf t p t' err :
  wfFs t → Os.Remove t (Filepath.Join (backupPath flags) p) = (t', err) → wfFs t'.
Proof using HB.
  intros Hwf. apply change_wf; [apply keepsWf_removeNode| |done].
  rewrite Join_backupPath, elements_absPath; apply backupAt_valid.
Qed.

Lemma deletePass_wf order backup :
  wfFs backup → wfFs (deletePass flags order backup).1.
Proof using HB.
  apply (deletePass_keeps wfFs). intros p b b' err _ Hwf. by apply Remove_wf.
Qed.

Lemma deletePass_frame order backup q :
  (∀ p, p ∈ order → q ≠ backupAt flags p) →
  fileAt (deletePass flags order backup).1 q = fileAt backup q.
Proof.
  intros Hq. apply (deletePass_keeps (λ b, fileAt b q = fileAt backup q)); [|done].
  intros p b b' err Hp <- Hr. eapply Remove_frame; [|done]. by apply Hq.
Qed.

Lemma deletePass_keeps_absent order backup q :
  fileAt backup q = None → fileAt (deletePass flags order backup).1 q = None.
Proof.
  apply (deletePass_keeps (λ b, fileAt b q = None)).
  intros p b b' err _ Hq Hr. by eapply Remove_keeps_absent.
Qed.

Lemma deletePass_dirAt order backup q :
  (∀ p, p ∈ order → backupAt flags p ≠ q) →
  dirAt backup q = true → dirAt (deletePass flags order backup).1 q = true.
Proof.
  intros Hq. apply (deletePass_keeps (λ b, dirAt b q = true)).
  intros p b b' err Hp Hd Hr. eapply Remove_dirAt; [|done..]. by apply Hq.
Qed.

(** ** The third loop *)

Lemma pruneLoop_keeps (P : fs → Prop) (dirs : list string) (i : nat) backup :
  (∀ (j : nat) backup backup' err, (0 < j ≤ i)%nat → P backup →
     Os.Remove backup (Filepath.Join (backupPath flags) (default "" (dirs !! j)))
     = (backup', err) → P backup') →
  P backup → P (pruneLoop flags dirs i backup).1.
Proof.
  revert backup. induction i as [|i IH]; intros backup Hkeep HP; [done|].
  cbn [pruneLoop]. unfold pruneOne.
  destruct (Os.Remove _ _) as [backup1 err] eqn:Hr.
  specialize (IH backup1). destruct (pruneLoop flags dirs i backup1) as [backup2 evs2].
  simpl in *. apply IH.
  - intros j b b' err' Hj. apply Hkeep. lia.
  - eapply (Hkeep (S i)); [lia|done..].
Qed.

Lemma pruneLoop_wf dirs i backup : wfFs backup → wfFs (pruneLoop flags dirs i backup).1.
Proof using HB.
  apply (pruneLoop_keeps wfFs). intros j b b' err _ Hwf. by apply Remove_wf.
Qed.

Lemma pruneLoop_keeps_absent dirs i backup q :
  fileAt backup q = None → fileAt (pruneLoop flags dirs i backup).1 q = None.
Proof.
  apply (pruneLoop_keeps (λ b, fileAt b q = None)).
  intros j b b' err _ Hq Hr. by eapply Remove_keeps_absent.
Qed.

Lemma pruneLoop_frame (dirs : list string) (i : nat) backup q :
  (i < List.length dirs)%nat →
  (∀ d, d ∈ dirs → q ≠ backupAt flags d) →
  fileAt (pruneLoop flags dirs i backup).1 q = fileAt backup q.
Proof.
  intros Hi Hq. apply (pruneLoop_keeps (λ b, fileAt b q = fileAt backup q)); [|done].
  intros j b b' err Hj <- Hr. eapply Remove_frame; [|done].
  destruct (lookup_lt_is_Some_2 dirs j) as [d Hd]; [lia|]. rewrite Hd. simpl.
  apply Hq. by eapply list_elem_of_lookup_2.
Qed.

Lemma pruneLoop_dirAt (dirs : list string) (i : nat) backup q :
  (∀ j : nat, (0 < j ≤ i)%nat → backupAt flags (default "" (dirs !! j)) ≠ q) →
  dirAt backup q = true → dirAt (pruneLoop flags dirs i backup).1 q = true.
Proof.
  intros Hq. apply (pruneLoop_keeps (λ b, dirAt b q = true)).
  intros j b b' err Hj Hd Hr. eapply Remove_dirAt; [|done..]. by apply Hq.
Qed.

(** The third loop calls [os.Remove] on the directories from the last
    one down to the second one. *)
Lemma pruneLoop_pruned (dirs : list string) (i : nat) backup :
  (i ≤ List.length dirs - 1)%nat →
  omap pruned (pruneLoop flags dirs i backup).2 = rev (take i (drop 1 dirs)).
Proof.
  revert backup. induction i as [|i IH]; intros backup Hi; [done|].
  cbn [pruneLoop]. unfold pruneOne.
  destruct (Os.Remove _ _) as [backup1 err].
  specialize (IH backup1). destruct (pruneLoop flags dirs i backup1) as [backup2 evs2].
  simpl in *. rewrite omap_app, IH by lia.
  destruct (lookup_lt_is_Some_2 dirs (S i)) as [d Hd]; [lia|].
  rewrite Hd. simpl.
  assert (drop 1 dirs !! i = Some d) as Hd' by by rewrite lookup_drop.
  rewrite (take_S_r _ _ _ Hd'), rev_app_distr. simpl.
  destruct err as [[? ? []| | |]|]; done.
Qed.

Lemma prunePass_pruned dirs backup :
  omap pruned (prunePass flags dirs backup).2
  = if dryRun flags then [] else rev (drop 1 dirs).
Proof.
  unfold prunePass. destruct (dryRun flags); [done|]. simpl.
  rewrite pruneLoop_pruned by done. f_equal. apply take_ge.
  rewrite length_drop. lia.
Qed.

Lemma did_pruneLoop dirs i backup : omap did (pruneLoop flags dirs i backup).2 = [].
Proof.
  revert backup. induction i as [|i IH]; intros backup; [done|].
  cbn [pruneLoop]. unfold pruneOne. destruct (Os.Remove _ _) as [backup1 err].
  specialize (IH backup1). destruct (pruneLoop flags dirs i backup1) as [backup2 evs2].
  simpl in *. rewrite omap_app, IH. by destruct err as [[? ? []| | |]|].
Qed.

Lemma did_prunePass dirs backup : omap did (prunePass flags dirs backup).2 = [].
Proof. unfold prunePass. destruct (dryRun flags); simpl; [done|apply did_pruneLoop]. Qed.

Lemma prunePass_wf dirs backup : wfFs backup → wfFs (prunePass flags dirs backup).1.
Proof using HB.
  unfold prunePass. destruct (dryRun flags); simpl; [done|apply pruneLoop_wf].
Qed.

Lemma prunePass_keeps_absent dirs backup q :
  fileAt backup q = None → fileAt (prunePass flags dirs backup).1 q = None.
Proof.
  unfold prunePass. destruct (dryRun flags); simpl; [done|apply pruneLoop_keeps_absent].
Qed.

Lemma prunePass_frame (dirs : list string) backup q :
  (∀ d, d ∈ dirs → q ≠ backupAt flags d) →
  fileAt (prunePass flags dirs backup).1 q = fileAt backup q.
Proof.
  intros Hq. unfold prunePass. destruct (dryRun flags); simpl; [done|].
  destruct dirs as [|d dirs]; [done|].
  apply pruneLoop_frame; [simpl; lia|done].
Qed.

(** ** A run *)

Lemma main_Ok backup backup' evs :
  main flags w backup = Ok (backup', evs) →
  ∃ dirs backedUp files evs',
    lookPathGit w = None ∧
    snapshot flags backup = Ok (dirs, backedUp) ∧
    projectFiles flags w = Ok files ∧
    reconcile flags w files dirs backedUp backup = (backup', evs') ∧
    evs = header flags ++ evs'.
Proof.
  unfold main. destruct (lookPathGit w); [done|]. simpl.
  destruct (snapshot flags backup) as [[dirs backedUp]|]; [|done]. simpl.
  destruct (projectFiles flags w) as [files|]; [|done]. simpl.
  destruct (reconcile _ _ _ _ _ _) as [b evs'] eqn:Hr.
  intros [= <- <-]. by eexists _, _, _, _.
Qed.

Lemma main_run backup dirs backedUp files :
  lookPathGit w = None →
  snapshot flags backup = Ok (dirs, backedUp) →
  projectFiles flags w = Ok files →
  main flags w backup
  = Ok ((reconcile flags w files dirs backedUp backup).1,
        header flags ++ (reconcile flags w files dirs backedUp backup).2).
Proof.
  intros Hgit Hsnap Hfiles. unfold main. rewrite Hgit, Hsnap, Hfiles. simpl.
  by destruct (reconcile _ _ _ _ _ _).
Qed.

(** ** The snapshot *)

Lemma fileAt_under t n q :
  Os.walkTo t B = inr n → fileAt t (B ++ q) = fileAt (Some n) q.
Proof. intros Hn. unfold fileAt. by rewrite (walkTo_app _ _ _ _ Hn). Qed.

Lemma dirAt_under t n q :
  Os.walkTo t B = inr n → dirAt t (B ++ q) = dirAt (Some n) q.
Proof. intros Hn. unfold dirAt. by rewrite (walkTo_app _ _ _ _ Hn). Qed.

(** A snapshot that does not panic found something at the path of the
    backup directory, and is the snapshot of what is there. *)
Lemma snapshot_Ok backup dirs backedUp :
  wfFs backup → snapshot flags backup = Ok (dirs, backedUp) →
  ∃ n, Os.walkTo backup B = inr n ∧ wfNode n ∧
       dirs = dirsOf n ∧ backedUp = list_to_set (filesOf n).
Proof using HB.
  intros Hwf Hsnap. destruct (Os.walkTo backup B) as [e|n] eqn:Hn.
  - by rewrite (snapshot_Panic flags B backup e) in Hsnap.
  - assert (Hwfn : wfNode n) by by eapply walkTo_wf.
    rewrite (snapshot_wf flags B backup n) in Hsnap by done.
    injection Hsnap as <- <-. by exists n.
Qed.

(** The backed-up files of the snapshot are the files under the backup
    directory, each named by its clean path from there. *)
Lemma elem_of_snapshot backup dirs backedUp p :
  wfFs backup → snapshot flags backup = Ok (dirs, backedUp) →
  p ∈ backedUp ↔
  ∃ q d m, p = Filepath.fromElements q ∧ Forall (λ e, validName e = true) q ∧
           fileAt backup (B ++ q) = Some (d, m).
Proof using HB.
  intros Hwf (n & Hn & Hwfn & _ & ->)%snapshot_Ok; [|done].
  rewrite elem_of_list_to_set, elem_of_filesOf by done.
  by setoid_rewrite (fileAt_under _ _ _ Hn).
Qed.

Lemma snapshot_untouched backup dirs backedUp :
  wfFs backup → snapshot flags backup = Ok (dirs, backedUp) →
  untouched flags backup backedUp backup.
Proof using HB.
  intros Hwf Hsnap p (q & d & m & -> & Hq & Hf)%(elem_of_snapshot backup dirs); [|done..].
  split; [by apply inside_fromElements|].
  exists d, m. by rewrite backupAt_fromElements.
Qed.

Lemma untouched_keptFiles backup0 files backup :
  untouched flags backup0 files backup → keptFiles flags files backup.
Proof. intros Hu p Hp. destruct (Hu p Hp) as (Hin & d & m & _ & Hf). eauto. Qed.

Lemma snapshot_keptFiles backup dirs backedUp :
  wfFs backup → snapshot flags backup = Ok (dirs, backedUp) →
  keptFiles flags backedUp backup.
Proof using HB.
  intros Hwf Hsnap. eapply untouched_keptFiles. by eapply snapshot_untouched.
Qed.

(** The directories of the snapshot are directories under the backup
    directory. *)
Lemma elem_of_snapshot_dirs backup dirs backedUp d :
  wfFs backup → snapshot flags backup = Ok (dirs, backedUp) →
  d ∈ dirs ↔
  ∃ q, d = Filepath.fromElements q ∧ Forall (λ e, validName e = true) q ∧
       dirAt backup (B ++ q) = true.
Proof using HB.
  intros Hwf (n & Hn & Hwfn & -> & _)%snapshot_Ok; [|done].
  rewrite elem_of_dirsOf by done. setoid_rewrite (dirAt_under _ _ _ Hn).
  unfold dirAt, nodeAt. split.
  - intros (q & es & -> & Hq & Hes). exists q. split; [done|]. split; [done|].
    by destruct (Os.walkTo (Some n) q) as [|[|]]; simplify_eq.
  - intros (q & -> & Hq & Hes).
    destruct (Os.walkTo (Some n) q) as [|[|es]] eqn:Hw; [done..|].
    exists q, es. by rewrite Hw.
Qed.

Hypothesis live : dryRun flags = false.

Lemma deletePass_did order backup :
  omap did (deletePass flags order backup).2 = Delete <$> order.
Proof using live.
  revert backup. induction order as [|p order IH]; intros backup; [done|].
  cbn [deletePass]. unfold deleteOne. rewrite live.
  destruct (Os.Remove _ _) as [backup1 err]. specialize (IH backup1).
  destruct (deletePass flags order backup1) as [backup2 evs2]. simpl in *.
  rewrite omap_app, IH. by destruct err.
Qed.

Lemma deletePass_reports order backup p e :
  Remove p (Some e) ∈ (deletePass flags order backup).2 →
  PrintlnErr e ∈ (deletePass flags order backup).2.
Proof using live.
  revert backup. induction order as [|p' order IH]; intros backup.
  - simpl. by intros ?%elem_of_nil.
  - cbn [deletePass]. unfold deleteOne. rewrite live.
    destruct (Os.Remove _ _) as [backup1 err]. specialize (IH backup1).
    destruct (deletePass flags order backup1) as [backup2 evs2]. simpl in *.
    rewrite !elem_of_cons, !elem_of_app.
    intros [[= <- <-]|[Hin|Hin]].
    + right. left. simpl. by apply list_elem_of_singleton.
    + destruct err; simpl in Hin; [|by apply elem_of_nil in Hin].
      by apply list_elem_of_singleton in Hin.
    + right. right. by apply IH.
Qed.

(** The second loop removes every file it is given: when the turn of a
    file comes, [os.Remove] finds it and succeeds. *)
Lemma deletePass_removes order backup p :
  p ∈ order → fileAt (deletePass flags order backup).1 (backupAt flags p) = None.
Proof using live.
  intros Hp. revert backup. induction order as [|p0 order IH]; intros backup.
  { by apply elem_of_nil in Hp. }
  cbn [deletePass]. unfold deleteOne. rewrite live.
  destruct (Os.Remove _ _) as [backup1 err] eqn:Hr.
  pose proof (deletePass_keeps_absent order backup1 (backupAt flags p)) as Hk.
  apply elem_of_cons in Hp as [<-|Hp].
  - destruct (deletePass flags order backup1) as [backup2 evs2]. simpl in *.
    apply Hk. destruct (fileAt backup (backupAt flags p)) as [[d m]|] eqn:Hf.
    + destruct (Remove_file _ _ _ _ Hf) as [t' Ht']. rewrite Ht' in Hr.
      injection Hr as <- <-. by eapply Remove_ok_absent.
    + by eapply Remove_keeps_absent.
  - specialize (IH Hp backup1). by destruct (deletePass flags order backup1).
Qed.

(** When every file it is given is a file of the backup, each at a
    place of its own, no [os.Remove] of the second loop fails. *)
Lemma deletePass_succeeds order backup :
  NoDup order →
  (∀ p, p ∈ order → inside p = true ∧ ∃ d m, fileAt backup (backupAt flags p) = Some (d, m)) →
  (deletePass flags order backup).2 = (λ p, Remove p None) <$> order.
Proof using live HB.
  intros Hnd. revert backup. induction Hnd as [|p order Hp Hnd IH]; intros backup Hall; [done|].
  cbn [deletePass]. unfold deleteOne. rewrite live.
  destruct (Hall p) as (Hin & d & m & Hf); [by left|].
  destruct (Remove_file _ _ _ _ Hf) as [backup1 Hr]. rewrite Hr.
  specialize (IH backup1). destruct (deletePass flags order backup1) as [backup2 evs2].
  simpl in *. rewrite IH; [done|].
  intros p' Hp'. destruct (Hall p') as (Hin' & d' & m' & Hf'); [by right|].
  split; [done|]. exists d', m'. rewrite <- Hf'. eapply Remove_frame; [|done].
  intros Heq. apply Hp. by rewrite (backupAt_inj p p' Hin Hin').
Qed.

(** Removing files leaves every directory in place. *)
Lemma deletePass_dirs order backup q :
  NoDup order →
  (∀ p, p ∈ order → inside p = true ∧ ∃ d m, fileAt backup (backupAt flags p) = Some (d, m)) →
  dirAt (deletePass flags order backup).1 q = dirAt backup q.
Proof using live HB.
  intros Hnd. revert backup. induction Hnd as [|p order Hp Hnd IH]; intros backup Hall; [done|].
  cbn [deletePass]. unfold deleteOne. rewrite live.
  destruct (Hall p) as (Hin & d & m & Hf); [by left|].
  destruct (Os.Remove _ _) as [backup1 err] eqn:Hr.
  specialize (IH backup1). destruct (deletePass flags order backup1) as [backup2 evs2].
  simpl in *. rewrite IH; [by eapply Remove_file_dirAt|].
  intros p' Hp'. destruct (Hall p') as (Hin' & d' & m' & Hf'); [by right|].
  split; [done|]. exists d', m'. rewrite <- Hf'. eapply Remove_frame; [|done].
  intros Heq. apply Hp. by rewrite (backupAt_inj p p' Hin Hin').
Qed.

End Loops.

(** The trees of the example are well formed, and its paths absolute. *)
Lemma wfFs_projects0 : wfFs Example.projects0.
Proof. simpl. repeat (split; try reflexivity; try (repeat constructor; set_solver)). Qed.

Lemma wfFs_backup0 : wfFs Example.backup0.
Proof. simpl. repeat (split; try reflexivity; try (repeat constructor; set_solver)). Qed.

Lemma absolute_backup0 dry : absolute (backupPath (Example.flags0 dry)) ["backup"].
Proof. split; [by repeat constructor|done]. Qed.

Lemma absolute_projects0 dry : absolute (projectsPath (Example.flags0 dry)) ["projects"].
Proof. split; [by repeat constructor|done]. Qed.

(** * The decision of the first loop *)



Lemma quietOnSame_diffFiles g : diffNoIndex g = Example.diffFiles → quietOnSame g.
Proof.
  intros Hg path data mode. rewrite Hg. simpl.
  by rewrite String.eqb_refl, eqb_reflx.
Qed.


(** C10: when the file is in the set of backed-up files and the
    comparison fails with nothing on its standard output, the error is
    dropped: the file is taken out of the set and skipped as unchanged,
    nothing is copied and nothing is printed, whatever the two files
    are. *)
Theorem failed_comparison_skips flags w p files backup e :
  sourceExists flags w p = true → p ∈ files →
  diffOutput flags w p backup = ("", Some e) →
  copyOne flags w p files backup
  = (files ∖ {[p]}, backup, [Diff p ("", Some e)]).
Proof.
  intros Hs Hin Hout. rewrite (copyOne_backedUp _ _ _ _ _ Hs Hin). by rewrite Hout.
Qed.

Lemma failed_comparison_skips_witness :
  copyOne (Example.flags0 false) Example.worldFailing "app/notes.txt"
    Example.backedUp0 Example.backup0
  = (Example.backedUp0 ∖ {["app/notes.txt"]}, Example.backup0,
     [Diff "app/notes.txt" ("", Some (ExitError 128 "fatal: unable to access"))]) ∧
  fileAt Example.projects0 ["projects"; "app"; "notes.txt"] = Some ("a", 420%N) ∧
  fileAt Example.backup0 ["backup"; "app"; "notes.txt"] = Some ("b", 420%N).
Proof.
  split; [|split; reflexivity].
  apply (failed_comparison_skips (Example.flags0 false) Example.worldFailing
           "app/notes.txt" Example.backedUp0 Example.backup0).
  - reflexivity.
  - unfold Example.backedUp0. set_solver.
  - reflexivity.
Defined.

(** * The third loop *)

(** What one turn of the third loop prints: the error of [os.Remove],
    unless it is [ENOENT]. *)
Lemma pruneOne_prints flags dirRelPath backup :
  let err := (Os.Remove backup (Filepath.Join (backupPath flags) dirRelPath)).2 in
  (pruneOne flags dirRelPath backup).2
  = Prune dirRelPath err ::
    match err with
    | Some (PathError _ _ ENOENT) | None => []
    | Some e => [PrintlnErr e]
    end.
Proof.
  unfold pruneOne. destruct (Os.Remove _ _) as [backup' [e|]]; simpl; [|done].
  destruct e as [op path []| | |]; done.
Qed.

(** C3, on the code: a live run over the example prints the error of
    removing the directory [app], which is not empty, and prints nothing
    for a directory that is not there any more. *)
Theorem prune_prints_not_empty :
  (∃ backup' evs,
     main (Example.flags0 false) Example.world0 Example.backup0 = Ok (backup', evs) ∧
     Prune "app" (Some (PathError "remove" "/backup/app" ENOTEMPTY)) ∈ evs ∧
     PrintlnErr (PathError "remove" "/backup/app" ENOTEMPTY) ∈ evs) ∧
  pruneOne (Example.flags0 false) "tmp/cache" (Some (Dir [("backup", Dir [])]))
  = (Some (Dir [("backup", Dir [])]),
     [Prune "tmp/cache" (Some (PathError "remove" "/backup/tmp/cache" ENOENT))]).
Proof.
  split; [|reflexivity].
  eexists _, _. split; [vm_compute; reflexivity|]. split; set_solver.
Qed.

(** * The files that are not pushed *)

(** C4, as stated, does not hold: listing the files that differ from the
    remote branch fails because an object of the repository cannot be
    read, the two other commands succeed, and the run goes to its end and
    prints no error. *)
Lemma unpushed_failure_not_fatal :
  diffNameOnly (git Example.worldCorrupt) "app" "origin/main"
  = ("", Some Example.unreadable) ∧
  ∃ backup' evs,
    main (Example.flags0 true) Example.worldCorrupt Example.backup0 = Ok (backup', evs) ∧
    ∀ e, PrintlnErr e ∉ evs.
Proof.
  split; [reflexivity|].
  eexists _, _. split; [vm_compute; reflexivity|].
  intros e He. repeat (apply elem_of_cons in He as [He|He]; [discriminate|]).
  by apply elem_of_nil in He.
Qed.

(** C4, amended: whatever listing the files that differ from the remote
    branch returns, error or not, the project goes on with the lines of
    its standard output; nothing is printed and nothing panics for it. *)
Theorem unpushed_error_dropped flags w name untracked branch out err forced :
  lsFilesOthers (git w) name = (untracked, None) →
  branchShowCurrent (git w) name = (branch, None) →
  GoStrings.TrimSpace branch ≠ "" →
  diffNameOnly (git w) name (remoteBranch flags +:+ "/" +:+ GoStrings.TrimSpace branch)
  = (out, err) →
  forceIncludeAll w (Filepath.Join (projectsPath flags) name) (forceIncludedRelPaths flags)
  = Ok forced →
  includedFiles flags w name = Ok (lines untracked ++ lines out ++ forced).
Proof.
  intros Hls Hbr Hne Hdiff Hforced. unfold includedFiles, unpushedFiles.
  rewrite Hls, Hbr. simpl. apply String.eqb_neq in Hne. rewrite Hne, Hdiff, Hforced.
  done.
Qed.

Lemma unpushed_error_dropped_witness :
  includedFiles (Example.flags0 true) Example.worldCorrupt "app"
  = Ok (["notes.txt"; "new.txt"; "same.txt"; "gone.txt"; ""] ++ [""] ++ [".git/HEAD"]).
Proof.
  apply (unpushed_error_dropped (Example.flags0 true) Example.worldCorrupt "app"
           ("notes.txt" +:+ Example.nl +:+ "new.txt" +:+ Example.nl +:+
            "same.txt" +:+ Example.nl +:+ "gone.txt" +:+ Example.nl)
           ("main" +:+ Example.nl) "" (Some Example.unreadable) [".git/HEAD"]).
  - reflexivity.
  - reflexivity.
  - discriminate.
  - reflexivity.
  - reflexivity.
Defined.

(** * The second loop *)

(** C2: in a live run on the snapshot of a well-formed backup, the
    second loop is given the backed-up files that the first loop left in
    the set, that is those that are not a file of the projects found on
    disk; it calls [os.Remove] once on each of them, each call succeeds
    and the file is not in the backup tree afterwards; no other file of
    the backup tree is changed, the backed-up files that were taken out of
    the set are still there, and every directory is kept; the third loop
    follows.  On any backup tree and list of files, every file of the list
    gets its call of [os.Remove], and an error of a call is printed. *)
Theorem delete_pass_exact flags w B files dirs backedUp backup :
  dryRun flags = false →
  absolute (backupPath flags) B →
  wfFs backup →
  snapshot flags backup = Ok (dirs, backedUp) →
  (∀ s, mapRange w s ≡ₚ elements s) →
  ∃ left backup1 evs1 backup2 evs2 backup3 evs3,
    copyPass flags w files backedUp backup = (left, backup1, evs1) ∧
    deletePass flags (mapRange w left) backup1 = (backup2, evs2) ∧
    prunePass flags dirs backup2 = (backup3, evs3) ∧
    reconcile flags w files dirs backedUp backup = (backup3, evs1 ++ evs2 ++ evs3) ∧
    (∀ p, p ∈ left ↔ p ∈ backedUp ∧ ¬ (p ∈ files ∧ sourceExists flags w p = true)) ∧
    evs2 ≡ₚ (λ p, Remove p None) <$> elements left ∧
    (∀ p, p ∈ left →
       (∃ d m, fileAt backup1 (backupAt flags p) = Some (d, m)) ∧
       fileAt backup2 (backupAt flags p) = None) ∧
    (∀ q, (∀ p, p ∈ left → q ≠ backupAt flags p) → fileAt backup2 q = fileAt backup1 q) ∧
    (∀ p, p ∈ backedUp → p ∉ left →
       ∃ d m, fileAt backup2 (backupAt flags p) = Some (d, m)) ∧
    (∀ q, dirAt backup2 q = dirAt backup1 q) ∧
    (∀ order b,
       omap did (deletePass flags order b).2 = Delete <$> order ∧
       ∀ p e, Remove p (Some e) ∈ (deletePass flags order b).2 →
              PrintlnErr e ∈ (deletePass flags order b).2).
Proof.
  intros Hlive HB Hwf Hsnap Hrange. unfold reconcile.
  pose proof (snapshot_keptFiles flags B HB backup dirs backedUp Hwf Hsnap) as Hkept0.
  pose proof (elem_of_copyPass_left flags w files backedUp backup) as Hleft.
  pose proof (copyPass_keptFiles flags w files backedUp backup Hkept0) as Hkept.
  pose proof (λ q, copyPass_keeps_file flags w files backedUp backup q) as Hfile.
  destruct (copyPass flags w files backedUp backup) as [[left backup1] evs1] eqn:Hcopy.
  cbn [fst snd] in *.
  assert (Hnd : NoDup (mapRange w left)).
  { rewrite (Hrange left). apply NoDup_elements. }
  assert (Hin : ∀ p, p ∈ mapRange w left ↔ p ∈ left).
  { intros p. by rewrite (Hrange left), elem_of_elements. }
  assert (Hall : ∀ p, p ∈ mapRange w left →
            inside p = true ∧ ∃ d m, fileAt backup1 (backupAt flags p) = Some (d, m)).
  { intros p Hp%Hin. by apply Hkept. }
  pose proof (deletePass_succeeds flags B HB Hlive (mapRange w left) backup1 Hnd Hall) as Hevs.
  pose proof (deletePass_removes flags Hlive (mapRange w left) backup1) as Hgone.
  pose proof (deletePass_frame flags (mapRange w left) backup1) as Hframe.
  pose proof (λ q, deletePass_dirs flags B HB Hlive (mapRange w left) backup1 q Hnd Hall) as Hdirs.
  destruct (deletePass flags (mapRange w left) backup1) as [backup2 evs2] eqn:Hdelete.
  destruct (prunePass flags dirs backup2) as [backup3 evs3] eqn:Hprune.
  cbn [fst snd] in *.
  exists left, backup1, evs1, backup2, evs2, backup3, evs3.
  split_and!; try done.
  - rewrite Hevs. by rewrite (Hrange left).
  - intros p Hp. split; [by apply Hkept|]. by apply Hgone, Hin.
  - intros q Hq. apply Hframe. intros p Hp%Hin. by apply Hq.
  - intros p Hp Hnot. destruct (Hkept0 p Hp) as [Hip Hf].
    rewrite Hframe; [by apply Hfile|].
    intros p' Hp'%Hin Heq. destruct (Hkept p' Hp') as [Hip' _].
    apply Hnot. by rewrite (backupAt_inj flags B HB p p' Hip Hip' Heq).
  - intros order b. split; [by apply deletePass_did|]. intros p e. by apply deletePass_reports.
Qed.

Lemma delete_pass_exact_witness :
  (∃ left backup1 evs1 backup2 evs2 backup3 evs3,
    copyPass (Example.flags0 false) Example.world0
      ["app/notes.txt"; "app/new.txt"; "app/same.txt"; "app/gone.txt"]
      Example.backedUp0 Example.backup0 = (left, backup1, evs1) ∧
    deletePass (Example.flags0 false) (mapRange Example.world0 left) backup1 = (backup2, evs2) ∧
    prunePass (Example.flags0 false) ["."; "app"; "tmp"; "tmp/cache"] backup2 = (backup3, evs3) ∧
    reconcile (Example.flags0 false) Example.world0
      ["app/notes.txt"; "app/new.txt"; "app/same.txt"; "app/gone.txt"]
      ["."; "app"; "tmp"; "tmp/cache"] Example.backedUp0 Example.backup0
      = (backup3, evs1 ++ evs2 ++ evs3) ∧
    (∀ p, p ∈ left ↔
          p ∈ Example.backedUp0 ∧
          ¬ (p ∈ ["app/notes.txt"; "app/new.txt"; "app/same.txt"; "app/gone.txt"] ∧
             sourceExists (Example.flags0 false) Example.world0 p = true)) ∧
    evs2 ≡ₚ (λ p, Remove p None) <$> elements left ∧
    (∀ p, p ∈ left →
       (∃ d m, fileAt backup1 (backupAt (Example.flags0 false) p) = Some (d, m)) ∧
       fileAt backup2 (backupAt (Example.flags0 false) p) = None) ∧
    (∀ q, (∀ p, p ∈ left → q ≠ backupAt (Example.flags0 false) p) →
          fileAt backup2 q = fileAt backup1 q) ∧
    (∀ p, p ∈ Example.backedUp0 → p ∉ left →
       ∃ d m, fileAt backup2 (backupAt (Example.flags0 false) p) = Some (d, m)) ∧
    (∀ q, dirAt backup2 q = dirAt backup1 q) ∧
    (∀ order b,
       omap did (deletePass (Example.flags0 false) order b).2 = Delete <$> order ∧
       ∀ p e, Remove p (Some e) ∈ (deletePass (Example.flags0 false) order b).2 →
              PrintlnErr e ∈ (deletePass (Example.flags0 false) order b).2)) ∧
  (deletePass (Example.flags0 false) ["app/old.txt"; "app/none.txt"; "app/gone.txt"]
     Example.backup0).2
  = [Remove "app/old.txt" None;
     Remove "app/none.txt" (Some (PathError "remove" "/backup/app/none.txt" ENOENT));
     PrintlnErr (PathError "remove" "/backup/app/none.txt" ENOENT);
     Remove "app/gone.txt" None].
Proof.
  split; [|reflexivity].
  apply (delete_pass_exact (Example.flags0 false) Example.world0 ["backup"]).
  - reflexivity.
  - apply absolute_backup0.
  - exact wfFs_backup0.
  - vm_compute. reflexivity.
  - intros s. reflexivity.
Defined.

(** * The backup directory itself *)

Section Root.

Variable flags : Flags.
Variable w : World.
Variable B : list string.
Hypothesis HB : absolute (backupPath flags) B.

Lemma app_nil_inv_r {A} (l k : list A) : l ++ k = l → k = [].
Proof. intros H. apply (app_inv_head l). by rewrite app_nil_r. Qed.

(** A run leaves the backup directory of a well-formed backup a
    directory. *)
Lemma reconcile_dirAt backup dirs backedUp files :
  wfFs backup → dirAt backup B = true →
  snapshot flags backup = Ok (dirs, backedUp) →
  (∀ s, mapRange w s ≡ₚ elements s) →
  dirAt (reconcile flags w files dirs backedUp backup).1 B = true.
Proof using HB.
  intros Hwf Hdir Hsnap Hrange. unfold reconcile.
  pose proof (copyPass_dirAt flags w files backedUp backup B Hdir) as H1.
  pose proof (elem_of_copyPass_left flags w files backedUp backup) as Hleft.
  destruct (copyPass _ _ _ _ _) as [[left backup1] evs1]. simpl in H1, Hleft.
  assert (H2 : dirAt (deletePass flags (mapRange w left) backup1).1 B = true).
  { apply deletePass_dirAt; [|done]. intros p Hp. rewrite Hrange in Hp.
    apply elem_of_elements, Hleft in Hp as [Hp _].
    apply (elem_of_snapshot flags B HB backup dirs) in Hp as (q & d & m & -> & Hq & Hf);
      [|done..].
    rewrite (backupAt_fromElements flags B HB) by done. intros ->%app_nil_inv_r.
    rewrite app_nil_r in Hf. apply dirAt_fileAt in Hdir. congruence. }
  destruct (deletePass _ _ _) as [backup2 evs2]. simpl in H2.
  assert (H3 : dirAt (prunePass flags dirs backup2).1 B = true).
  { unfold prunePass. destruct (dryRun flags); [done|]. cbn [negb].
    apply pruneLoop_dirAt; [|done]. intros j Hj.
    destruct (lookup_lt_is_Some_2 dirs j) as [d Hd]; [lia|].
    rewrite Hd. simpl.
    destruct (snapshot_Ok flags B HB backup dirs backedUp Hwf Hsnap)
      as (n & Hn & Hwfn & -> & _).
    apply dirsOf_lookup in Hd as (q & -> & Hq & H0 & _); [|done].
    rewrite (backupAt_fromElements flags B HB) by done.
    intros ->%app_nil_inv_r%H0. lia. }
  by destruct (prunePass _ _ _).
Qed.

End Root.

(** C6: for a well-formed backup whose backup directory is a directory,
    the directories of the snapshot are in pre-order: the backup
    directory itself, as [.], is the first one, and every other one comes
    after the directory it is in; the third loop of a live run calls
    [os.Remove] on them from the last one down to the second one, never on
    the first, and none of these calls is on the backup directory; and a
    run, live or not, leaves the backup directory a directory. *)
Theorem backup_root_kept flags B backup :
  absolute (backupPath flags) B → wfFs backup → dirAt backup B = true →
  ∃ dirs files,
    snapshot flags backup = Ok (dirs, files) ∧
    dirs !! 0%nat = Some "." ∧
    backupAt flags "." = B ∧
    (∀ (i : nat) d, dirs !! i = Some d → (0 < i)%nat →
       backupAt flags d ≠ B ∧
       ∃ j : nat, (j < i)%nat ∧ dirs !! j = Some (Filepath.Dir d)) ∧
    (∀ flags' backup', dryRun flags' = false →
       omap pruned (prunePass flags' dirs backup').2 = rev (drop 1 dirs)) ∧
    (∀ w backup' evs,
       (∀ s, mapRange w s ≡ₚ elements s) →
       main flags w backup = Ok (backup', evs) → dirAt backup' B = true).
Proof.
  intros HB Hwf Hdir.
  apply dirAt_walkTo in Hdir as Hn. destruct Hn as [es Hn].
  assert (Hwfn : wfNode (Dir es)) by by eapply walkTo_wf.
  pose proof (snapshot_wf flags B backup (Dir es) HB Hwfn Hn) as Hsnap.
  exists (dirsOf (Dir es)), (list_to_set (filesOf (Dir es))).
  split; [done|]. split; [|split; [|split; [|split]]].
  - unfold dirsOf. by rewrite subpaths_Dir.
  - transitivity (B ++ []); [|apply app_nil_r].
    apply (backupAt_fromElements flags B HB []). constructor.
  - intros i d Hd Hi.
    apply dirsOf_lookup in Hd as (q & -> & Hq & H0 & Hparent); [|done].
    destruct (decide (q = [])) as [->|Hne]; [destruct H0 as [_ H0]; specialize (H0 eq_refl); lia|].
    split.
    + rewrite (backupAt_fromElements flags B HB) by done. by intros ?%app_nil_inv_r.
    + destruct (exists_last Hne) as (q' & e & ->).
      destruct (Hparent q' e eq_refl) as (j & Hj & Hdj).
      exists j. split; [done|]. by rewrite Dir_fromElements.
  - intros flags' backup' Hlive. by rewrite prunePass_pruned, Hlive.
  - intros w backup' evs Hrange Hmain.
    apply main_Ok in Hmain as (dirs & backedUp & files & evs' & _ & Hsnap' & _ & Hrec & _).
    pose proof (reconcile_dirAt flags w B HB backup dirs backedUp files Hwf Hdir Hsnap' Hrange)
      as Hd.
    by rewrite Hrec in Hd.
Qed.

Lemma backup_root_kept_witness :
  ∃ dirs files,
    snapshot (Example.flags0 false) Example.backup0 = Ok (dirs, files) ∧
    dirs !! 0%nat = Some "." ∧
    backupAt (Example.flags0 false) "." = ["backup"] ∧
    (∀ (i : nat) d, dirs !! i = Some d → (0 < i)%nat →
       backupAt (Example.flags0 false) d ≠ ["backup"] ∧
       ∃ j : nat, (j < i)%nat ∧ dirs !! j = Some (Filepath.Dir d)) ∧
    (∀ flags' backup', dryRun flags' = false →
       omap pruned (prunePass flags' dirs backup').2 = rev (drop 1 dirs)) ∧
    (∀ w backup' evs,
       (∀ s, mapRange w s ≡ₚ elements s) →
       main (Example.flags0 false) w Example.backup0 = Ok (backup', evs) →
       dirAt backup' ["backup"] = true).
Proof.
  apply backup_root_kept.
  - apply absolute_backup0.
  - exact wfFs_backup0.
  - reflexivity.
Defined.

(** * A dry run and the live run after it *)

Section DryRun.

Variable flags : Flags.
Variable w : World.

Local Abbreviation dry := (withDryRun flags true).
Local Abbreviation live := (withDryRun flags false).

(** The list of files to back up depends neither on [--dry-run] nor on
    the order of the [range]. *)
Lemma visitProjects_withDryRun b r es :
  visitProjects (withDryRun flags b) (withRange w r) es = visitProjects flags w es.
Proof.
  induction es as [|e es IH]; [done|]. cbn [visitProjects]. by rewrite IH.
Qed.

Lemma projectFiles_withDryRun b r :
  projectFiles (withDryRun flags b) (withRange w r) = projectFiles flags w.
Proof.
  unfold projectFiles. cbn [projects withRange projectsPath withDryRun].
  destruct (Os.ReadDir _) as [es err].
  destruct (panicIf err); [|done]. simpl. apply visitProjects_withDryRun.
Qed.

Lemma visitProjects_dry b es :
  visitProjects (withDryRun flags b) w es = visitProjects flags w es.
Proof.
  induction es as [|e es IH]; [done|]. cbn [visitProjects]. by rewrite IH.
Qed.

Lemma projectFiles_dry b : projectFiles (withDryRun flags b) w = projectFiles flags w.
Proof.
  unfold projectFiles. cbn [projectsPath withDryRun].
  destruct (Os.ReadDir _) as [es err].
  destruct (panicIf err); [|done]. simpl. apply visitProjects_dry.
Qed.

Lemma copyPass_withRange r fl files backedUp backup :
  copyPass fl (withRange w r) files backedUp backup = copyPass fl w files backedUp backup.
Proof.
  revert backedUp backup. induction files as [|p files IH]; intros backedUp backup; [done|].
  cbn [copyPass].
  change (copyOne fl (withRange w r) p backedUp backup) with (copyOne fl w p backedUp backup).
  destruct (copyOne fl w p backedUp backup) as [[backedUp1 backup1] evs1].
  by rewrite IH.
Qed.

(** ** A dry run changes nothing *)

Lemma copyOrSay_dry p backup :
  copyOrSay dry w p backup = (backup, [Println ("+ " +:+ p)]).
Proof. done. Qed.

Lemma copyPass_dry files backedUp backup :
  (copyPass dry w files backedUp backup).1.2 = backup.
Proof. by apply (copyPass_keeps dry w (λ b, b = backup)). Qed.

Lemma deletePass_dry order backup :
  deletePass dry order backup = (backup, (λ p, Println ("- " +:+ p)) <$> order).
Proof.
  induction order as [|p order IH]; [done|].
  cbn [deletePass]. unfold deleteOne. cbn [dryRun withDryRun]. by rewrite IH.
Qed.

Lemma reconcile_dry files dirs backedUp backup :
  reconcile dry w files dirs backedUp backup
  = (backup, (copyPass dry w files backedUp backup).2 ++
             ((λ p, Println ("- " +:+ p))
                <$> mapRange w (copyPass dry w files backedUp backup).1.1) ++ []).
Proof.
  unfold reconcile. pose proof (copyPass_dry files backedUp backup) as H1.
  destruct (copyPass dry w files backedUp backup) as [[left backup1] evs1].
  rewrite deletePass_dry. simpl in *. by subst.
Qed.

(** What the first loop of a dry run says: copies only. *)
Lemma copyOne_dry_said p files backup :
  omap said (copyOne dry w p files backup).2 = [] ∨
  omap said (copyOne dry w p files backup).2 = [Copy p].
Proof.
  destruct (sourceExists dry w p) eqn:Hs.
  - destruct (decide (p ∈ files)) as [Hin|Hin].
    + rewrite copyOne_backedUp by done. destruct (Nat.eqb _ 0); [by left|by right].
    + rewrite copyOne_new by done. by right.
  - rewrite copyOne_missing by done. by left.
Qed.

Lemma copyPass_dry_said files backedUp backup :
  ∃ copies, omap said (copyPass dry w files backedUp backup).2 = Copy <$> copies ∧
            copies ⊆ files.
Proof.
  revert backedUp backup. induction files as [|p files IH]; intros backedUp backup.
  - by exists [].
  - cbn [copyPass]. pose proof (copyOne_dry_said p backedUp backup) as H1.
    destruct (copyOne dry w p backedUp backup) as [[backedUp1 backup1] evs1].
    destruct (IH backedUp1 backup1) as (copies & IH1 & IH2).
    destruct (copyPass dry w files backedUp1 backup1) as [[backedUp2 backup2] evs2].
    simpl in *. rewrite omap_app, IH1. destruct H1 as [->| ->].
    + exists copies. split; [done|]. set_solver.
    + exists (p :: copies). split; [done|]. set_solver.
Qed.

(** ** The two runs decide alike *)

Variable B : list string.
Hypothesis HB : absolute (backupPath flags) B.

Lemma untouched_diffOutput backup0 files backup p :
  untouched flags backup0 files backup → p ∈ files →
  diffOutput flags w p backup = diffOutput flags w p backup0.
Proof.
  clear HB. intros Hu Hp. destruct (Hu p Hp) as (_ & d & m & H0 & H1).
  unfold diffOutput. f_equal. unfold Os.resolve.
  apply fileAt_walkTo in H0. apply fileAt_walkTo in H1.
  unfold backupAt in H0, H1. by rewrite H0, H1.
Qed.

Lemma untouched_copyOrSay backup0 files backup p :
  inside p = true →
  untouched flags backup0 files backup → p ∉ files →
  untouched flags backup0 files (copyOrSay live w p backup).1.
Proof using HB.
  intros Hin Hu Hp p' Hp'. destruct (Hu p' Hp') as (Hin' & d & m & H0 & H1).
  split; [done|]. exists d, m. split; [done|].
  rewrite (copyOrSay_frame live w p backup); [done|].
  intros Heq. apply Hp. by rewrite (backupAt_inj flags B HB p p' Hin Hin').
Qed.

Lemma untouched_subseteq backup0 files files' backup :
  files' ⊆ files → untouched flags backup0 files backup →
  untouched flags backup0 files' backup.
Proof. intros Hsub Hu p Hp. by apply Hu, Hsub. Qed.

Lemma did_copyOrSay p backup : omap did (copyOrSay live w p backup).2 = [Copy p].
Proof.
  unfold copyOrSay. simpl. destruct (copyFile _ _ _ _) as [backup' [e|]]; done.
Qed.

(** One turn of the first loop, in the dry run on the backup as it is
    and in the live run on the backup as the turns before left it. *)
Lemma copyOne_alike backup0 files backup p :
  inside p = true →
  untouched flags backup0 files backup →
  (copyOne dry w p files backup0).1.1 = (copyOne live w p files backup).1.1 ∧
  untouched flags backup0 (copyOne live w p files backup).1.1
    (copyOne live w p files backup).1.2 ∧
  omap said (copyOne dry w p files backup0).2 = omap did (copyOne live w p files backup).2.
Proof using HB.
  intros Hin Hu.
  change (sourceExists dry w p) with (sourceExists flags w p).
  destruct (sourceExists flags w p) eqn:Hs.
  - destruct (decide (p ∈ files)) as [Hp|Hp].
    + rewrite !copyOne_backedUp by done.
      change (diffOutput dry w p backup0) with (diffOutput flags w p backup0).
      change (diffOutput live w p backup) with (diffOutput flags w p backup).
      rewrite (untouched_diffOutput _ _ _ _ Hu Hp).
      destruct (Nat.eqb _ 0).
      * split; [done|]. split; [|done]. simpl.
        eapply untouched_subseteq; [|done]. set_solver.
      * split; [done|]. split.
        -- simpl. apply untouched_copyOrSay; [done| |set_solver].
           eapply untouched_subseteq; [|done]. set_solver.
        -- cbn [snd omap list_omap said did]. by rewrite did_copyOrSay.
    + rewrite !copyOne_new by done. split; [done|]. split.
      * by apply untouched_copyOrSay.
      * cbn [snd]. by rewrite did_copyOrSay.
  - rewrite !copyOne_missing by done. done.
Qed.

Lemma copyOne_untouched backup0 c files backup :
  inside c = true → untouched flags backup0 files backup →
  untouched flags backup0 (copyOne live w c files backup).1.1
    (copyOne live w c files backup).1.2.
Proof using HB.
  intros Hc Hu. by destruct (copyOne_alike backup0 files backup c Hc Hu) as (_ & ? & _).
Qed.

Lemma copyPass_alike backup0 files backedUp backup :
  Forall (λ p, inside p = true) files →
  untouched flags backup0 backedUp backup →
  (copyPass dry w files backedUp backup0).1.1 = (copyPass live w files backedUp backup).1.1 ∧
  omap said (copyPass dry w files backedUp backup0).2
  = omap did (copyPass live w files backedUp backup).2.
Proof using HB.
  intros Hfiles. revert backedUp backup.
  induction Hfiles as [|p files Hp Hfiles IH]; intros backedUp backup Hu; [done|].
  cbn [copyPass].
  destruct (copyOne_alike backup0 backedUp backup p Hp Hu) as (H1 & H2 & H3).
  pose proof (copyOne_keeps dry w (λ b, b = backup0) p backedUp backup0 eq_refl (λ _, eq_refl))
    as H4.
  destruct (copyOne dry w p backedUp backup0) as [[backedUpD backupD] evsD].
  destruct (copyOne live w p backedUp backup) as [[backedUpL backupL] evsL].
  simpl in H1, H2, H3, H4. subst backedUpD backupD.
  specialize (IH backedUpL backupL H2) as [IH1 IH2].
  destruct (copyPass dry w files backedUpL backup0) as [[backedUpD' backupD'] evsD'].
  destruct (copyPass live w files backedUpL backupL) as [[backedUpL' backupL'] evsL'].
  simpl in *. split; [done|]. rewrite !omap_app. congruence.
Qed.

Lemma copyPass_untouched backup0 files backedUp backup :
  Forall (λ p, inside p = true) files → untouched flags backup0 backedUp backup →
  untouched flags backup0 (copyPass live w files backedUp backup).1.1
    (copyPass live w files backedUp backup).1.2.
Proof using HB.
  intros Hfiles. revert backedUp backup.
  induction Hfiles as [|c files Hc Hfiles IH]; intros backedUp backup Hu; [done|].
  cbn [copyPass]. pose proof (copyOne_untouched backup0 c backedUp backup Hc Hu) as H1.
  destruct (copyOne live w c backedUp backup) as [[backedUp1 backup1] evs1].
  specialize (IH backedUp1 backup1 H1).
  by destruct (copyPass live w files backedUp1 backup1) as [[backedUp2 backup2] evs2].
Qed.

Lemma said_deleted (order : list string) :
  omap said ((λ p, Println ("- " +:+ p)) <$> order) = Delete <$> order.
Proof.
  induction order as [|p l IH]; [done|]. rewrite !fmap_cons.
  change ("- " +:+ p) with (String "-" (String " " p)).
  cbn [omap list_omap said]. by f_equal.
Qed.

Lemma pruned_said_None e a : said e = Some a → pruned e = None.
Proof. by destruct e. Qed.

Lemma pruned_copyPass fl files backedUp backup :
  omap pruned (copyPass fl w files backedUp backup).2 = [].
Proof.
  revert backedUp backup. induction files as [|p files IH]; intros backedUp backup; [done|].
  cbn [copyPass].
  assert (H1 : omap pruned (copyOne fl w p backedUp backup).2 = []).
  { unfold copyOne, copyOrSay. destruct (Os.Stat _ _) as [i err].
    destruct (Os.IsNotExist err); [done|].
    destruct (decide _); [destruct (Nat.eqb _ 0); [done|]|];
      (destruct (dryRun fl); [done|]);
      by destruct (copyFile _ _ _ _) as [b [e'|]]. }
  destruct (copyOne fl w p backedUp backup) as [[backedUp1 backup1] evs1].
  specialize (IH backedUp1 backup1).
  destruct (copyPass fl w files backedUp1 backup1) as [[backedUp2 backup2] evs2].
  simpl in *. by rewrite omap_app, H1, IH.
Qed.

Lemma pruned_deletePass fl order backup :
  omap pruned (deletePass fl order backup).2 = [].
Proof.
  revert backup. induction order as [|p order IH]; intros backup; [done|].
  cbn [deletePass]. unfold deleteOne. destruct (dryRun fl).
  - specialize (IH backup). destruct (deletePass fl order backup). simpl in *. done.
  - destruct (Os.Remove _ _) as [backup1 err]. specialize (IH backup1).
    destruct (deletePass fl order backup1). simpl in *.
    rewrite omap_app, IH. by destruct err.
Qed.

End DryRun.

(** C5, as stated, does not hold: the live run that follows a dry run
    removes the directories [tmp/cache] and [tmp] of the backup, which
    are empty, and the dry run has not said so: its lines are about the
    files only. *)
Lemma pruning_not_reported :
  ∃ backup'' evs',
    main (Example.flags0 true) Example.world0 Example.backup0
    = Ok (Example.backup0,
          [Println "Simulating changes to backup directory:"; Println "";
           Diff "app/notes.txt" ("app/notes.txt" +:+ Example.nl, Some (ExitError 1 ""));
           Println "+ app/notes.txt"; Println "+ app/new.txt";
           Diff "app/same.txt" ("", None); Println "+ app/.git/HEAD";
           Println "- app/old.txt"; Println "- app/gone.txt"]) ∧
    main (Example.flags0 false) Example.world0 Example.backup0 = Ok (backup'', evs') ∧
    omap pruned evs' = ["tmp/cache"; "tmp"; "app"] ∧
    Prune "tmp/cache" None ∈ evs' ∧ Prune "tmp" None ∈ evs' ∧
    dirAt Example.backup0 ["backup"; "tmp"] = true ∧
    dirAt backup'' ["backup"; "tmp"] = false.
Proof.
  eexists _, _. split; [vm_compute; reflexivity|]. split; [vm_compute; reflexivity|].
  split; [reflexivity|]. split; [set_solver|]. split; [set_solver|]. split; reflexivity.
Qed.

(** C5, amended: when the files to back up are clean paths that stay
    inside the backup directory, a dry run leaves the backup tree as it
    is; its first loop keeps the set of backed-up files as the one of a
    live run does, so that both are left with the backed-up files that are
    not a file of the projects found on disk; and the copies and the
    deletions of files it says are those the live run that follows makes,
    the copies in the same order and the deletions each in the order of
    its own [range]: the calls of [copyFile] and the calls of [os.Remove]
    on files.  The calls of [os.Remove] on the directories, which the
    live run makes, are not said. *)
Theorem dry_run_file_actions flags w order B files backup backup' evs :
  absolute (backupPath flags) B → wfFs backup →
  projectFiles flags w = Ok files →
  Forall (λ p, inside p = true) files →
  main (withDryRun flags true) w backup = Ok (backup', evs) →
  backup' = backup ∧
  ∃ dirs backedUp left copies,
    snapshot flags backup = Ok (dirs, backedUp) ∧
    (copyPass (withDryRun flags true) w files backedUp backup).1.1 = left ∧
    (copyPass (withDryRun flags false) w files backedUp backup).1.1 = left ∧
    (∀ p, p ∈ left ↔ p ∈ backedUp ∧ ¬ (p ∈ files ∧ sourceExists flags w p = true)) ∧
    copies ⊆ files ∧
    omap said evs = (Copy <$> copies) ++ (Delete <$> mapRange w left) ∧
    omap pruned evs = [] ∧
    ∃ backup'' evs',
      main (withDryRun flags false) (withRange w order) backup' = Ok (backup'', evs') ∧
      omap did evs' = (Copy <$> copies) ++ (Delete <$> order left) ∧
      omap pruned evs' = rev (drop 1 dirs).
Proof.
  intros HB Hwf Hfiles Hin Hmain.
  apply main_Ok in Hmain
    as (dirs & backedUp & files' & evs0 & Hgit & Hsnap & Hfiles' & Hrec & ->).
  rewrite projectFiles_dry, Hfiles in Hfiles'. injection Hfiles' as <-.
  rewrite reconcile_dry in Hrec. injection Hrec as <- <-. split; [done|].
  pose proof (snapshot_untouched flags B HB backup dirs backedUp Hwf Hsnap) as Hu.
  destruct (copyPass_alike flags w B HB backup files backedUp backup Hin Hu) as [Hleft Hsaid].
  destruct (copyPass_dry_said flags w files backedUp backup) as (copies & Hcopies & Hsub).
  exists dirs, backedUp, (copyPass (withDryRun flags true) w files backedUp backup).1.1, copies.
  split; [done|]. split; [done|]. split; [done|]. split.
  { intros p. apply (elem_of_copyPass_left (withDryRun flags true) w). }
  split; [done|]. split.
  { cbn [header dryRun withDryRun]. rewrite !omap_app, app_nil_r. cbn [app].
    change (omap said [Println "Simulating changes to backup directory:"; Println ""])
      with (@nil action).
    cbn [app]. by rewrite Hcopies, said_deleted. }
  split.
  { cbn [header dryRun withDryRun]. rewrite !omap_app, app_nil_r.
    rewrite pruned_copyPass. simpl.
    induction (mapRange w _) as [|p l IH]; [done|]. done. }
  eexists _, _. split.
  { apply main_run; [done|done|]. by rewrite projectFiles_withDryRun. }
  unfold reconcile. rewrite copyPass_withRange.
  pose proof (pruned_copyPass w (withDryRun flags false) files backedUp backup) as HprC.
  destruct (copyPass (withDryRun flags false) w files backedUp backup)
    as [[leftL backupL] evsL] eqn:HcopyL.
  cbn [fst snd] in Hleft, Hsaid. cbn [mapRange withRange].
  pose proof (deletePass_did (withDryRun flags false) eq_refl (order leftL) backupL) as Hdid.
  pose proof (pruned_deletePass (withDryRun flags false) (order leftL) backupL) as Hpr.
  destruct (deletePass (withDryRun flags false) (order leftL) backupL) as [backup2 evs2].
  pose proof (did_prunePass (withDryRun flags false) dirs backup2) as Hdp.
  pose proof (prunePass_pruned (withDryRun flags false) dirs backup2) as Hpp.
  destruct (prunePass (withDryRun flags false) dirs backup2) as [backup3 evs3].
  cbn [fst snd header dryRun withDryRun app] in *. split.
  - rewrite !omap_app, Hdid, Hdp, app_nil_r, <- Hsaid, Hcopies. by rewrite Hleft.
  - by rewrite !omap_app, Hpr, Hpp, HprC.
Qed.

Lemma dry_run_file_actions_witness :
  ∃ evs,
    main (withDryRun (Example.flags0 true) true) Example.world0 Example.backup0
    = Ok (Example.backup0, evs) ∧
    omap said evs
    = [Copy "app/notes.txt"; Copy "app/new.txt"; Copy "app/.git/HEAD";
       Delete "app/old.txt"; Delete "app/gone.txt"] ∧
    ∃ dirs backedUp left copies,
      snapshot (Example.flags0 true) Example.backup0 = Ok (dirs, backedUp) ∧
      omap said evs = (Copy <$> copies) ++ (Delete <$> mapRange Example.world0 left) ∧
      ∃ backup'' evs',
        main (withDryRun (Example.flags0 true) false)
          (withRange Example.world0 (λ s, rev (elements s))) Example.backup0
        = Ok (backup'', evs') ∧
        omap did evs' = (Copy <$> copies) ++ (Delete <$> rev (elements left)) ∧
        omap pruned evs' = rev (drop 1 dirs).
Proof.
  eexists. split; [vm_compute; reflexivity|]. split; [vm_compute; reflexivity|].
  edestruct (dry_run_file_actions (Example.flags0 true) Example.world0
               (λ s, rev (elements s)) ["backup"]
               ["app/notes.txt"; "app/new.txt"; "app/same.txt"; "app/gone.txt"; "app/.git/HEAD"]
               Example.backup0)
    as (_ & dirs & backedUp & left & copies & Hsnap & _ & _ & _ & _ & Hsaid & _ &
        backup'' & evs' & Hlive & Hdid & Hpruned).
  - apply absolute_backup0.
  - exact wfFs_backup0.
  - vm_compute. reflexivity.
  - repeat constructor.
  - vm_compute. reflexivity.
  - exists dirs, backedUp, left, copies. split; [exact Hsnap|]. split; [exact Hsaid|].
    exists backup'', evs'. split; [exact Hlive|]. split; [exact Hdid|exact Hpruned].
Defined.

(** * The files to back up of one project *)

Section ProjectFiles.

Import Filepath.

(** A [..] on the stack of [cleanElems] stays there. *)
Lemma cleanElems_up_stays kept elems :
  ".." ∈ kept → ".." ∈ cleanElems false kept elems.
Proof.
  revert kept. induction elems as [|e elems IH]; intros kept Hin; simpl.
  - apply list_elem_of_In, in_rev. rewrite rev_involutive. by apply list_elem_of_In.
  - destruct (String.eqb e "" || String.eqb e "."); [by apply IH|].
    destruct (String.eqb e "..") eqn:He.
    + destruct kept as [|top kept]; [by apply elem_of_nil in Hin|].
      destruct (String.eqb top "..") eqn:Htop.
      * apply IH. by right.
      * apply IH. apply elem_of_cons in Hin as [Heq|Hin]; [|done].
        subst top. discriminate Htop.
    + apply IH. by right.
Qed.

(** Under a name, a path that does not climb is cleaned as it is alone. *)
Lemma cleanElems_under name kept elems :
  validName name = true → ".." ∉ kept →
  ".." ∉ cleanElems false kept elems →
  cleanElems false (kept ++ [name]) elems = name :: cleanElems false kept elems.
Proof.
  intros Hname. pose proof (validName_eqb _ Hname) as (_ & _ & Hn3).
  revert kept. induction elems as [|e elems IH]; intros kept Hk Hc; simpl.
  - by rewrite rev_app_distr.
  - simpl in Hc. destruct (String.eqb e "" || String.eqb e "."); [by apply IH|].
    destruct (String.eqb e "..") eqn:He.
    + destruct kept as [|top kept].
      * exfalso. apply Hc, cleanElems_up_stays.
        apply String.eqb_eq in He as ->. by left.
      * simpl. assert (String.eqb top ".." = false) as Htop.
        { apply String.eqb_neq. intros ->. apply Hk. by left. }
        rewrite Htop in Hc |- *. apply IH; [|done]. set_solver.
    + apply (IH (e :: kept)); [|done].
      apply String.eqb_neq in He. set_solver.
Qed.

Lemma names_no_up l : Forall (λ e, validName e = true) l → ".." ∉ l.
Proof. intros Hl Hin. rewrite Forall_forall in Hl. by apply Hl in Hin. Qed.

(** [filepath.Join] of a name and a path that stays inside: the name,
    then the elements of the path. *)
Lemma Join_under name path :
  validName name = true → Forall (λ e, validName e = true) (relElements path) →
  Join name path = fromElements (name :: relElements path).
Proof.
  intros Hname Hc. rewrite Join_name by done. f_equal.
  apply (cleanElems_under name []); [done|apply not_elem_of_nil|by apply names_no_up].
Qed.

Lemma fromElements_cons name q :
  fromElements (name :: q) = name ∨
  ∃ rest, fromElements (name :: q) = name +:+ String Separator rest.
Proof.
  destruct q as [|x q]; [by left|]. right.
  exists (GoStrings.Join (x :: q) "/"). done.
Qed.

(** ** White space *)

Lemma TrimLeftSpace_cons c s1 :
  GoStrings.TrimLeftSpace (String c s1)
  = if GoStrings.isSpace c then GoStrings.TrimLeftSpace s1
    else match s1 with
         | "" => String c s1
         | String d s2 =>
             if GoStrings.isSpace2 c d then GoStrings.TrimLeftSpace s2
             else match s2 with
                  | "" => String c s1
                  | String e s3 =>
                      if GoStrings.isSpace3 c d e then GoStrings.TrimLeftSpace s3
                      else String c s1
                  end
         end.
Proof. done. Qed.

(** Where [TrimLeftSpace] stops, no white space starts. *)
Lemma TrimLeftSpace_stops s c s1 :
  GoStrings.TrimLeftSpace s = String c s1 →
  GoStrings.isSpace c = false ∧
  ∀ d s2, s1 = String d s2 →
    GoStrings.isSpace2 c d = false ∧
    ∀ e s3, s2 = String e s3 → GoStrings.isSpace3 c d e = false.
Proof.
  remember (String.length s) as n eqn:Hn.
  assert (Hle : (String.length s ≤ n)%nat) by lia. clear Hn.
  revert s Hle. induction n as [|n IH]; intros s Hn.
  { destruct s; [done|simpl in Hn; lia]. }
  destruct s as [|c0 s0]; [done|]. rewrite TrimLeftSpace_cons.
  destruct (GoStrings.isSpace c0) eqn:H1; [apply IH; simpl in *; lia|].
  destruct s0 as [|d0 s0]; [by intros [= <- <-]|].
  destruct (GoStrings.isSpace2 c0 d0) eqn:H2; [apply IH; simpl in *; lia|].
  destruct s0 as [|e0 s0].
  { intros [= <- <-]. split; [done|]. by intros d s2 [= <- <-]. }
  destruct (GoStrings.isSpace3 c0 d0 e0) eqn:H3; [apply IH; simpl in *; lia|].
  intros [= <- <-]. split; [done|]. intros d s2 [= <- <-].
  split; [done|]. by intros e s3' [= <- <-].
Qed.

(** What starts with a character that is not white space is not
    blank. *)
Lemma TrimRightSpace_stops c s1 :
  GoStrings.isSpace c = false →
  (∀ d s2, s1 = String d s2 →
     GoStrings.isSpace2 c d = false ∧
     ∀ e s3, s2 = String e s3 → GoStrings.isSpace3 c d e = false) →
  GoStrings.TrimRightSpace (String c s1) ≠ "".
Proof.
  intros H1 H23. cbn [GoStrings.TrimRightSpace]. rewrite H1.
  assert (Hbyte : match GoStrings.TrimRightSpace s1 with
                  | "" => String c ""
                  | String a t => String c (String a t)
                  end ≠ "") by by destruct (GoStrings.TrimRightSpace s1).
  destruct s1 as [|d s2]; [done|].
  destruct (H23 d s2 eq_refl) as [H2 H3]. rewrite H2.
  destruct s2 as [|e s3]; [done|]. by rewrite (H3 e s3 eq_refl).
Qed.

Lemma isSpace2_separator c : GoStrings.isSpace2 c Separator = false.
Proof. unfold GoStrings.isSpace2. simpl. apply andb_false_r. Qed.

Lemma isSpace3_separator c e : GoStrings.isSpace3 c Separator e = false.
Proof.
  unfold GoStrings.isSpace3. cbn [nat_of_ascii Separator].
  replace (Nat.eqb (nat_of_ascii Separator) 154) with false by done.
  replace (Nat.eqb (nat_of_ascii Separator) 128) with false by done.
  replace (Nat.eqb (nat_of_ascii Separator) 129) with false by done.
  by rewrite !andb_false_r.
Qed.

Lemma isSpace3_separator_r c d : GoStrings.isSpace3 c d Separator = false.
Proof.
  unfold GoStrings.isSpace3.
  replace (Nat.eqb (nat_of_ascii Separator) 128) with false by done.
  replace (Nat.eqb (nat_of_ascii Separator) 159) with false by done.
  replace (Nat.eqb (nat_of_ascii Separator) 168) with false by done.
  replace (Nat.eqb (nat_of_ascii Separator) 169) with false by done.
  replace (Nat.eqb (nat_of_ascii Separator) 175) with false by done.
  replace (Nat.leb 128 (nat_of_ascii Separator)) with false by done.
  by rewrite !andb_false_r.
Qed.

(** A separator after the string does not make white space of what
    comes before it. *)
Lemma TrimLeftSpace_app s rest :
  GoStrings.TrimLeftSpace s ≠ "" →
  GoStrings.TrimLeftSpace (s +:+ String Separator rest)
  = GoStrings.TrimLeftSpace s +:+ String Separator rest.
Proof.
  remember (String.length s) as n eqn:Hn.
  assert (Hle : (String.length s ≤ n)%nat) by lia. clear Hn.
  revert s Hle. induction n as [|n IH]; intros s Hn.
  { destruct s; [done|simpl in Hn; lia]. }
  destruct s as [|c s0]; [done|]. rewrite append_cons, !TrimLeftSpace_cons.
  destruct (GoStrings.isSpace c); [apply IH; simpl in *; lia|].
  destruct s0 as [|d s0].
  { intros _. change ("" +:+ String Separator rest) with (String Separator rest).
    cbv iota. rewrite isSpace2_separator. destruct rest as [|e rest]; [done|].
    by rewrite isSpace3_separator. }
  rewrite append_cons.
  destruct (GoStrings.isSpace2 c d); [apply IH; simpl in *; lia|].
  destruct s0 as [|e s0].
  { intros _. change ("" +:+ String Separator rest) with (String Separator rest).
    cbv iota. by rewrite isSpace3_separator_r. }
  rewrite append_cons.
  destruct (GoStrings.isSpace3 c d e); [apply IH; simpl in *; lia|done].
Qed.

(** A name that is not blank, followed by a separator and anything, is
    not blank. *)
Lemma TrimSpace_app s rest :
  GoStrings.TrimSpace s ≠ "" → GoStrings.TrimSpace (s +:+ String Separator rest) ≠ "".
Proof.
  unfold GoStrings.TrimSpace. intros Hs.
  assert (Hl : GoStrings.TrimLeftSpace s ≠ "") by (intros Hl; by rewrite Hl in Hs).
  rewrite TrimLeftSpace_app by done.
  destruct (GoStrings.TrimLeftSpace s) as [|c s1] eqn:Hleft; [done|].
  destruct (TrimLeftSpace_stops _ _ _ Hleft) as [H1 H23].
  rewrite append_cons. apply TrimRightSpace_stops; [done|].
  intros d s2 Heq. destruct s1 as [|d1 [|e1 s3]].
  - injection Heq as <- <-. rewrite isSpace2_separator. split; [done|].
    intros e s3 _. apply isSpace3_separator.
  - rewrite !append_cons in Heq. injection Heq as <- <-.
    destruct (H23 d1 "" eq_refl) as [H2 _]. split; [done|].
    intros e s3 [= <- _]. apply isSpace3_separator_r.
  - rewrite !append_cons in Heq. injection Heq as <- <-.
    destruct (H23 d1 _ eq_refl) as [H2 H3]. split; [done|].
    intros e s3' [= <- _]. by apply (H3 e1 s3).
Qed.

Variable flags : Flags.
Variable w : World.

Lemma includedFiles_Ok name included :
  includedFiles flags w name = Ok included ↔
  ∃ untracked branch forced,
    lsFilesOthers (git w) name = (untracked, None) ∧
    branchShowCurrent (git w) name = (branch, None) ∧
    forceIncludeAll w (Join (projectsPath flags) name) (forceIncludedRelPaths flags)
    = Ok forced ∧
    included
    = lines untracked ++ unpushedFiles flags w name (GoStrings.TrimSpace branch) ++ forced.
Proof.
  unfold includedFiles. split.
  - destruct (lsFilesOthers (git w) name) as [untracked [e|]]; [done|].
    destruct (branchShowCurrent (git w) name) as [branch [e|]]; [done|]. simpl.
    destruct (forceIncludeAll _ _ _) as [forced|]; [|done]. simpl.
    intros [= <-]. by exists untracked, branch, forced.
  - intros (untracked & branch & forced & -> & -> & Hf & ->). simpl. by rewrite Hf.
Qed.

Lemma addProjectDir_filter name included :
  addProjectDir name included = Filepath.Join name <$> List.filter notBlank included.
Proof.
  induction included as [|f l IH]; [done|]. cbn [addProjectDir List.filter].
  unfold notBlank at 1. destruct (String.eqb _ ""); simpl; by rewrite IH.
Qed.

Lemma visitProject_skipped name n :
  Os.IsDir n = false ∨
  Os.resolve (projects w) (Join (Join (projectsPath flags) name) ".git") = inl ENOENT →
  visitProject flags w (name, n) = Ok [].
Proof.
  unfold visitProject, Os.Stat. simpl. intros [-> | ->]; [done|].
  by destruct (negb (Os.IsDir n)).
Qed.

Lemma visitProject_visited name n :
  Os.IsDir n = true →
  Os.resolve (projects w) (Join (Join (projectsPath flags) name) ".git") ≠ inl ENOENT →
  visitProject flags w (name, n)
  = (included ←r includedFiles flags w name;
     Ok (Join name <$> List.filter notBlank included)).
Proof.
  unfold visitProject, Os.Stat. simpl. intros -> Hgit. simpl.
  destruct (Os.resolve _ _) as [[]|c]; try done;
    simpl; destruct (includedFiles flags w name); simpl; by rewrite ?addProjectDir_filter.
Qed.

End ProjectFiles.

(** C7, as stated, does not hold.  The force-included path
    [../shared.env] names a file next to the project [app]; the entry it
    gives is [shared.env], which does not start with the name of the
    project.  The force-included path made of [../] and a space names a
    file next to the project whose name is one space; it is not blank, and
    the entry it gives is one space. *)
Lemma entry_without_project_name :
  visitProject Example.flagsShared Example.worldShared ("app", Example.appQuiet)
  = Ok ["shared.env"] ∧
  (¬ ∃ rest, "shared.env" = "app" +:+ rest) ∧
  visitProject Example.flagsBlank Example.worldBlank ("app", Example.appQuiet)
  = Ok [" "] ∧
  GoStrings.TrimSpace " " = "".
Proof.
  split; [reflexivity|]. split; [|split; reflexivity].
  intros [rest H]. discriminate H.
Qed.

(** C7, amended: an entry of the projects directory that is not a
    directory, or in which [os.Stat] does not find [.git], adds nothing;
    any other adds [filepath.Join] of its directory name and each entry
    that is not blank, in order, of the untracked list, the unpushed list
    and the force-include expansion, when the two first commands of git
    succeed and the expansion does not panic, and panics otherwise.  For
    an entry that, once cleaned, stays inside the project, what is added
    is the name of the project alone or followed by a separator and the
    rest, and it is not blank when the name is not. *)
Theorem projectFiles_entries flags w name n :
  let dotGit :=
    Os.resolve (projects w)
      (Filepath.Join (Filepath.Join (projectsPath flags) name) ".git") in
  (Os.IsDir n = false ∨ dotGit = inl ENOENT → visitProject flags w (name, n) = Ok []) ∧
  (Os.IsDir n = true → dotGit ≠ inl ENOENT →
     ∀ out,
       visitProject flags w (name, n) = Ok out ↔
       ∃ untracked branch forced,
         lsFilesOthers (git w) name = (untracked, None) ∧
         branchShowCurrent (git w) name = (branch, None) ∧
         forceIncludeAll w (Filepath.Join (projectsPath flags) name)
           (forceIncludedRelPaths flags) = Ok forced ∧
         out = Filepath.Join name <$>
                 List.filter notBlank
                   (lines untracked ++
                    unpushedFiles flags w name (GoStrings.TrimSpace branch) ++
                    forced)) ∧
  (∀ e, validName name = true →
     Forall (λ x, validName x = true) (relElements e) →
     Filepath.Join name e = Filepath.fromElements (name :: relElements e) ∧
     (Filepath.Join name e = name ∨
      ∃ rest, Filepath.Join name e = name +:+ String Filepath.Separator rest) ∧
     (GoStrings.TrimSpace name ≠ "" → GoStrings.TrimSpace (Filepath.Join name e) ≠ "")).
Proof.
  cbv zeta. split; [apply visitProject_skipped|]. split.
  - intros Hdir Hgit out. rewrite visitProject_visited by done. split.
    + destruct (includedFiles flags w name) as [included|] eqn:Hinc; [|done].
      simpl. intros [= <-].
      apply includedFiles_Ok in Hinc as (untracked & branch & forced & ? & ? & ? & ->).
      by exists untracked, branch, forced.
    + intros (untracked & branch & forced & Hls & Hbr & Hf & ->).
      assert (includedFiles flags w name
              = Ok (lines untracked ++
                    unpushedFiles flags w name (GoStrings.TrimSpace branch) ++ forced)) as ->.
      { apply includedFiles_Ok. by exists untracked, branch, forced. }
      done.
  - intros e Hname He. rewrite Join_under by done.
    split; [done|]. split; [apply fromElements_cons|]. intros Hblank.
    destruct (fromElements_cons name (relElements e)) as [->|[rest ->]]; [done|].
    by apply TrimSpace_app.
Qed.

Lemma projectFiles_entries_witness :
  visitProject (Example.flags0 false) Example.world0 ("app", Example.app0)
  = Ok ["app/notes.txt"; "app/new.txt"; "app/same.txt"; "app/gone.txt"; "app/.git/HEAD"] ∧
  visitProject (Example.flags0 false) Example.world0 ("README", File "" 420%N) = Ok [] ∧
  (Filepath.Join "app" "notes.txt" = "app" ∨
   ∃ rest, Filepath.Join "app" "notes.txt" = "app" +:+ String Filepath.Separator rest) ∧
  GoStrings.TrimSpace (Filepath.Join "app" "notes.txt") ≠ "".
Proof.
  destruct (projectFiles_entries (Example.flags0 false) Example.world0 "app" Example.app0)
    as (_ & H2 & H3).
  destruct (projectFiles_entries (Example.flags0 false) Example.world0 "README" (File "" 420%N))
    as (H1 & _ & _).
  split.
  { apply H2; [reflexivity|discriminate|].
    exists ("notes.txt" +:+ Example.nl +:+ "new.txt" +:+ Example.nl +:+
            "same.txt" +:+ Example.nl +:+ "gone.txt" +:+ Example.nl),
           ("main" +:+ Example.nl), [".git/HEAD"].
    split; [reflexivity|]. split; [reflexivity|]. split; reflexivity. }
  split; [apply H1; left; reflexivity|].
  destruct (H3 "notes.txt") as (_ & Hname & Hblank); [reflexivity|by repeat constructor|].
  split; [exact Hname|]. apply Hblank. discriminate.
Defined.

(** * The force-included paths *)

Section ForceInclude.

Import Filepath.

(** [filepath.Rel] of two lists of names: what they share is dropped,
    what is left of the base is climbed, what is left of the target
    follows. *)
Lemma relElems_names base targ :
  Forall (λ e, validName e = true) base →
  ∃ shared base' targ',
    base = shared ++ base' ∧ targ = shared ++ targ' ∧
    relElems base targ = Some (((λ _, "..") <$> base') ++ targ').
Proof.
  intros Hb.
  assert (Hno : ∀ l, Forall (λ e, validName e = true) l → existsb (String.eqb "..") l = false).
  { intros l Hl. apply not_true_iff_false. intros (e & Hin & He)%existsb_exists.
    apply String.eqb_eq in He as <-. rewrite Forall_forall in Hl.
    apply list_elem_of_In, Hl in Hin. done. }
  revert targ. induction Hb as [|b base Hbv Hb IH]; intros targ.
  - exists [], [], targ. by destruct targ.
  - destruct targ as [|t targ].
    + exists [], (b :: base), []. split; [done|]. split; [done|].
      cbn [relElems]. by rewrite (Hno (b :: base)) by by constructor.
    + cbn [relElems]. destruct (String.eqb b t) eqn:Hbt.
      * apply String.eqb_eq in Hbt as <-.
        destruct (IH targ) as (shared & base' & targ' & -> & -> & ->).
        by exists (b :: shared), base', targ'.
      * rewrite (Hno (b :: base)) by by constructor.
        by exists [], (b :: base), (t :: targ).
Qed.

(** Each [..] takes a name off the stack. *)
Lemma cleanElems_pops rooted top kept elems :
  Forall (λ e, validName e = true) top →
  cleanElems rooted (top ++ kept) (((λ _, "..") <$> top) ++ elems)
  = cleanElems rooted kept elems.
Proof.
  induction 1 as [|e top He _ IH]; [done|].
  rewrite fmap_cons. simpl app.
  change (cleanElems rooted (e :: top ++ kept) (".." :: ?l))
    with (if String.eqb e ".." then cleanElems rooted (".." :: e :: top ++ kept) l
          else cleanElems rooted (top ++ kept) l).
  destruct (validName_eqb _ He) as (_ & _ & ->). apply IH.
Qed.

Lemma fmap_ups_rev (l : list string) : (λ _, "..") <$> rev l = (λ _ : string, "..") <$> l.
Proof.
  rewrite !(const_fmap _ _ "..") by done. by rewrite length_rev.
Qed.

(** The path [filepath.Rel] gives leads back to the file. *)
Lemma Join_relToProject base targ :
  Forall (λ e, validName e = true) base → Forall (λ e, validName e = true) targ →
  elements (Join (absPath base) (fromElements (relToProject base targ))) = targ.
Proof.
  intros Hb Ht. rewrite elements_Join_absPath by done.
  destruct (relElems_names base targ Hb) as (shared & base' & targ' & -> & -> & Hrel).
  unfold relToProject. rewrite Hrel.
  change (default [] (Some ?l)) with l.
  apply Forall_app in Hb as [Hs Hb']. apply Forall_app in Ht as [_ Ht'].
  rewrite rev_app_distr.
  assert (Hclean : cleanElems true (rev base' ++ rev shared) (((λ _, "..") <$> base') ++ targ')
                   = shared ++ targ').
  { rewrite <- fmap_ups_rev, cleanElems_pops by by apply Forall_rev.
    by rewrite cleanElems_names, rev_involutive. }
  destruct (((λ _, "..") <$> base') ++ targ') as [|x l] eqn:Hl.
  - apply app_eq_nil in Hl as [Hb0 ->]. apply fmap_nil_inv in Hb0 as ->.
    simpl. by rewrite rev_involutive, app_nil_r.
  - unfold fromElements. rewrite Split_Join; [done|done|].
    rewrite <- Hl. apply Forall_app. split; [|by apply names_pieces].
    apply Forall_fmap, Forall_true. done.
Qed.

Variable base : list string.
Hypothesis Hbase : Forall (λ e, validName e = true) base.

(** What the function given to [filepath.WalkDir] collects: the files
    of the walk, relative to the project. *)
Lemma includeWalked_subpaths (r0 : list string) (sub : list (list string * bool)) :
  Forall (λ e, validName e = true) r0 →
  (∀ q b, (q, b) ∈ sub → Forall (λ e, validName e = true) q) →
  includeWalked (absPath base) ((λ v, (absPath (r0 ++ v.1), v.2)) <$> sub)
  = Ok ((λ v, fromElements (relToProject base (r0 ++ v.1)))
          <$> List.filter (λ v, negb v.2) sub).
Proof using Hbase.
  intros Hr0. induction sub as [|[q b] sub IH]; intros Hsub; [done|].
  rewrite fmap_cons. cbn [includeWalked fst snd List.filter].
  rewrite IH by (intros q' b' Hin; eapply Hsub; by right).
  destruct b; simpl; [done|].
  assert (Hq : Forall (λ e, validName e = true) (r0 ++ q)).
  { apply Forall_app. split; [done|]. eapply Hsub. by left. }
  unfold Rel. rewrite !elements_absPath by done.
  unfold relToProject.
  destruct (relElems_names base (r0 ++ q) Hbase) as (? & ? & ? & _ & _ & ->). done.
Qed.

End ForceInclude.

Section ForceIncludeDir.

Variable base : list string.
Hypothesis Hbase : Forall (λ e, validName e = true) base.
Variable w : World.
Hypothesis Hwf : wfFs (projects w).

(** A force-included directory: the files under it, relative to the
    project. *)
Lemma forceInclude_Dir rel es :
  Os.resolve (projects w) (Filepath.Join (Filepath.absPath base) rel) = inr (Dir es) →
  ∃ r0, Forall (λ e, validName e = true) r0 ∧
        Filepath.elements (Filepath.Join (Filepath.absPath base) rel) = r0 ∧
        Os.walkTo (projects w) r0 = inr (Dir es) ∧
        forceInclude w (Filepath.absPath base) rel
        = Ok ((λ v, Filepath.fromElements (relToProject base (r0 ++ v.1)))
                <$> List.filter (λ v, negb v.2) (subpaths (Dir es))).
Proof using Hbase Hwf.
  intros Hres. exists (Filepath.elements (Filepath.Join (Filepath.absPath base) rel)).
  pose proof (elements_Join_valid base rel Hbase) as Hr0.
  split; [done|]. split; [done|]. split; [done|].
  assert (Hwfd : wfNode (Dir es)) by by eapply walkTo_wf.
  unfold forceInclude, Os.Stat, WalkDir. rewrite Hres.
  cbn [Os.IsNotExist panicIf rbind Os.IsDir].
  assert (Hj : Filepath.Join (Filepath.absPath base) rel
               = Filepath.absPath
                   (Filepath.elements (Filepath.Join (Filepath.absPath base) rel))).
  { rewrite (elements_Join_absPath base rel) by done. by apply Join_absPath. }
  revert Hr0 Hj. generalize (Filepath.elements (Filepath.Join (Filepath.absPath base) rel)).
  intros r0 Hr0 ->.
  rewrite walkDir_subpaths by done.
  rewrite includeWalked_subpaths; [done..|]. intros q b. by apply subpaths_valid.
Qed.

End ForceIncludeDir.




(** * Two runs in a row *)

Section TwoRuns.

Variable flags : Flags.
Variable w : World.
Variable B : list string.
Hypothesis HB : absolute (backupPath flags) B.

Local Abbreviation live := (withDryRun flags false).

Lemma settled_frame c backup backup' :
  fileAt backup' (backupAt flags c) = fileAt backup (backupAt flags c) →
  settled flags w c backup → settled flags w c backup'.
Proof.
  intros Heq [(d & m & Hf) Hdiff]. split; [exists d, m; congruence|].
  rewrite <- Hdiff. unfold diffOutput. f_equal. unfold Os.resolve.
  assert (Hf' : fileAt backup' (backupAt flags c) = Some (d, m)) by congruence.
  apply fileAt_walkTo in Hf. apply fileAt_walkTo in Hf'.
  unfold backupAt in *. congruence.
Qed.

(** A copy that succeeds settles the file, when git prints nothing for
    a file and its copy. *)
Lemma copyOrSay_settled c backup :
  quietOnSame (git w) →
  (∀ e, CopyFile c (Some e) ∉ (copyOrSay live w c backup).2) →
  settled flags w c (copyOrSay live w c backup).1 ∧
  dirAt backup (backupAt flags c) = false.
Proof.
  intros Hgit. unfold copyOrSay. simpl.
  destruct (copyFile _ _ _ _) as [backup' err] eqn:Hc. simpl. intros Hok.
  destruct err as [e|]; [destruct (Hok e); by left|].
  pose proof (copyFile_ok_not_dir _ _ _ _ _ Hc) as Hnd.
  apply copyFile_ok in Hc as (data & mode & Hsrc & Hdst%fileAt_nodeAt).
  split; [|done]. split.
  - by exists data, mode.
  - unfold diffOutput. rewrite Hsrc. apply fileAt_walkTo in Hdst.
    unfold Os.resolve at 1. rewrite Hdst. apply Hgit.
Qed.

Lemma copyOne_settled backup0 c files backup :
  quietOnSame (git w) →
  sourceExists flags w c = true →
  untouched flags backup0 files backup →
  (∀ e, CopyFile c (Some e) ∉ (copyOne live w c files backup).2) →
  settled flags w c (copyOne live w c files backup).1.2 ∧
  dirAt backup (backupAt flags c) = false.
Proof.
  intros Hgit Hs Hu. destruct (decide (c ∈ files)) as [Hin|Hin].
  - rewrite copyOne_backedUp by done.
    change (diffOutput live w c backup) with (diffOutput flags w c backup).
    destruct (Nat.eqb _ 0) eqn:Hlen.
    + intros _. apply length_zero in Hlen. cbn [fst snd].
      destruct (Hu c Hin) as (_ & d & m & _ & Hf). split; [split; eauto|].
      destruct (dirAt backup (backupAt flags c)) eqn:Hd; [|done].
      apply dirAt_fileAt in Hd. congruence.
    + cbn [fst snd]. intros Hok. apply copyOrSay_settled; [done|].
      intros e He. apply (Hok e). by right.
  - rewrite copyOne_new by done. cbn [fst snd]. by apply copyOrSay_settled.
Qed.

(** After the first loop every file of the projects that is there is
    settled, unless a copy failed, and none is where the backup had a
    directory. *)
Lemma copyPass_settled backup0 (dirs : list string) files :
  quietOnSame (git w) →
  NoDup files → Forall (λ p, inside p = true) files →
  ∀ backedUp backup,
    untouched flags backup0 backedUp backup →
    (∀ d, d ∈ dirs → dirAt backup (backupAt flags d) = true) →
    (∀ c e, CopyFile c (Some e) ∉ (copyPass live w files backedUp backup).2) →
    ∀ c, c ∈ files → sourceExists flags w c = true →
      settled flags w c (copyPass live w files backedUp backup).1.2 ∧
      ∀ d, d ∈ dirs → backupAt flags c ≠ backupAt flags d.
Proof using HB.
  intros Hgit Hnd Hclean.
  induction Hnd as [|c0 files Hc0 Hnd IH]; intros backedUp backup Hu Hdirs Hok c Hc Hs.
  { by apply elem_of_nil in Hc. }
  apply Forall_cons in Hclean as [Hclean0 Hclean].
  cbn [copyPass] in *.
  pose proof (copyOne_untouched flags w B HB backup0 c0 backedUp backup Hclean0 Hu) as Hu1.
  pose proof (λ q, copyOne_keeps live w (λ b, dirAt b q = true) c0 backedUp backup) as Hd1.
  pose proof (copyOne_settled backup0 c0 backedUp backup Hgit) as Hs1.
  destruct (copyOne live w c0 backedUp backup) as [[backedUp1 backup1] evs1].
  pose proof (copyPass_frame live w files backedUp1 backup1) as Hframe.
  specialize (IH Hclean backedUp1 backup1 Hu1).
  destruct (copyPass live w files backedUp1 backup1) as [[backedUp2 backup2] evs2].
  cbn [fst snd] in *.
  apply elem_of_cons in Hc as [->|Hc].
  - destruct Hs1 as [Hs1 Hnd0]; [done..| |].
    { intros e He. apply (Hok c0 e). apply elem_of_app. by left. }
    split.
    + eapply settled_frame; [|done]. apply Hframe. intros c' Hc' _ Heq.
      apply Hc0. rewrite Forall_forall in Hclean.
      by rewrite (backupAt_inj flags B HB c0 c' Hclean0 (Hclean _ Hc') Heq).
    + intros d Hd Heq. rewrite Heq, (Hdirs d Hd) in Hnd0. done.
  - apply IH; [|by intros c' e He; apply (Hok c' e), elem_of_app; right|done..].
    intros d Hd. apply Hd1; [by apply Hdirs|]. intros Hq.
    by apply (copyOrSay_dirAt live w).
Qed.

(** ** A run and the run after it *)

Hypothesis Hgit : quietOnSame (git w).
Hypothesis Hrange : ∀ s, mapRange w s ≡ₚ elements s.

Lemma elem_of_mapRange p s : p ∈ mapRange w s ↔ p ∈ s.
Proof using Hrange. by rewrite (Hrange s), elem_of_elements. Qed.

(** What a run leaves: every file of the projects that is there is
    settled, and every file of the backup directory is one of them. *)
Lemma reconcile_settles backup0 dirs backedUp files :
  wfFs backup0 → snapshot flags backup0 = Ok (dirs, backedUp) →
  NoDup files → Forall (λ p, inside p = true) files →
  let r := reconcile live w files dirs backedUp backup0 in
  (∀ c e, CopyFile c (Some e) ∉ r.2) →
  wfFs r.1 ∧
  (∀ c, c ∈ files → sourceExists flags w c = true → settled flags w c r.1) ∧
  (∀ q d m, fileAt r.1 (B ++ q) = Some (d, m) →
     Filepath.fromElements q ∈ files ∧
     sourceExists flags w (Filepath.fromElements q) = true).
Proof using HB Hgit Hrange.
  intros Hwf Hsnap Hnd Hclean. cbv zeta. unfold reconcile.
  pose proof (snapshot_untouched flags B HB backup0 dirs backedUp Hwf Hsnap) as Hu0.
  pose proof (copyPass_wf live w B HB files backedUp backup0 Hwf) as Hwf1.
  assert (Hdirs0 : ∀ d, d ∈ dirs → dirAt backup0 (backupAt flags d) = true).
  { intros d (q & -> & Hq & Hd)%(elem_of_snapshot_dirs flags B HB backup0 dirs backedUp);
      [|done..].
    by rewrite (backupAt_fromElements flags B HB). }
  pose proof (copyPass_settled backup0 dirs files Hgit Hnd Hclean backedUp backup0 Hu0 Hdirs0)
    as Hset1.
  pose proof (copyPass_frame live w files backedUp backup0) as Hfr1.
  pose proof (λ p, elem_of_copyPass_left live w files backedUp backup0 p) as Hleft.
  destruct (copyPass live w files backedUp backup0) as [[backedUp1 backup1] evs1].
  cbn [fst snd] in *.
  pose proof (deletePass_wf live B HB (mapRange w backedUp1) backup1 Hwf1) as Hwf2.
  pose proof (deletePass_frame live (mapRange w backedUp1) backup1) as Hfr2.
  pose proof (deletePass_removes live eq_refl (mapRange w backedUp1) backup1) as Hrm2.
  pose proof (deletePass_keeps_absent live (mapRange w backedUp1) backup1) as Hk2.
  destruct (deletePass live (mapRange w backedUp1) backup1) as [backup2 evs2].
  cbn [fst snd] in *.
  pose proof (prunePass_wf live B HB dirs backup2 Hwf2) as Hwf3.
  pose proof (prunePass_frame live dirs backup2) as Hfr3.
  pose proof (prunePass_keeps_absent live dirs backup2) as Hk3.
  destruct (prunePass live dirs backup2) as [backup3 evs3].
  cbn [fst snd] in *. intros Hok.
  change (backupAt live) with (backupAt flags) in *.
  change (sourceExists live w) with (sourceExists flags w) in *.
  assert (Hok1 : ∀ c e, CopyFile c (Some e) ∉ evs1).
  { intros c e He. apply (Hok c e). apply elem_of_app. by left. }
  specialize (Hset1 Hok1). rewrite Forall_forall in Hclean.
  split; [done|]. split.
  - intros c Hc Hs. destruct (Hset1 c Hc Hs) as [Hsettled Hdirs].
    eapply settled_frame; [|done]. rewrite Hfr3 by done. apply Hfr2.
    intros p [Hp Hnot]%elem_of_mapRange%Hleft Heq. apply Hnot.
    destruct (Hu0 p Hp) as [Hcp _].
    by rewrite <- (backupAt_inj flags B HB c p (Hclean _ Hc) Hcp Heq).
  - intros q d m Hf3.
    pose proof (fileAt_names _ _ _ _ Hwf3 Hf3) as [_ Hq]%Forall_app.
    set (p := Filepath.fromElements q).
    assert (Hat : backupAt flags p = B ++ q) by by apply (backupAt_fromElements flags B HB).
    destruct (decide (p ∈ files ∧ sourceExists flags w p = true)) as [Hin|Hnot]; [done|].
    exfalso.
    assert (Hf2 : fileAt backup2 (B ++ q) ≠ None).
    { intros Hn. by rewrite (Hk3 _ Hn) in Hf3. }
    apply Hf2. rewrite <- Hat. apply Hrm2.
    apply elem_of_mapRange, Hleft. split; [|done].
    assert (Hf1 : fileAt backup1 (B ++ q) ≠ None).
    { intros Hn. by apply Hf2, Hk2. }
    rewrite Hfr1 in Hf1.
    + destruct (fileAt backup0 (B ++ q)) as [[d0 m0]|] eqn:Hf0; [|done].
      apply (elem_of_snapshot flags B HB backup0 dirs backedUp); [done..|].
      by exists q, d0, m0.
    + intros c Hc Hs Heq. apply Hnot.
      assert (c = p) as <-; [|done].
      apply (backupAt_inj flags B HB); [by apply Hclean|by apply inside_fromElements|].
      congruence.
Qed.

(** The first loop on a backup where every file of the projects is
    settled copies nothing. *)
Lemma copyPass_quiet files :
  NoDup files →
  ∀ backedUp backup,
    (∀ c, c ∈ files → sourceExists flags w c = true →
          c ∈ backedUp ∧ settled flags w c backup) →
    (copyPass live w files backedUp backup).1.2 = backup ∧
    omap did (copyPass live w files backedUp backup).2 = [].
Proof.
  induction 1 as [|c files Hc Hnd IH]; intros backedUp backup Hall; [done|].
  cbn [copyPass].
  assert (H1 : (copyOne live w c backedUp backup).1.2 = backup ∧
               omap did (copyOne live w c backedUp backup).2 = []).
  { destruct (sourceExists flags w c) eqn:Hs; [|by rewrite copyOne_missing].
    destruct (Hall c) as [Hin [_ Hdiff]]; [by left|done|].
    rewrite copyOne_backedUp by done.
    change (diffOutput live w c backup) with (diffOutput flags w c backup).
    by rewrite Hdiff. }
  pose proof (copyOne_left live w c backedUp backup) as Hl.
  destruct (copyOne live w c backedUp backup) as [[backedUp1 backup1] evs1].
  cbn [fst snd] in *. destruct H1 as [-> Hd1].
  destruct (IH backedUp1 backup) as [IH1 IH2].
  { intros c' Hc' Hs'. destruct (Hall c') as [Hin Hset]; [by right|done|].
    split; [|done]. rewrite Hl.
    change (sourceExists live w c) with (sourceExists flags w c).
    destruct (sourceExists flags w c); [|done].
    apply elem_of_difference. split; [done|]. intros ->%elem_of_singleton. done. }
  destruct (copyPass live w files backedUp1 backup) as [[backedUp2 backup2] evs2].
  cbn [fst snd] in *. split; [done|]. by rewrite omap_app, Hd1, IH2.
Qed.

(** A run on such a backup, with no other file in the backup
    directory, copies nothing and removes no file, whatever the order of
    its [range]. *)
Lemma reconcile_quiet order backup1 dirs backedUp files :
  (∀ s, order s ≡ₚ elements s) →
  wfFs backup1 → snapshot flags backup1 = Ok (dirs, backedUp) →
  NoDup files → Forall (λ p, inside p = true) files →
  (∀ c, c ∈ files → sourceExists flags w c = true → settled flags w c backup1) →
  (∀ q d m, fileAt backup1 (B ++ q) = Some (d, m) →
     Filepath.fromElements q ∈ files ∧
     sourceExists flags w (Filepath.fromElements q) = true) →
  omap did (reconcile live (withRange w order) files dirs backedUp backup1).2 = [].
Proof using HB.
  intros Horder Hwf Hsnap Hnd Hclean Hset Hall. unfold reconcile.
  rewrite copyPass_withRange. cbn [mapRange withRange].
  rewrite Forall_forall in Hclean.
  destruct (copyPass_quiet files Hnd backedUp backup1) as [Hb Hd].
  { intros c Hc Hs. split; [|by apply Hset].
    destruct (Hset c Hc Hs) as [(d & m & Hf) _].
    apply (elem_of_snapshot flags B HB backup1 dirs backedUp); [done..|].
    pose proof (Hclean _ Hc) as Hin. pose proof Hin as [Hq Hfrom]%inside_spec.
    exists (relElements c), d, m. split; [done|]. split; [done|].
    by rewrite <- (backupAt_inside flags B HB). }
  pose proof (λ p, elem_of_copyPass_left live w files backedUp backup1 p) as Hleft.
  destruct (copyPass live w files backedUp backup1) as [[backedUp1 backup1'] evs1].
  cbn [fst snd] in *. subst backup1'.
  assert (backedUp1 = ∅) as ->.
  { apply leibniz_equiv. apply elem_of_equiv_empty. intros p [Hp Hnot]%Hleft. apply Hnot.
    apply (elem_of_snapshot flags B HB backup1 dirs backedUp) in Hp
      as (q & d & m & -> & Hq & Hf); [|done..].
    by eapply Hall. }
  assert (order ∅ = []) as ->.
  { apply Permutation_nil_r. by rewrite (Horder ∅), elements_empty. }
  cbn [deletePass].
  pose proof (did_prunePass live dirs backup1) as Hp.
  destruct (prunePass live dirs backup1) as [backup3 evs3].
  cbn [fst snd] in *. by rewrite !omap_app, Hd, Hp.
Qed.

End TwoRuns.

Lemma copyFailed_filter evs c e : List.filter copyFailed evs = [] → CopyFile c (Some e) ∉ evs.
Proof.
  intros Hf Hin. apply list_elem_of_In in Hin.
  assert (In (CopyFile c (Some e)) (List.filter copyFailed evs)) as Hin'.
  { by apply filter_In. }
  by rewrite Hf in Hin'.
Qed.




(** * More on the tree *)

Section Paths.

(** A change goes through when the way to it is there and the change
    itself does. *)
Lemma alterAt_app f q1 q2 t n o :
  Os.walkTo t q1 = inr n → Os.alterAt f q2 (Some n) = inr o →
  ∃ t', Os.alterAt f (q1 ++ q2) t = inr t'.
Proof.
  revert t. induction q1 as [|e q1 IH]; intros t; simpl.
  - destruct t as [n'|]; [|done]. intros [= ->] Hf. eauto.
  - destruct t as [[d m|es]|]; [done| |done]. intros Hw Hf.
    destruct (IH _ Hw Hf) as [r Hr]. rewrite Hr. destruct r; eauto.
Qed.

Lemma alterAt_walkTo f q t n o :
  Os.walkTo t q = inr n → f (Some n) = inr o → ∃ t', Os.alterAt f q t = inr t'.
Proof.
  intros Hw Hf. rewrite <- (app_nil_r q). by eapply alterAt_app.
Qed.

(** Nothing is under a regular file. *)
Lemma walkTo_under_file t q1 e q2 d m :
  fileAt t q1 = Some (d, m) → Os.walkTo t (q1 ++ e :: q2) = inl ENOTDIR.
Proof.
  intros Hf%fileAt_walkTo. by rewrite (walkTo_app _ _ _ _ Hf).
Qed.

Lemma alterAt_under_file f t q1 e q2 d m :
  fileAt t q1 = Some (d, m) → Os.alterAt f (q1 ++ e :: q2) t = inl ENOTDIR.
Proof.
  revert t. induction q1 as [|x q1 IH]; intros t; simpl.
  - by destruct t as [[d' m'|es]|].
  - destruct t as [[d' m'|es]|]; [done| |done]. rewrite fileAt_cons.
    intros Hf. by rewrite (IH _ Hf).
Qed.

(** [walkTo] fails for a missing entry, or for a regular file on the
    way. *)
Lemma walkTo_error t q e :
  Os.walkTo t q = inl e →
  e = ENOENT ∨ ∃ q1 d m, q1 `prefix_of` q ∧ q1 ≠ q ∧ fileAt t q1 = Some (d, m).
Proof.
  revert t. induction q as [|x q IH]; intros t; simpl.
  - destruct t; [done|]. intros [= <-]. by left.
  - destruct t as [[d m|es]|]; [| |intros [= <-]; by left].
    + intros _. right. exists [], d, m. split; [apply prefix_nil|done].
    + intros [->|(q1 & d & m & Hp & Hne & Hf)]%IH; [by left|]. right.
      exists (x :: q1), d, m. split; [by apply prefix_cons|]. split; [congruence|done].
Qed.

(** ** What [os.Remove] leaves *)

(** A removal changes nothing at a path it is not under. *)
Lemma alterAt_removeNode_nodeAt p t t' q :
  Os.alterAt Os.removeNode p t = inr t' → ¬ q `prefix_of` p → nodeAt t' q = nodeAt t q.
Proof.
  revert t t' q. induction p as [|e p IH]; intros t t' q; simpl.
  - intros Hr Hq. destruct q as [|e' q']; [destruct Hq; apply prefix_nil|].
    destruct t as [[d m|[|x es]]|]; simpl in Hr; simplify_eq.
    + by rewrite nodeAt_None.
    + rewrite nodeAt_cons. simpl. by rewrite !nodeAt_None.
  - destruct t as [[d m|es]|]; [done| |done].
    destruct (Os.alterAt Os.removeNode p (Os.getEntry e es)) as [err|r] eqn:Hr; [done|].
    intros Ht' Hq. destruct q as [|e' q']; [destruct Hq; apply prefix_nil|].
    assert (∃ es', t' = Some (Dir es') ∧
                   ∀ x, Os.getEntry x es' = if String.eqb e x then r else Os.getEntry x es)
      as (es' & -> & Hes').
    { destruct r as [c|]; injection Ht' as <-; eexists; (split; [done|]); intros x.
      - apply getEntry_setEntry_if.
      - destruct (String.eqb e x) eqn:Hee.
        + apply String.eqb_eq in Hee as <-. apply getEntry_delEntry.
        + apply String.eqb_neq in Hee. by apply getEntry_delEntry_ne. }
    rewrite !nodeAt_cons, Hes'. destruct (String.eqb e e') eqn:Hee; [|done].
    apply String.eqb_eq in Hee as <-. apply (IH _ _ _ Hr).
    intros Hp. apply Hq. by apply prefix_cons.
Qed.

(** After [os.Remove] of a path there is no empty directory at it. *)
Lemma Remove_not_empty t path t' err :
  Os.Remove t path = (t', err) →
  nodeAt t' (Filepath.elements path) ≠ Some (Dir []).
Proof.
  unfold Os.Remove, Os.change. intros Hr.
  destruct (Os.alterAt _ _ _) as [e|r] eqn:Ha; injection Hr as <- <-.
  - intros Hn. unfold nodeAt in Hn.
    destruct (Os.walkTo t _) as [|n] eqn:Hw; [done|]. injection Hn as ->.
    destruct (alterAt_walkTo Os.removeNode _ _ _ None Hw eq_refl) as [t' Ht'].
    congruence.
  - apply alterAt_nodeAt in Ha. intros Hn. rewrite Hn in Ha.
    by destruct (nodeAt t _) as [[?|[|??]]|].
Qed.

Lemma Remove_nodeAt t path t' err q :
  Os.Remove t path = (t', err) →
  ¬ q `prefix_of` Filepath.elements path → nodeAt t' q = nodeAt t q.
Proof.
  intros Hr Hq. destruct err as [e|]; [by rewrite (change_err _ _ _ _ _ _ Hr)|].
  apply change_ok in Hr. by eapply alterAt_removeNode_nodeAt.
Qed.

(** [os.Remove] makes no file: a file found after it was there. *)
Lemma Remove_fileAt_Some t path t' err q x :
  Os.Remove t path = (t', err) → fileAt t' q = Some x → fileAt t q = Some x.
Proof.
  intros Hr Hq. destruct (fileAt t q) as [y|] eqn:Hf.
  - destruct (decide (q = Filepath.elements path)) as [->|Hne].
    + destruct err as [e|]; [rewrite (change_err _ _ _ _ _ _ Hr) in Hq; congruence|].
      apply Remove_ok_absent in Hr. congruence.
    + rewrite (change_fileAt _ _ _ _ _ _ q localChange_removeNode Hr) in Hq by done.
      congruence.
  - rewrite (Remove_keeps_absent _ _ _ _ _ Hf Hr) in Hq. done.
Qed.

(** ** What [os.MkdirAll] makes *)

Lemma dirAt_mkdirChain p q : dirAt (Some (Os.mkdirChain p)) q = true → q `prefix_of` p.
Proof.
  revert q. induction p as [|e p IH]; intros [|e' q]; simpl; try (intros; apply prefix_nil).
  - rewrite dirAt_cons. simpl. by rewrite dirAt_None.
  - rewrite dirAt_cons. simpl. destruct (String.eqb e e') eqn:Hee.
    + apply String.eqb_eq in Hee as <-. intros Hq%IH. by apply prefix_cons.
    + by rewrite dirAt_None.
Qed.

Lemma mkdirChain_dirAt p : dirAt (Some (Os.mkdirChain p)) p = true.
Proof.
  induction p as [|e p IH]; [done|]. simpl Os.mkdirChain. rewrite dirAt_cons. simpl.
  by rewrite String.eqb_refl.
Qed.

(** [os.MkdirAll] goes through when no regular file is on the way; the
    directory is there then, and the directories of the tree are the
    ones it had and the ones on the way. *)
Lemma mkdirAllAt_ok p t :
  (∀ q1, q1 `prefix_of` p → fileAt t q1 = None) →
  ∃ n, Os.mkdirAllAt p t = inr n ∧ dirAt (Some n) p = true ∧
       ∀ q, dirAt (Some n) q = true → dirAt t q = true ∨ q `prefix_of` p.
Proof.
  revert t. induction p as [|e p IH]; intros t Hno.
  - destruct t as [[d m|es]|]; simpl.
    + by specialize (Hno [] (prefix_nil _)).
    + exists (Dir es). split; [done|]. split; [done|]. by left.
    + exists (Dir []). split; [done|]. split; [done|]. intros q Hq.
      right. by apply (dirAt_mkdirChain []).
  - destruct t as [[d m|es]|]; cbn [Os.mkdirAllAt].
    + by specialize (Hno [] (prefix_nil _)).
    + destruct (IH (Os.getEntry e es)) as (c & Hc & Hd & Hinv).
      { intros q1 Hq1. rewrite <- fileAt_cons. apply Hno. by apply prefix_cons. }
      rewrite Hc. eexists. split; [done|]. split.
      * by rewrite dirAt_cons, getEntry_setEntry.
      * intros [|e' q]; [intros _; right; apply prefix_nil|].
        rewrite !dirAt_cons, getEntry_setEntry_if.
        destruct (String.eqb e e') eqn:Hee; [|by left].
        apply String.eqb_eq in Hee as <-.
        intros [Hq|Hq]%Hinv; [by left|]. right. by apply prefix_cons.
    + eexists. split; [done|]. split; [apply (mkdirChain_dirAt (e :: p))|].
      intros q Hq. right. by apply (dirAt_mkdirChain (e :: p)).
Qed.

End Paths.

(** * [copyFile] *)

Section CopyFile.

Lemma walkTo_parents t q1 x q2 n :
  Os.walkTo t (q1 ++ x :: q2) = inr n → dirAt t q1 = true.
Proof.
  revert t. induction q1 as [|e q1 IH]; intros t; simpl.
  - by destruct t as [[d m|es]|].
  - destruct t as [[d m|es]|]; [done| |done]. rewrite dirAt_cons. apply IH.
Qed.

Lemma strict_prefix q1 (q : list string) :
  q1 `prefix_of` q → q1 ≠ q → ∃ x q2, q = q1 ++ x :: q2.
Proof.
  intros [[|x q2] ->] Hne; [by rewrite app_nil_r in Hne|eauto].
Qed.

(** A change of what is at a path goes through when something is there
    and the change takes it. *)
Lemma change_walkTo op f t path n o :
  Os.walkTo t (Filepath.elements path) = inr n → f (Some n) = inr o →
  ∃ t', Os.change op f t path = (t', None) ∧ nodeAt t' (Filepath.elements path) = o.
Proof.
  intros Hw Hf. destruct (alterAt_walkTo f _ _ _ _ Hw Hf) as [t' Ht'].
  exists t'. unfold Os.change. rewrite Ht'. split; [done|].
  apply alterAt_nodeAt in Ht'. unfold nodeAt in Ht' at 1. rewrite Hw in Ht'. congruence.
Qed.

(** The first step of [copyFile] for an absolute destination: what
    [os.Stat] finds where the directory of the destination should
    be. *)
Lemma makeDstDir_parent backup q' x :
  Forall (λ e, validName e = true) (q' ++ [x]) →
  makeDstDir backup (Filepath.absPath (q' ++ [x]))
  = match Os.walkTo backup q' with
    | inl ENOENT =>
        match Os.mkdirAllAt q' backup with
        | inl e => (backup, Some (PathError "mkdir" (Filepath.absPath q') e))
        | inr n => (Some n, None)
        end
    | _ => (backup, None)
    end.
Proof.
  intros Hq. pose proof Hq as [Hq' _]%Forall_app.
  unfold makeDstDir. rewrite Dir_absPath by done.
  unfold Os.Stat. rewrite resolve_absPath by done.
  destruct (Os.walkTo backup q') as [[]|n]; try done. simpl.
  unfold Os.MkdirAll. by rewrite elements_absPath by done.
Qed.

End CopyFile.

(** X1: when [copyFile] returns no error, the source is a regular file,
    the destination is a regular file with the content and the mode of
    the source, and every directory on the way to it is there. *)
Theorem copyFile_copies src backup srcPath dstPath backup' :
  copyFile src backup srcPath dstPath = (backup', None) →
  ∃ data mode,
    Os.resolve src srcPath = inr (File data mode) ∧
    fileAt backup' (Filepath.elements dstPath) = Some (data, mode) ∧
    ∀ q1, q1 `prefix_of` Filepath.elements dstPath → q1 ≠ Filepath.elements dstPath →
          dirAt backup' q1 = true.
Proof.
  intros Hc.
  apply copyFile_ok in Hc as (data & mode & Hsrc & Hdst).
  exists data, mode. split; [done|]. split; [by apply fileAt_nodeAt|].
  intros q1 Hp Hne. destruct (strict_prefix _ _ Hp Hne) as (x & q2 & Hq).
  unfold nodeAt in Hdst. destruct (Os.walkTo backup' _) as [|n] eqn:Hw; [done|].
  rewrite Hq in Hw. by eapply walkTo_parents.
Qed.

Lemma copyFile_copies_witness :
  ∃ backup',
    copyFile Example.projects0 Example.backup0 "/projects/app/new.txt" "/backup/app/new.txt"
    = (backup', None) ∧
    fileAt backup' ["backup"; "app"; "new.txt"] = Some ("n", 420%N).
Proof.
  destruct (copyFile Example.projects0 Example.backup0
              "/projects/app/new.txt" "/backup/app/new.txt")
    as [backup' [e|]] eqn:Hc; [vm_compute in Hc; discriminate|].
  exists backup'. split; [reflexivity|].
  destruct (copyFile_copies _ _ _ _ _ Hc) as (data & mode & Hsrc & Hdst & _).
  vm_compute in Hsrc. injection Hsrc as <- <-. exact Hdst.
Defined.

(** X2: whatever [copyFile] returns, an error or none, no file of the
    backup other than the destination is changed, made or removed, a file
    that was at the destination is still a file, and every directory of
    the backup is still a directory. *)
Theorem copyFile_keeps_rest src backup srcPath dstPath backup' err :
  copyFile src backup srcPath dstPath = (backup', err) →
  (∀ q, q ≠ Filepath.elements dstPath → fileAt backup' q = fileAt backup q) ∧
  (∀ q d m, fileAt backup q = Some (d, m) → ∃ d' m', fileAt backup' q = Some (d', m')) ∧
  (∀ q, dirAt backup q = true → dirAt backup' q = true).
Proof.
  intros Hc. split; [|split].
  - intros q Hq. by eapply copyFile_fileAt.
  - intros q d m Hq. by eapply copyFile_keeps_file.
  - intros q Hq. by eapply copyFile_dirAt.
Qed.

Lemma copyFile_keeps_rest_witness :
  ∃ backup' err,
    copyFile Example.projects0 Example.backup0 "/projects/app/lost.txt" "/backup/app/lost.txt"
    = (backup', Some err) ∧
    fileAt backup' ["backup"; "app"; "old.txt"] = Some ("o", 420%N) ∧
    dirAt backup' ["backup"; "tmp"; "cache"] = true.
Proof.
  destruct (copyFile Example.projects0 Example.backup0
              "/projects/app/lost.txt" "/backup/app/lost.txt")
    as [backup' [e|]] eqn:Hc; [|vm_compute in Hc; discriminate].
  exists backup', e. split; [reflexivity|].
  destruct (copyFile_keeps_rest _ _ _ _ _ _ Hc) as (Hfiles & _ & Hdirs). split.
  - rewrite Hfiles; [reflexivity|discriminate].
  - apply Hdirs. reflexivity.
Defined.





(** X5: [copyFile] to an absolute path that goes through a regular file
    returns an error and leaves the backup as it was; no directory is
    made. *)
Theorem copyFile_under_file src backup srcPath q1 x q2 d m :
  Forall (λ e, validName e = true) (q1 ++ x :: q2) →
  fileAt backup q1 = Some (d, m) →
  ∃ err, copyFile src backup srcPath (Filepath.absPath (q1 ++ x :: q2)) = (backup, Some err).
Proof.
  intros HE Hf.
  assert (Hel : Filepath.elements (Filepath.absPath (q1 ++ x :: q2)) = q1 ++ x :: q2)
    by by apply elements_absPath.
  destruct (exists_last (l := x :: q2)) as (r & y & Hr); [done|].
  assert (Hq' : q1 ++ x :: q2 = (q1 ++ r) ++ [y]) by by rewrite Hr, app_assoc.
  unfold copyFile. rewrite Hq' in HE |- *. rewrite (makeDstDir_parent backup (q1 ++ r) y HE).
  assert (Os.walkTo backup (q1 ++ r) = inr (File d m) ∨ Os.walkTo backup (q1 ++ r) = inl ENOTDIR)
    as Hw.
  { destruct r as [|z r].
    - left. rewrite app_nil_r. by apply fileAt_walkTo.
    - right. by eapply walkTo_under_file. }
  assert (match Os.walkTo backup (q1 ++ r) with
          | inl ENOENT =>
              match Os.mkdirAllAt (q1 ++ r) backup with
              | inl e => (backup, Some (PathError "mkdir" (Filepath.absPath (q1 ++ r)) e))
              | inr n => (Some n, None)
              end
          | _ => (backup, None)
          end = (backup, None)) as ->.
  { by destruct Hw as [-> | ->]. }
  destruct (Os.resolve src srcPath) as [e|sourceFile]; [eauto|].
  unfold Os.Create, Os.change. rewrite <- Hq', Hel.
  rewrite (alterAt_under_file _ _ _ _ _ _ _ Hf). eauto.
Qed.

Lemma copyFile_under_file_witness :
  ∃ err,
    copyFile Example.projects0 Example.backup0 "/projects/app/new.txt"
      (Filepath.absPath (["backup"; "app"; "notes.txt"] ++ "new.txt" :: []))
    = (Example.backup0, Some err).
Proof.
  apply (copyFile_under_file Example.projects0 Example.backup0 "/projects/app/new.txt"
           ["backup"; "app"; "notes.txt"] "new.txt" [] "b" 420%N);
    [by repeat constructor|reflexivity].
Defined.

(** * The projects *)

Section Projects.

Variable flags : Flags.
Variable w : World.
Variable P : list string.
Hypothesis HP : absolute (projectsPath flags) P.

(** What [os.Stat] of [.git] in a project directory resolves to. *)
Lemma resolve_dotGit es name es' :
  Os.walkTo (projects w) P = inr (Dir es) → Os.getEntry name es = Some (Dir es') →
  validName name = true →
  Os.resolve (projects w)
    (Filepath.Join (Filepath.Join (projectsPath flags) name) ".git")
  = Os.walkTo (Os.getEntry ".git" es') [].
Proof using HP.
  destruct HP as [HPv ->]. intros Hes Hname Hv.
  rewrite Join_absPath_name by done.
  rewrite Join_absPath_name by (done || by apply validNames_snoc).
  rewrite resolve_absPath by (apply validNames_snoc; [by apply validNames_snoc|done]).
  rewrite <- app_assoc. rewrite (walkTo_app _ _ _ _ Hes). simpl. by rewrite Hname.
Qed.

Lemma projectFiles_visit es :
  Os.walkTo (projects w) P = inr (Dir es) →
  projectFiles flags w = visitProjects flags w es.
Proof using HP.
  destruct HP as [HPv HPp]. intros Hes. unfold projectFiles, Os.ReadDir.
  by rewrite HPp, resolve_absPath, Hes.
Qed.

Lemma visitProjects_Panic es name c e :
  (name, c) ∈ es → visitProject flags w (name, c) = Panic e →
  ∃ e', visitProjects flags w es = Panic e'.
Proof.
  induction es as [|[name' c'] es IH]; [by intros ?%elem_of_nil|].
  intros [[= -> ->]|Hin]%elem_of_cons Hv; cbn [visitProjects].
  - rewrite Hv. simpl. eauto.
  - destruct (visitProject flags w (name', c')) as [out|e1]; simpl; [|eauto].
    destruct (IH Hin Hv) as [e' ->]. simpl. eauto.
Qed.

(** The lines of the names that git prints, one on each line: the
    names, and an empty line at the end. *)
Lemma Split_line s rest :
  hasNewline s = false →
  GoStrings.Split newline (s +:+ String newline rest) = s :: GoStrings.Split newline rest.
Proof.
  induction s as [|c s IH]; simpl.
  - done.
  - intros [Hc Hs]%orb_false_iff. by rewrite Hc, (IH Hs).
Qed.

Lemma lines_printed names :
  Forall (λ s, hasNewline s = false) names → lines (printed names) = names ++ [""].
Proof.
  unfold lines, Filepath.FromSlash. induction 1 as [|s names Hs _ IH]; [done|].
  simpl printed. by rewrite Split_line, IH.
Qed.

End Projects.

(** X6: an entry of the projects directory that is a regular file, or a
    directory with no [.git] in it, adds nothing to the files to back up;
    no [git] command is run for it, so whatever [git] would answer there
    makes no difference. *)
Theorem visitProject_skips flags w P es name c :
  absolute (projectsPath flags) P →
  Os.walkTo (projects w) P = inr (Dir es) → Os.getEntry name es = Some c →
  validName name = true →
  (Os.IsDir c = false ∨ ∃ es', c = Dir es' ∧ Os.getEntry ".git" es' = None) →
  visitProject flags w (name, c) = Ok [].
Proof.
  intros HP Hes Hname Hv [Hfile|(es' & -> & Hgit)]; unfold visitProject; simpl.
  - by rewrite Hfile.
  - unfold Os.Stat. rewrite (resolve_dotGit flags w P HP es name es') by done.
    by rewrite Hgit.
Qed.

Lemma visitProject_skips_witness :
  visitProject (Example.flags0 false)
    {| lookPathGit := None; git := Example.gitFailing;
       projects := Some (Dir [("projects", Dir [("docs", Dir [("readme.md", File "r" 420)])])]);
       mapRange := elements |}
    ("docs", Dir [("readme.md", File "r" 420)]) = Ok [].
Proof.
  apply (visitProject_skips _ _ ["projects"] [("docs", Dir [("readme.md", File "r" 420)])]).
  - apply absolute_projects0.
  - reflexivity.
  - reflexivity.
  - reflexivity.
  - right. eexists. split; reflexivity.
Defined.

(** X7: when no branch is checked out, the current branch name being
    empty or blank, the files that differ from the remote branch are not
    asked for: the files of the project are the untracked ones and the
    force-included ones, whatever [git diff --name-only] would answer and
    whatever the remote name is. *)
Theorem detached_head flags w name untracked branch forced :
  lsFilesOthers (git w) name = (untracked, None) →
  branchShowCurrent (git w) name = (branch, None) →
  GoStrings.TrimSpace branch = "" →
  forceIncludeAll w (Filepath.Join (projectsPath flags) name) (forceIncludedRelPaths flags)
  = Ok forced →
  includedFiles flags w name = Ok (lines untracked ++ forced).
Proof.
  intros Hls Hbr Hblank Hforced. unfold includedFiles, unpushedFiles.
  rewrite Hls, Hbr. simpl. rewrite Hblank. simpl. by rewrite Hforced.
Qed.

Lemma detached_head_witness :
  includedFiles Example.flagsShared Example.worldShared "app" = Ok [""; "../shared.env"].
Proof.
  apply (detached_head Example.flagsShared Example.worldShared "app" "" "" ["../shared.env"]);
    reflexivity.
Defined.

(** X8: when [git ls-files] or [git branch --show-current] fails in a
    project, a directory of the projects directory with a [.git] in it,
    the run panics with that error for the project, and the whole run
    ends in a panic: no file of any project is copied or removed. *)
Theorem git_failure_stops_run flags w P backup es name es' e :
  absolute (projectsPath flags) P →
  wfFs (projects w) → Os.walkTo (projects w) P = inr (Dir es) →
  (name, Dir es') ∈ es → Os.getEntry ".git" es' ≠ None →
  ((lsFilesOthers (git w) name).2 = Some e ∨
   ((lsFilesOthers (git w) name).2 = None ∧ (branchShowCurrent (git w) name).2 = Some e)) →
  visitProject flags w (name, Dir es') = Panic e ∧
  ∃ e', main flags w backup = Panic e'.
Proof.
  intros HP Hwf Hes Hin Hgit Hfail.
  pose proof (walkTo_wf _ _ _ Hwf Hes) as Hwfd.
  pose proof Hwfd as [Hnd Hall]%wfNode_Dir. rewrite Forall_forall in Hall.
  destruct (Hall _ Hin) as [Hv _]. simpl in Hv.
  pose proof (getEntry_NoDup _ _ _ Hnd Hin) as Hname.
  assert (Hvisit : visitProject flags w (name, Dir es') = Panic e).
  { unfold visitProject. simpl. unfold Os.Stat.
    rewrite (resolve_dotGit flags w P HP es name es') by done.
    destruct (Os.getEntry ".git" es') as [g|]; [|done]. simpl.
    unfold includedFiles.
    destruct (lsFilesOthers (git w) name) as [out1 err1].
    destruct (branchShowCurrent (git w) name) as [out2 err2]. simpl in Hfail.
    destruct Hfail as [->|[-> ->]]; done. }
  split; [done|]. unfold main. destruct (lookPathGit w) as [e0|]; simpl; [eauto|].
  destruct (snapshot flags backup) as [snap|e1]; simpl; [|eauto].
  rewrite (projectFiles_visit flags w P HP es Hes).
  destruct (visitProjects_Panic flags w es name (Dir es') e Hin Hvisit) as [e' ->].
  simpl. eauto.
Qed.

Lemma git_failure_stops_run_witness :
  ∃ e',
    main (Example.flags0 false)
      {| lookPathGit := None;
         git := {| lsFilesOthers := λ _, ("", Some (ExitError 128 "fatal: not a git repository"));
                   branchShowCurrent := branchShowCurrent Example.git0;
                   diffNameOnly := diffNameOnly Example.git0;
                   diffNoIndex := Example.diffFiles |};
         projects := Example.projects0;
         mapRange := elements |}
      Example.backup0 = Panic e'.
Proof.
  eapply (git_failure_stops_run (Example.flags0 false) _ ["projects"] Example.backup0
            [("app", Example.app0)] "app" _
            (ExitError 128 "fatal: not a git repository")).
  - apply absolute_projects0.
  - exact wfFs_projects0.
  - reflexivity.
  - apply list_elem_of_singleton. reflexivity.
  - discriminate.
  - left. reflexivity.
Defined.



(** * The order of the walk *)

Section WalkOrder.

Lemma StronglySorted_filter {A} (R : relation A) (P : A → bool) l :
  StronglySorted R l → StronglySorted R (List.filter P l).
Proof.
  induction 1 as [|x l Hl IH Hx]; simpl; [constructor|].
  destruct (P x); [|done]. constructor; [done|].
  rewrite Forall_forall in Hx |- *. intros y [Hy _]%list_elem_of_In%filter_In.
  by apply Hx, list_elem_of_In.
Qed.

Lemma StronglySorted_fmap_elem_of {A B} (f : A → B) (R1 : relation A) (R2 : relation B) l :
  (∀ x y, x ∈ l → y ∈ l → R1 x y → R2 (f x) (f y)) →
  StronglySorted R1 l → StronglySorted R2 (f <$> l).
Proof.
  intros Hf Hl. induction Hl as [|x l Hl IH Hx]; csimpl; constructor.
  - apply IH. intros y z Hy Hz. apply Hf; by right.
  - rewrite Forall_fmap. rewrite Forall_forall in Hx |- *. intros y Hy. simpl.
    apply Hf; [by left|by right|by apply Hx].
Qed.

Lemma StronglySorted_lookup {A} (R : relation A) l (j i : nat) x y :
  StronglySorted R l → (j < i)%nat → l !! j = Some x → l !! i = Some y → R x y.
Proof.
  intros Hl. revert j i. induction Hl as [|z l Hl IH Hz]; intros j i Hji; [done|].
  destruct i as [|i]; [lia|]. destruct j as [|j]; simpl.
  - intros [= ->] Hy. rewrite Forall_forall in Hz. by eapply Hz, list_elem_of_lookup_2.
  - apply IH. lia.
Qed.

(** [filepath.WalkDir] visits no entry before a directory it is under,
    and none twice. *)
Lemma subpaths_sorted n : wfNode n → StronglySorted walkOrder (subpaths n).
Proof.
  induction n as [d m|es IH] using node_ind; intros Hwf.
  - repeat constructor.
  - apply wfNode_Dir in Hwf as [Hnd Hall]. rewrite subpaths_Dir. constructor.
    + induction es as [|[name c] es IHes]; [constructor|].
      apply Forall_cons in IH as [IHc IH]. apply Forall_cons in Hall as [[_ Hc] Hall].
      apply NoDup_cons in Hnd as [Hname Hnd]. simpl in *.
      apply StronglySorted_app_2; [|by apply (StronglySorted_fmap _ walkOrder walkOrder);
          [intros x y Hxy Hp; apply Hxy; by eapply prefix_cons_inv_2|apply IHc]|by apply IHes].
      intros x1 x2 ([q1 b1] & -> & _)%list_elem_of_fmap
                   ([name2 c2] & ([q2 b2] & -> & _)%list_elem_of_fmap & Hin)%list_elem_of_bind.
      intros Hp. simpl in Hp. apply prefix_cons_inv_1 in Hp as ->.
      apply Hname. apply list_elem_of_fmap. by exists (name, c2).
    + apply Forall_forall.
      intros x ([name c] & ([q b] & -> & _)%list_elem_of_fmap & _)%list_elem_of_bind.
      intros Hp. simpl in Hp. by apply prefix_nil_inv in Hp.
Qed.

(** The directories of the snapshot are in the order of the walk. *)
Lemma dirsOf_sorted n :
  wfNode n →
  StronglySorted (λ d1 d2, ¬ relElements d2 `prefix_of` relElements d1) (dirsOf n).
Proof.
  intros Hwf. unfold dirsOf.
  apply (StronglySorted_fmap_elem_of _ walkOrder); [|by apply StronglySorted_filter, subpaths_sorted].
  intros [q1 b1] [q2 b2] [H1 _]%list_elem_of_In%filter_In [H2 _]%list_elem_of_In%filter_In.
  apply list_elem_of_In in H1, H2. simpl.
  rewrite !relElements_fromElements; [done|..];
    apply canonical_names; by eapply subpaths_valid.
Qed.

Lemma dirsOf_NoDup n : wfNode n → NoDup (dirsOf n).
Proof.
  intros Hwf. apply NoDup_alt. intros i j d Hi Hj.
  pose proof (dirsOf_sorted n Hwf) as Hs.
  destruct (Nat.lt_trichotomy i j) as [Hlt|[->|Hlt]]; [|done|].
  - by destruct (StronglySorted_lookup _ _ _ _ _ _ Hs Hlt Hi Hj).
  - by destruct (StronglySorted_lookup _ _ _ _ _ _ Hs Hlt Hj Hi).
Qed.

Lemma dirsOf_inside n d : wfNode n → d ∈ dirsOf n → inside d = true.
Proof.
  intros Hwf (q & es & -> & Hq & _)%elem_of_dirsOf; [|done].
  by apply inside_fromElements.
Qed.

End WalkOrder.

(** * The third loop on the tree *)

Section Prune.

Variable flags : Flags.
Variable dirs : list string.

Lemma pruneLoop_nodeAt (i : nat) backup q :
  (i < List.length dirs)%nat →
  (∀ (j : nat) dj, (0 < j ≤ i)%nat → dirs !! j = Some dj →
                   ¬ q `prefix_of` backupAt flags dj) →
  nodeAt (pruneLoop flags dirs i backup).1 q = nodeAt backup q.
Proof.
  intros Hi Hq. apply (pruneLoop_keeps flags (λ b, nodeAt b q = nodeAt backup q)); [|done].
  intros j b b' err Hj <- Hr.
  destruct (lookup_lt_is_Some_2 dirs j) as [d Hd]; [lia|]. rewrite Hd in Hr. simpl in Hr.
  eapply Remove_nodeAt; [done|]. by apply (Hq j).
Qed.

Lemma pruneLoop_no_empty (i : nat) backup :
  (∀ (j k : nat) dj dk, (j < k)%nat → dirs !! j = Some dj → dirs !! k = Some dk →
                        ¬ backupAt flags dk `prefix_of` backupAt flags dj) →
  (i < List.length dirs)%nat →
  ∀ (k : nat) d, (0 < k ≤ i)%nat → dirs !! k = Some d →
    nodeAt (pruneLoop flags dirs i backup).1 (backupAt flags d) ≠ Some (Dir []).
Proof.
  intros Hsorted. revert backup. induction i as [|i IH]; intros backup Hi k d Hk Hd; [lia|].
  cbn [pruneLoop]. unfold pruneOne.
  destruct (lookup_lt_is_Some_2 dirs (S i) Hi) as [d0 Hd0]. rewrite Hd0. simpl.
  destruct (Os.Remove _ _) as [backup1 err] eqn:Hr.
  pose proof (pruneLoop_nodeAt i backup1 (backupAt flags d)) as Hkeep.
  specialize (IH backup1 ltac:(lia) k d).
  destruct (pruneLoop flags dirs i backup1) as [backup2 evs2]. simpl in *.
  destruct (decide (k = S i)) as [->|Hne]; [|apply IH; [lia|done]].
  rewrite Hd0 in Hd. injection Hd as ->.
  rewrite Hkeep; [|lia|by intros j dj Hj Hdj; apply (Hsorted j (S i)); [lia|..]].
  exact (Remove_not_empty _ _ _ _ Hr).
Qed.

Lemma pruneLoop_fileAt (i : nat) backup q :
  (i < List.length dirs)%nat →
  (∀ d, d ∈ dirs → fileAt backup (backupAt flags d) = None) →
  fileAt (pruneLoop flags dirs i backup).1 q = fileAt backup q.
Proof.
  revert backup. induction i as [|i IH]; intros backup Hi Hno; [done|].
  cbn [pruneLoop]. unfold pruneOne.
  destruct (lookup_lt_is_Some_2 dirs (S i) Hi) as [d Hd]. rewrite Hd. simpl.
  destruct (Os.Remove _ _) as [backup1 err] eqn:Hr.
  specialize (IH backup1 ltac:(lia)).
  destruct (pruneLoop flags dirs i backup1) as [backup2 evs2]. simpl in *.
  rewrite IH by (intros d' Hd'; eapply Remove_keeps_absent; [by apply Hno|done]).
  destruct (decide (q = backupAt flags d)) as [->|Hne].
  - rewrite (Remove_keeps_absent _ _ _ _ _ (Hno d (list_elem_of_lookup_2 _ _ _ Hd)) Hr).
    symmetry. apply Hno. by eapply list_elem_of_lookup_2.
  - by eapply Remove_frame.
Qed.

Lemma pruneLoop_fileAt_Some (i : nat) backup q x :
  fileAt (pruneLoop flags dirs i backup).1 q = Some x → fileAt backup q = Some x.
Proof.
  apply (pruneLoop_keeps flags (λ b, fileAt b q = Some x → fileAt backup q = Some x));
    [|done].
  intros j b b' err _ Hb Hr Hq. apply Hb. by eapply Remove_fileAt_Some.
Qed.

End Prune.

Section Run.

Variable flags : Flags.
Variable w : World.

Lemma deletePass_fileAt_Some order backup q x :
  fileAt (deletePass flags order backup).1 q = Some x → fileAt backup q = Some x.
Proof.
  apply (deletePass_keeps flags (λ b, fileAt b q = Some x → fileAt backup q = Some x));
    [|done].
  intros p b b' err _ Hb Hr Hq. apply Hb. by eapply Remove_fileAt_Some.
Qed.

Lemma prunePass_fileAt_Some dirs backup q x :
  fileAt (prunePass flags dirs backup).1 q = Some x → fileAt backup q = Some x.
Proof.
  unfold prunePass. destruct (dryRun flags); simpl; [done|]. apply pruneLoop_fileAt_Some.
Qed.

(** A run makes and changes files only where it copies to. *)
Lemma reconcile_fileAt files dirs backedUp backup q x :
  (∀ c, c ∈ files → sourceExists flags w c = true → q ≠ backupAt flags c) →
  fileAt (reconcile flags w files dirs backedUp backup).1 q = Some x →
  fileAt backup q = Some x.
Proof.
  intros Hq. unfold reconcile.
  pose proof (copyPass_frame flags w files backedUp backup q Hq) as H1.
  destruct (copyPass flags w files backedUp backup) as [[backedUp1 backup1] evs1].
  pose proof (deletePass_fileAt_Some (mapRange w backedUp1) backup1 q x) as H2.
  destruct (deletePass flags (mapRange w backedUp1) backup1) as [backup2 evs2].
  pose proof (prunePass_fileAt_Some dirs backup2 q x) as H3.
  destruct (prunePass flags dirs backup2) as [backup3 evs3].
  simpl in *. intros Hf. rewrite <- H1. auto.
Qed.

Hypothesis Hdry : dryRun flags = true.

Lemma calls_copyOne_dry c files backup :
  List.filter calls (copyOne flags w c files backup).2 = [].
Proof using Hdry.
  unfold copyOne, copyOrSay. rewrite Hdry. destruct (Os.Stat _ _) as [i err].
  destruct (Os.IsNotExist err); [done|].
  destruct (decide _); [|done]. by destruct (Nat.eqb _ 0).
Qed.

Lemma filter_app_nil {A} (P : A → bool) l1 l2 :
  List.filter P l1 = [] → List.filter P l2 = [] → List.filter P (l1 ++ l2) = [].
Proof. intros H1 H2. by rewrite List.filter_app, H1, H2. Qed.

Lemma calls_copyPass_dry files backedUp backup :
  List.filter calls (copyPass flags w files backedUp backup).2 = [].
Proof using Hdry.
  revert backedUp backup. induction files as [|c files IH]; intros backedUp backup; [done|].
  cbn [copyPass]. pose proof (calls_copyOne_dry c backedUp backup) as H1.
  destruct (copyOne flags w c backedUp backup) as [[backedUp1 backup1] evs1].
  specialize (IH backedUp1 backup1).
  destruct (copyPass flags w files backedUp1 backup1) as [[backedUp2 backup2] evs2].
  simpl in *. by apply filter_app_nil.
Qed.

Lemma calls_deletePass_dry order backup :
  List.filter calls (deletePass flags order backup).2 = [].
Proof using Hdry.
  revert backup. induction order as [|p order IH]; intros backup; [done|].
  cbn [deletePass]. unfold deleteOne. rewrite Hdry.
  specialize (IH backup). destruct (deletePass flags order backup). simpl in *. done.
Qed.

Lemma calls_reconcile_dry files dirs backedUp backup :
  List.filter calls (reconcile flags w files dirs backedUp backup).2 = [].
Proof using Hdry.
  unfold reconcile. pose proof (calls_copyPass_dry files backedUp backup) as H1.
  destruct (copyPass flags w files backedUp backup) as [[backedUp1 backup1] evs1].
  pose proof (calls_deletePass_dry (mapRange w backedUp1) backup1) as H2.
  destruct (deletePass flags (mapRange w backedUp1) backup1) as [backup2 evs2].
  unfold prunePass. rewrite Hdry. simpl in *.
  apply filter_app_nil; [done|]. by rewrite app_nil_r.
Qed.

End Run.

(** X10: the snapshot of a backup directory that is there: every file
    under it, and nothing else, is in the set of backed-up files under
    its clean path from the backup directory, every directory, and nothing
    else, is in the list of directories under its own, and no directory is
    listed twice; when nothing is at the path of the backup directory, or
    a regular file is on the way to it, the run panics. *)
Theorem snapshot_exact flags B backup :
  absolute (backupPath flags) B → wfFs backup →
  (∀ n, Os.walkTo backup B = inr n →
     ∃ dirs files,
       snapshot flags backup = Ok (dirs, files) ∧
       NoDup dirs ∧
       (∀ q, Forall (λ e, validName e = true) q →
          (Filepath.fromElements q ∈ files ↔ ∃ d m, fileAt backup (B ++ q) = Some (d, m)) ∧
          (Filepath.fromElements q ∈ dirs ↔ dirAt backup (B ++ q) = true)) ∧
       (∀ p, p ∈ files ∨ p ∈ dirs →
          ∃ q, Forall (λ e, validName e = true) q ∧ p = Filepath.fromElements q)) ∧
  (∀ e, Os.walkTo backup B = inl e →
     snapshot flags backup = Panic (PathError "lstat" (backupPath flags) e)).
Proof.
  intros HB Hwf. split; [|intros e; by apply snapshot_Panic].
  intros n Hn. assert (Hwfn : wfNode n) by by eapply walkTo_wf.
  pose proof (snapshot_wf flags B backup n HB Hwfn Hn) as Hsnap.
  exists (dirsOf n), (list_to_set (filesOf n)).
  split; [done|]. split; [by apply dirsOf_NoDup|].
  assert (Hinj : ∀ q q', Forall (λ e, validName e = true) q →
                         Forall (λ e, validName e = true) q' →
                         Filepath.fromElements q = Filepath.fromElements q' → q = q').
  { intros q q' Hq Hq' Heq.
    rewrite <- (relElements_fromElements q), <- (relElements_fromElements q'), Heq;
      [done|by apply canonical_names..]. }
  split.
  - intros q Hq. split.
    + rewrite (elem_of_snapshot flags B HB backup _ _ _ Hwf Hsnap). split.
      * intros (q' & d & m & Heq & Hq' & Hf). rewrite (Hinj _ _ Hq Hq' Heq). eauto.
      * intros (d & m & Hf). by exists q, d, m.
    + rewrite (elem_of_snapshot_dirs flags B HB backup _ _ _ Hwf Hsnap). split.
      * intros (q' & Heq & Hq' & Hd). by rewrite (Hinj _ _ Hq Hq' Heq).
      * intros Hd. by exists q.
  - intros p [Hp|Hp].
    + apply (elem_of_snapshot flags B HB backup _ _ _ Hwf Hsnap) in Hp
        as (q & d & m & -> & Hq & _). eauto.
    + apply (elem_of_snapshot_dirs flags B HB backup _ _ _ Hwf Hsnap) in Hp
        as (q & -> & Hq & _). eauto.
Qed.

Lemma snapshot_exact_witness :
  ∃ dirs files,
    snapshot (Example.flags0 false) Example.backup0 = Ok (dirs, files) ∧
    dirs = ["."; "app"; "tmp"; "tmp/cache"] ∧
    "app/notes.txt" ∈ files ∧ "tmp/cache" ∉ files.
Proof.
  destruct (snapshot_exact (Example.flags0 false) ["backup"] Example.backup0
              (absolute_backup0 false) wfFs_backup0) as [Hok _].
  destruct (Hok _ eq_refl) as (dirs & files & Hsnap & _ & Hin & _).
  exists dirs, files. split; [exact Hsnap|].
  split; [vm_compute in Hsnap; by injection Hsnap as <- _|].
  split.
  - apply (Hin ["app"; "notes.txt"]); [by repeat constructor|]. by eexists _, _.
  - intros Hf. apply (Hin ["tmp"; "cache"]) in Hf as (d & m & Hf); [done|by repeat constructor].
Defined.

(** X11: the test of the first loop on the set of backed-up files is
    exact for a path that is clean and stays inside the backup directory:
    it is in the set when, and only when, the path its backup is kept at
    is a regular file of the backup. *)
Theorem candidate_found_iff_file flags B backup dirs backedUp c :
  absolute (backupPath flags) B → wfFs backup →
  snapshot flags backup = Ok (dirs, backedUp) →
  inside c = true →
  (c ∈ backedUp ↔
   ∃ d m, Os.resolve backup (Filepath.Join (backupPath flags) c) = inr (File d m)).
Proof.
  intros HB Hwf Hsnap Hc.
  rewrite (elem_of_snapshot flags B HB backup dirs backedUp c Hwf Hsnap).
  pose proof Hc as [Hq Hfrom]%inside_spec.
  change (Os.resolve backup (Filepath.Join (backupPath flags) c))
    with (Os.walkTo backup (backupAt flags c)).
  rewrite (backupAt_inside flags B HB c Hc). split.
  - intros (q & d & m & -> & Hq' & Hf). exists d, m.
    rewrite relElements_fromElements by by apply canonical_names. by apply fileAt_walkTo.
  - intros (d & m & Hres). exists (relElements c), d, m.
    split; [done|]. split; [done|]. by apply fileAt_walkTo.
Qed.

Lemma candidate_found_iff_file_witness :
  ∃ dirs backedUp,
    snapshot (Example.flags0 false) Example.backup0 = Ok (dirs, backedUp) ∧
    "app/notes.txt" ∈ backedUp ∧ "app/new.txt" ∉ backedUp.
Proof.
  destruct (snapshot (Example.flags0 false) Example.backup0) as [[dirs backedUp]|e] eqn:Hsnap;
    [|vm_compute in Hsnap; discriminate].
  exists dirs, backedUp. split; [reflexivity|].
  pose proof (λ c, candidate_found_iff_file (Example.flags0 false) ["backup"]
                     Example.backup0 dirs backedUp c
                     (absolute_backup0 false) wfFs_backup0 Hsnap) as Hiff.
  split.
  - apply Hiff; [reflexivity|]. by eexists _, _.
  - intros Hin. apply Hiff in Hin as (d & m & Hres); [done|reflexivity].
Defined.

(** X12: a dry run calls neither [copyFile] nor [os.Remove], on a file
    or on a directory; what it prints starts with the two lines of the
    header. *)
Theorem dry_run_calls_nothing flags w backup backup' evs :
  main (withDryRun flags true) w backup = Ok (backup', evs) →
  List.filter calls evs = [] ∧
  ∃ rest, evs = Println "Simulating changes to backup directory:" :: Println "" :: rest.
Proof.
  intros (dirs & backedUp & files & evs' & _ & _ & _ & Hrec & ->)%main_Ok.
  pose proof (calls_reconcile_dry (withDryRun flags true) w eq_refl files dirs backedUp backup)
    as Hcalls.
  rewrite Hrec in Hcalls. simpl in Hcalls. split; [|by eexists].
  by rewrite List.filter_app, Hcalls.
Qed.

Lemma dry_run_calls_nothing_witness :
  ∃ backup' evs,
    main (withDryRun (Example.flags0 true) true) Example.world0 Example.backup0
    = Ok (backup', evs) ∧
    List.filter calls evs = [].
Proof.
  destruct (main (withDryRun (Example.flags0 true) true) Example.world0 Example.backup0)
    as [[backup' evs]|e] eqn:Hmain; [|vm_compute in Hmain; discriminate].
  exists backup', evs. split; [reflexivity|].
  by destruct (dry_run_calls_nothing _ _ _ _ _ Hmain).
Defined.



(** X14: the third loop removes directories only: every file that is in
    the backup after the first two loops of a run on the snapshot is
    there, the same, after the third, and no file is removed by it. *)
Theorem prune_removes_no_file flags w B backup dirs backedUp files order q :
  absolute (backupPath flags) B →
  wfFs backup → snapshot flags backup = Ok (dirs, backedUp) →
  let backup1 := (copyPass (withDryRun flags false) w files backedUp backup).1.2 in
  let backup2 := (deletePass (withDryRun flags false) order backup1).1 in
  fileAt (prunePass (withDryRun flags false) dirs backup2).1 q = fileAt backup2 q.
Proof.
  intros HB Hwf Hsnap. cbv zeta.
  unfold prunePass. simpl. destruct dirs as [|d0 ds] eqn:Hdirs; [done|].
  rewrite <- Hdirs in *. apply pruneLoop_fileAt; [rewrite Hdirs; simpl; lia|].
  intros d Hd. apply deletePass_keeps_absent.
  apply dirAt_fileAt, copyPass_dirAt.
  apply (elem_of_snapshot_dirs flags B HB backup dirs backedUp d Hwf Hsnap) in Hd
    as (q' & -> & Hq' & Hd).
  change (backupAt (withDryRun flags false)) with (backupAt flags).
  by rewrite (backupAt_fromElements flags B HB).
Qed.

Lemma prune_removes_no_file_witness :
  ∃ dirs backedUp,
    snapshot (Example.flags0 false) Example.backup0 = Ok (dirs, backedUp) ∧
    fileAt (prunePass (withDryRun (Example.flags0 false) false) dirs
              (deletePass (withDryRun (Example.flags0 false) false) ["app/old.txt"]
                 (copyPass (withDryRun (Example.flags0 false) false) Example.world0
                    ["app/new.txt"] backedUp Example.backup0).1.2).1).1
      ["backup"; "app"; "new.txt"] = Some ("n", 420%N).
Proof.
  destruct (snapshot (Example.flags0 false) Example.backup0) as [[dirs backedUp]|e] eqn:Hsnap;
    [|vm_compute in Hsnap; discriminate].
  exists dirs, backedUp. split; [reflexivity|].
  rewrite (prune_removes_no_file (Example.flags0 false) Example.world0 ["backup"]
             Example.backup0 dirs backedUp ["app/new.txt"] ["app/old.txt"]
             ["backup"; "app"; "new.txt"] (absolute_backup0 false) wfFs_backup0 Hsnap).
  vm_compute in Hsnap. injection Hsnap as <- <-. vm_compute. reflexivity.
Defined.

(** X15: the third loop removes the empty directories recursively: after
    it, whatever tree it started on, none of the directories of the
    snapshot but the backup directory itself is an empty directory; each
    one is gone, or something is in it. *)
Theorem prune_leaves_no_empty_directory flags B backup0 dirs backedUp backup d :
  absolute (backupPath flags) B →
  wfFs backup0 → snapshot flags backup0 = Ok (dirs, backedUp) →
  d ∈ drop 1 dirs →
  nodeAt (prunePass (withDryRun flags false) dirs backup).1 (backupAt flags d)
  ≠ Some (Dir []).
Proof.
  intros HB Hwf Hsnap Hd.
  destruct (snapshot_Ok flags B HB backup0 dirs backedUp Hwf Hsnap) as (n & Hn & Hwfn & -> & _).
  apply list_elem_of_lookup in Hd as [k Hk]. rewrite lookup_drop in Hk.
  unfold prunePass. simpl.
  pose proof (lookup_lt_Some _ _ _ Hk) as Hlen.
  apply (pruneLoop_no_empty (withDryRun flags false) (dirsOf n)) with (k := (1 + k)%nat);
    [|lia|lia|done].
  intros j k' dj dk Hjk Hj Hk'.
  pose proof (StronglySorted_lookup _ _ _ _ _ _ (dirsOf_sorted n Hwfn) Hjk Hj Hk') as Hnot.
  change (backupAt (withDryRun flags false)) with (backupAt flags).
  rewrite !(backupAt_inside flags B HB)
    by (eapply dirsOf_inside; [done|by eapply list_elem_of_lookup_2]).
  intros Hp. apply Hnot. by eapply prefix_app_inv.
Qed.

Lemma prune_leaves_no_empty_directory_witness :
  ∃ dirs backedUp,
    snapshot (Example.flags0 false) Example.backup0 = Ok (dirs, backedUp) ∧
    nodeAt Example.backup0 ["backup"; "tmp"; "cache"] = Some (Dir []) ∧
    nodeAt (prunePass (withDryRun (Example.flags0 false) false) dirs Example.backup0).1
      (backupAt (Example.flags0 false) "tmp") ≠ Some (Dir []).
Proof.
  destruct (snapshot (Example.flags0 false) Example.backup0) as [[dirs backedUp]|e] eqn:Hsnap;
    [|vm_compute in Hsnap; discriminate].
  exists dirs, backedUp. split; [reflexivity|]. split; [reflexivity|].
  apply (prune_leaves_no_empty_directory (Example.flags0 false) ["backup"] Example.backup0
           dirs backedUp Example.backup0 "tmp" (absolute_backup0 false) wfFs_backup0 Hsnap).
  vm_compute in Hsnap. injection Hsnap as <- _. set_solver.
Defined.


